(** * Tagline batch engine: intake, per-item state machine, bounded scheduler

    A shallow embedding of [src/App.tsx] (the [App] component's engine
    functions, its derived values and [resizeImage]), of the keyword view
    and the copy button of [src/BatchCard.tsx], of the adapter
    [analyzeImage] (services/geminiService) and of the record types of
    [types.ts].

    Conventions of the embedding.
    - React state ([batch], [selectedKeywordsMap], [isProcessingAll],
      [isPreparing]) and the [base64Store] ref are fields of one [State];
      every [setX(updater)] call is one application of its updater to the
      field, and handlers read the latest committed value.
    - JavaScript runs to completion: a synchronous block and the promise
      continuations it schedules are [Job]s, run before any further external
      event is dispatched.  An external event is a user operation or the
      settlement of an in-flight provider call.  A turn of the loop performs
      at most one write to the item store.
    - What the browser and the provider decide (decoded picture sizes, JPEG
      encodings, object URLs, [Math.random] draws, response bodies) is carried
      by the inputs of the events.  The TypeScript types are taken at their
      word: a parsed response is a [GeminiResponse], a thrown value is an
      [Error] with a message.
    - [addFilesToBatch] suspends once, on [Promise.all]; it is one turn, taken
      when that promise settles.  Events that arrive while the files of an
      intake are still being decoded are not part of the model: nothing
      below is about a state between the start of an intake and that turn.  [capturePhoto] is given the data URL of the
      frame; its own scaling is not part of the engine.
    - The keyword views ([filteredKeywords] of the modal and of the card),
      the clipboard handlers and the counters of the header read the state
      and leave it alone: they are functions of the state, and what a handler
      hands to the clipboard is its value.  The canvas size that
      [capturePhoto] computes for a frame is [capture_dims], and the part of
      a data URL that [analyzeImage] sends is [base64Data]. *)

From Stdlib Require Import ZArith Floats Lia Ascii.
From stdpp Require Import gmap strings list sorting.

Open Scope Z_scope.

(** ** Constants (App.tsx, lines 8-9) *)

Definition CONCURRENCY_LIMIT : nat := 5.
Definition MAX_IMAGE_DIMENSION : Z := 1024.

(** ** Record types (types.ts) *)

Module Status.
Inductive t := pending | processing | completed | error.
End Status.

Record KeywordMetadata := {
  word : string;
  relevance : Z;
  platforms : list string
}.

Record AnalysisResult := {
  taglines : list string;
  keywords : list KeywordMetadata;
  description : string;
  suggestedPlatforms : list string
}.

Record GeminiResponse := {
  g_taglines : list string;
  g_keywords : list KeywordMetadata;
  g_description : string;
  g_platforms : list string
}.

Record BatchItem := {
  id : string;
  image : string;
  previewUrl : string;
  status : Status.t;
  result : option AnalysisResult;
  error : option string
}.

(** ** Image normalizer: [resizeImage] (App.tsx, lines 12-54)

    [img.width] and [img.height] are unsigned integers and 1024 is an integer
    literal, which JavaScript numbers hold exactly: the two variables and
    both comparisons are over [Z].  The products [height * (1024 / width)]
    and [width * (1024 / height)] are not integers in general; they are
    evaluated in IEEE binary64 with the kernel's primitive floats.  Assigning
    a number to [canvas.width] converts it to an unsigned long: truncation
    toward zero, modulo 2^32. *)

Definition of_int (z : Z) : float := PrimFloat.of_uint63 (Uint63.of_Z z).

Definition trunc (f : float) : Z :=
  match Prim2SF f with
  | S754_finite neg m e =>
      let v := if 0 <=? e then Z.shiftl (Z.pos m) e
               else Z.shiftr (Z.pos m) (- e) in
      if neg then - v else v
  | _ => 0
  end.

Definition to_unsigned_long (z : Z) : Z := z mod 2 ^ 32.

(** [v * (1024 / d)] as the source computes it, then stored in a canvas
    attribute. *)
Definition scaled (v d : Z) : Z :=
  to_unsigned_long
    (trunc (PrimFloat.mul (of_int v)
              (PrimFloat.div (of_int MAX_IMAGE_DIMENSION) (of_int d)))).

(** The canvas size chosen for a decoded picture of size [(width, height)]. *)
Definition resize_dims (width height : Z) : Z * Z :=
  if height <? width then
    if MAX_IMAGE_DIMENSION <? width
    then (to_unsigned_long MAX_IMAGE_DIMENSION, scaled height width)
    else (to_unsigned_long width, to_unsigned_long height)
  else
    if MAX_IMAGE_DIMENSION <? height
    then (scaled width height, to_unsigned_long MAX_IMAGE_DIMENSION)
    else (to_unsigned_long width, to_unsigned_long height).

(** A submitted [File].  [natural] is the size the browser decodes the file
    to, [None] when [img.onload] never fires (the promise of [resizeImage]
    then never settles: the source installs no [onerror]).  [toDataURL] is
    the JPEG data URL of the picture drawn on a canvas of the given size, and
    [objectURL] what [URL.createObjectURL] returns for the file. *)
Record File := {
  type : string;
  natural : option (Z * Z);
  toDataURL : Z * Z -> string;
  objectURL : string
}.

(** [resizeImage file]: [Some (base64, preview)] when the promise resolves,
    [None] when it stays pending for ever. *)
Definition resizeImage (file : File) : option (string * string) :=
  match natural file with
  | Some (w, h) => Some (toDataURL file (resize_dims w h), objectURL file)
  | None => None
  end.

Close Scope Z_scope.

(** ** Engine state *)

(** Who awaits an [analyzeSingle] call: the card's button (nobody awaits the
    promise) or a worker of the batch run number [r]. *)
Inductive Owner := Standalone | Worker (r : nat).

(** A provider call in flight: [analyzeSingle(call_id)] is suspended at
    [await analyzeImage(call_data)] (line 286). *)
Record Call := {
  call_id : string;
  call_data : string;
  call_owner : Owner
}.

(** Pending synchronous work and promise continuations. *)
Inductive Job :=
| JAnalyze (o : Owner) (x : string)   (* analyzeSingle(x) is entered, line 279 *)
| JLookup (o : Owner) (x : string)    (* analyzeSingle(x) goes on at line 280 *)
| JWorker (r : nat).                  (* a worker tests its loop condition, line 305 *)

(** One invocation of [processAll] that passed its guard: the shared [queue]
    array and the number of worker promises not yet resolved. *)
Record Run := {
  queue : list BatchItem;
  live : nat
}.

Record State := {
  batch : list BatchItem;
  base64Store : gmap string string;
  selectedKeywordsMap : gmap string (list string);
  isProcessingAll : bool;
  isPreparing : bool;
  runs : list Run;
  calls : list Call;
  jobs : list Job;
  (* history of the [analyzeSingle] invocations, oldest first; instrumentation
     only, never read by the engine *)
  trace : list (Owner * string)
}.

Definition initial : State :=
  {| batch := []; base64Store := ∅; selectedKeywordsMap := ∅;
     isProcessingAll := false; isPreparing := false;
     runs := []; calls := []; jobs := []; trace := [] |}.

Definition setBatch (f : list BatchItem -> list BatchItem) (s : State) : State :=
  {| batch := f (batch s); base64Store := base64Store s;
     selectedKeywordsMap := selectedKeywordsMap s;
     isProcessingAll := isProcessingAll s; isPreparing := isPreparing s;
     runs := runs s; calls := calls s; jobs := jobs s; trace := trace s |}.

Definition setStore (f : gmap string string -> gmap string string) (s : State) : State :=
  {| batch := batch s; base64Store := f (base64Store s);
     selectedKeywordsMap := selectedKeywordsMap s;
     isProcessingAll := isProcessingAll s; isPreparing := isPreparing s;
     runs := runs s; calls := calls s; jobs := jobs s; trace := trace s |}.

Definition setSelectedKeywordsMap
    (f : gmap string (list string) -> gmap string (list string)) (s : State) : State :=
  {| batch := batch s; base64Store := base64Store s;
     selectedKeywordsMap := f (selectedKeywordsMap s);
     isProcessingAll := isProcessingAll s; isPreparing := isPreparing s;
     runs := runs s; calls := calls s; jobs := jobs s; trace := trace s |}.

Definition setIsProcessingAll (b : bool) (s : State) : State :=
  {| batch := batch s; base64Store := base64Store s;
     selectedKeywordsMap := selectedKeywordsMap s;
     isProcessingAll := b; isPreparing := isPreparing s;
     runs := runs s; calls := calls s; jobs := jobs s; trace := trace s |}.

Definition setIsPreparing (b : bool) (s : State) : State :=
  {| batch := batch s; base64Store := base64Store s;
     selectedKeywordsMap := selectedKeywordsMap s;
     isProcessingAll := isProcessingAll s; isPreparing := b;
     runs := runs s; calls := calls s; jobs := jobs s; trace := trace s |}.

Definition setRuns (f : list Run -> list Run) (s : State) : State :=
  {| batch := batch s; base64Store := base64Store s;
     selectedKeywordsMap := selectedKeywordsMap s;
     isProcessingAll := isProcessingAll s; isPreparing := isPreparing s;
     runs := f (runs s); calls := calls s; jobs := jobs s; trace := trace s |}.

Definition setCalls (f : list Call -> list Call) (s : State) : State :=
  {| batch := batch s; base64Store := base64Store s;
     selectedKeywordsMap := selectedKeywordsMap s;
     isProcessingAll := isProcessingAll s; isPreparing := isPreparing s;
     runs := runs s; calls := f (calls s); jobs := jobs s; trace := trace s |}.

Definition setJobs (f : list Job -> list Job) (s : State) : State :=
  {| batch := batch s; base64Store := base64Store s;
     selectedKeywordsMap := selectedKeywordsMap s;
     isProcessingAll := isProcessingAll s; isPreparing := isPreparing s;
     runs := runs s; calls := calls s; jobs := f (jobs s); trace := trace s |}.

Definition record (o : Owner) (x : string) (s : State) : State :=
  {| batch := batch s; base64Store := base64Store s;
     selectedKeywordsMap := selectedKeywordsMap s;
     isProcessingAll := isProcessingAll s; isPreparing := isPreparing s;
     runs := runs s; calls := calls s; jobs := jobs s;
     trace := trace s ++ [(o, x)] |}.

(** ** A state monad with exceptions

    [Threw m]: the function threw (its promise rejected with) an [Error] of
    message [m].  [Stuck]: its promise never settles. *)

Inductive Completion (A : Type) :=
| Returned (a : A)
| Threw (message : string)
| Stuck.
Arguments Returned {A} a.
Arguments Threw {A} message.
Arguments Stuck {A}.

Definition M (A : Type) : Type := State -> Completion A * State.

#[global] Instance M_ret : MRet M := fun A a s => (Returned a, s).

#[global] Instance M_bind : MBind M := fun A B k m s =>
  match m s with
  | (Returned a, s') => k a s'
  | (Threw e, s') => (Threw e, s')
  | (Stuck, s') => (Stuck, s')
  end.

Definition throw {A} (message : string) : M A := fun s => (Threw message, s).

Definition never {A} : M A := fun s => (Stuck, s).

Definition try_catch {A} (body : M A) (handler : string -> M A) : M A := fun s =>
  match body s with
  | (Threw e, s') => handler e s'
  | r => r
  end.

Definition get : M State := fun s => (Returned s, s).

Definition modify (f : State -> State) : M unit := fun s => (Returned tt, f s).

Definition exec {A} (m : M A) (s : State) : State := snd (m s).


(** [try { body } finally { fin }]: [fin] runs when [body] returns or
    throws, never while [body] is still pending. *)
Definition try_finally {A} (body : M A) (fin : M unit) : M A := fun s =>
  match body s with
  | (Returned a, s') =>
      match fin s' with
      | (Returned _, s'') => (Returned a, s'')
      | (Threw e, s'') => (Threw e, s'')
      | (Stuck, s'') => (Stuck, s'')
      end
  | (Threw e, s') =>
      match fin s' with
      | (Returned _, s'') => (Threw e, s'')
      | (Threw e', s'') => (Threw e', s'')
      | (Stuck, s'') => (Stuck, s'')
      end
  | (Stuck, s') => (Stuck, s')
  end.

(** [Promise.all]: every promise runs; the result rejects when one of them
    rejects, stays pending when none rejects and one stays pending, and
    otherwise resolves to the list of the results, in the order of the
    promises. *)
Fixpoint promise_all {A} (ms : list (M A)) : M (list A) := fun s =>
  match ms with
  | [] => (Returned [], s)
  | m :: rest =>
      let '(c, s1) := m s in
      let '(cs, s2) := promise_all rest s1 in
      (match c, cs with
       | Threw e, _ => Threw e
       | _, Threw e => Threw e
       | Returned a, Returned l => Returned (a :: l)
       | _, _ => Stuck
       end, s2)
  end.

(** ** Decidable tests used by the engine *)

#[global] Instance Status_eq_dec : EqDecision Status.t.
Proof. solve_decision. Defined.

(** [f.type.startsWith('image/')] (line 193). *)
Definition is_image (f : File) : Prop := String.prefix "image/" (type f) = true.

#[global] Instance is_image_dec f : Decision (is_image f).
Proof. unfold is_image. apply _. Defined.

(** [i.status === 'pending' || i.status === 'error'] (line 300). *)
Definition eligible (i : BatchItem) : Prop :=
  status i = Status.pending \/ status i = Status.error.

#[global] Instance eligible_dec i : Decision (eligible i).
Proof. unfold eligible. apply _. Defined.

(** [!imageData] (line 281): [undefined] and the empty string are falsy. *)
Definition falsy (o : option string) : bool :=
  match o with
  | None => true
  | Some EmptyString => true
  | Some _ => false
  end.

(** ** Intake: [addFilesToBatch] (lines 187-205), [capturePhoto] (257-276) *)

(** A file of the submitted batch with the identifier that
    [Math.random().toString(36).substr(2, 9)] yields in its callback. *)
Record Upload := {
  file : File;
  draw : string
}.

Definition new_item (x preview : string) : BatchItem :=
  {| id := x; image := ""; previewUrl := preview;
     status := Status.pending; result := None; error := None |}.

(** The callback mapped over the accepted files (lines 193-198). *)
Definition intake (u : Upload) : M BatchItem :=
  match resizeImage (file u) with
  | None => never
  | Some (base64, preview) =>
      modify (setStore (insert (draw u) base64));;
      mret (new_item (draw u) preview)
  end.

Definition addFilesToBatch (files : list Upload) : M unit :=
  if decide (length files = 0) then mret tt
  else
    modify (setIsPreparing true);;
    try_finally
      (results ← promise_all (intake <$> filter (fun u => is_image (file u)) files);
       modify (setBatch (fun prev => results ++ prev)))
      (modify (setIsPreparing false)).

(** [capturePhoto] with the camera open; [dataUrl] is the JPEG data URL of
    the captured frame. *)
Definition capturePhoto (dataUrl x : string) : M unit :=
  modify (setStore (insert x dataUrl));;
  modify (setBatch (fun prev => new_item x dataUrl :: prev)).

(** ** Removal: [removeItem] (lines 219-231), [clearBatch] (233-240)

    [URL.revokeObjectURL] releases a browser resource and leaves the three
    stores alone; it has no counterpart here. *)

Definition removeItem (x : string) : M unit :=
  modify (setBatch (filter (fun i => id i ≠ x)));;
  modify (setStore (delete x));;
  modify (setSelectedKeywordsMap (delete x)).

Definition clearBatch (confirmed : bool) : M unit :=
  if confirmed then
    modify (setBatch (fun _ => []));;
    modify (setSelectedKeywordsMap (fun _ => ∅));;
    modify (setStore (fun _ => ∅))
  else mret tt.

(** ** Provider adapter: [analyzeImage] (services/geminiService)

    What the SDK call [ai.models.generateContent] does: it rejects, or it
    answers with a body [text] ([None] for [undefined]); [json] is what
    [JSON.parse(text)] returns, [None] when it throws.  The source casts the
    parsed value to [GeminiResponse] without a check; a body that parses to
    something else ([null], a number) has no counterpart here. *)
Inductive SdkOutcome :=
| SdkRejected (message : string)
| SdkResponded (text : option string) (json : option GeminiResponse).

Definition analyzeImage (o : SdkOutcome) : M GeminiResponse :=
  match o with
  | SdkRejected message => throw message
  | SdkResponded text json =>
      if falsy text then throw "Empty response from AI"
      else match json with
           | Some response => mret response
           | None => throw "Invalid format received from AI"
           end
  end.

(** ** Single item: [analyzeSingle] (lines 278-297) *)

(** [{ ...i, status: 'processing', error: undefined }] *)
Definition mark_processing (i : BatchItem) : BatchItem :=
  {| id := id i; image := image i; previewUrl := previewUrl i;
     status := Status.processing; result := result i; error := None |}.

(** [{ ...i, status: 'completed', result }] *)
Definition mark_completed (r : AnalysisResult) (i : BatchItem) : BatchItem :=
  {| id := id i; image := image i; previewUrl := previewUrl i;
     status := Status.completed; result := Some r; error := error i |}.

(** [{ ...i, status: 'error', error: message }] *)
Definition mark_error (message : string) (i : BatchItem) : BatchItem :=
  {| id := id i; image := image i; previewUrl := previewUrl i;
     status := Status.error; result := result i; error := Some message |}.

(** [prev.map(i => i.id === x ? f(i) : i)] *)
Definition on_id (x : string) (f : BatchItem -> BatchItem)
    (prev : list BatchItem) : list BatchItem :=
  (fun i => if decide (id i = x) then f i else i) <$> prev.

(** The promise of [analyzeSingle] resolves: a worker that awaits it goes
    back to its loop in a later microtask. *)
Definition settled (o : Owner) : M unit :=
  match o with
  | Standalone => mret tt
  | Worker r => modify (setJobs (fun js => js ++ [JWorker r]))
  end.

(** Line 279: the first write.  [record] notes the invocation in the trace;
    the rest of the function is the next job. *)
Definition analyzeSingle (o : Owner) (x : string) : M unit :=
  modify (record o x);;
  modify (setBatch (on_id x mark_processing));;
  modify (setJobs (cons (JLookup o x))).

(** Lines 280-286, up to the provider call. *)
Definition analyzeSingle_lookup (o : Owner) (x : string) : M unit :=
  s ← get;
  let imageData := base64Store s !! x in
  if falsy imageData then
    modify (setBatch (on_id x (mark_error "Image data lost")));;
    settled o
  else
    modify (setCalls (fun cs =>
      cs ++ [{| call_id := x; call_data := default "" imageData; call_owner := o |}])).

(** Lines 285-296, from the settlement of the provider call. *)
Definition analyzeSingle_resume (c : Call) (o : SdkOutcome) : M unit :=
  try_catch
    (aiResponse ← analyzeImage o;
     let result := {| taglines := g_taglines aiResponse;
                      keywords := g_keywords aiResponse;
                      description := g_description aiResponse;
                      suggestedPlatforms := g_platforms aiResponse |} in
     modify (setBatch (on_id (call_id c) (mark_completed result))))
    (fun message => modify (setBatch (on_id (call_id c) (mark_error message))));;
  settled (call_owner c).

(** ** Batch run: [processAll] (lines 299-312) *)

(** One test of a worker's loop condition [queue.length > 0] (line 305) and,
    when it holds, [queue.shift()] and the entry into [analyzeSingle].  When
    the queue is empty the worker's promise resolves; when it was the last
    one, [Promise.all] resolves and line 311 clears the flag. *)
Definition worker (r : nat) : M unit :=
  s ← get;
  match runs s !! r with
  | None => mret tt
  | Some run =>
      match queue run with
      | [] =>
          let n := pred (live run) in
          modify (setRuns (<[r := {| queue := []; live := n |}]>));;
          if decide (n = 0) then modify (setIsProcessingAll false) else mret tt
      | item :: rest =>
          modify (setRuns (<[r := {| queue := rest; live := live run |}]>));;
          modify (setJobs (cons (JAnalyze (Worker r) (id item))))
      end
  end.

(** Lines 300-304: the snapshot, the guard, the flag, the shared queue and
    the workers.  Each worker runs synchronously up to its first [await]:
    the workers' first loop tests are the next jobs, in order. *)
Definition processAll : M unit :=
  s ← get;
  let pendingItems := filter eligible (batch s) in
  if decide (length pendingItems = 0 \/ isProcessingAll s = true) then mret tt
  else
    modify (setIsProcessingAll true);;
    let n := min CONCURRENCY_LIMIT (length pendingItems) in
    let r := length (runs s) in
    modify (setRuns (fun rs => rs ++ [{| queue := pendingItems; live := n |}]));;
    modify (setJobs (fun js => replicate n (JWorker r) ++ js)).

(** ** Keyword selection (lines 314-323) *)

Definition handleToggleKeyword (itemId keyword : string) : M unit :=
  modify (setSelectedKeywordsMap (fun prev =>
    let current := default [] (prev !! itemId) in
    <[itemId := if decide (keyword ∈ current)
                then filter (fun k => k ≠ keyword) current
                else current ++ [keyword]]> prev)).

Definition handleSelectAllInItem (itemId : string) (kws : list KeywordMetadata) : M unit :=
  modify (setSelectedKeywordsMap (fun prev => <[itemId := word <$> kws]> prev)).

(** ** The event loop *)

Inductive Event :=
| AddFiles (files : list Upload)
| CapturePhoto (dataUrl x : string)
| RemoveItem (x : string)
| ClearBatch (confirmed : bool)
| AnalyzeSingle (x : string)
| ProcessAll
| ToggleKeyword (itemId keyword : string)
| SelectAllInItem (itemId : string) (kws : list KeywordMetadata)
| Settle (n : nat) (o : SdkOutcome)   (* the n-th call in flight settles *)
| Microtask.                          (* the next pending job runs *)

Definition run_job (j : Job) : M unit :=
  match j with
  | JAnalyze o x => analyzeSingle o x
  | JLookup o x => analyzeSingle_lookup o x
  | JWorker r => worker r
  end.

(** The handler of an external event. *)
Definition fire (e : Event) : M unit :=
  match e with
  | AddFiles files => addFilesToBatch files
  | CapturePhoto dataUrl x => capturePhoto dataUrl x
  | RemoveItem x => removeItem x
  | ClearBatch confirmed => clearBatch confirmed
  | AnalyzeSingle x => analyzeSingle Standalone x
  | ProcessAll => processAll
  | ToggleKeyword itemId keyword => handleToggleKeyword itemId keyword
  | SelectAllInItem itemId kws => handleSelectAllInItem itemId kws
  | Settle n o =>
      s ← get;
      match calls s !! n with
      | Some c => modify (setCalls (delete n));; analyzeSingle_resume c o
      | None => mret tt
      end
  | Microtask => mret tt
  end.

(** One turn: the next job when there is one (an external event is not
    dispatched while the engine is busy), the event's handler otherwise. *)
Definition turn (e : Event) : M unit := fun s =>
  match jobs s with
  | j :: js => match e with
               | Microtask => run_job j (setJobs (fun _ => js) s)
               | _ => (Returned tt, s)
               end
  | [] => fire e s
  end.

Definition step (e : Event) (s : State) : State := exec (turn e) s.

Definition run (es : list Event) (s : State) : State := foldl (fun s e => step e s) s es.

(** States the engine can be in. *)
Definition reachable (s : State) : Prop := exists es, s = run es initial.

(** ** Properties stated over the definitions above *)

(** The two canvas dimensions are the picture's dimensions times the same
    factor [1024 / max(width, height)] (cross-multiplied, over [Z]). *)
Definition same_factor (width height : Z) (out : Z * Z) : Prop :=
  (fst out * Z.max width height = width * MAX_IMAGE_DIMENSION)%Z /\
  (snd out * Z.max width height = height * MAX_IMAGE_DIMENSION)%Z.

(** The files that pass the filter of line 193. *)
Definition accepted (files : list Upload) : list Upload :=
  filter (fun u => is_image (file u)) files.

(** The browser decodes the file: [resizeImage] resolves. *)
Definition decodes (u : Upload) : Prop := is_Some (natural (file u)).

(** The item and the payload that the callback of lines 193-198 makes of an
    upload whose picture has the natural size [(w, h)]. *)
Definition item_of (u : Upload) : BatchItem :=
  new_item (draw u) (objectURL (file u)).

Definition payload_of (u : Upload) : option string :=
  match natural (file u) with
  | Some (w, h) => Some (toDataURL (file u) (resize_dims w h))
  | None => None
  end.

(** The payload store after the callbacks of [us] ran. *)
Definition stored (us : list Upload) (m : gmap string string) : gmap string string :=
  foldl (fun m u => match payload_of u with
                    | Some b => <[draw u := b]> m
                    | None => m
                    end) m us.

(** Sample inputs: two pictures and a document, and a provider answer. *)
Definition picture (name : string) (w h : Z) : File :=
  {| type := "image/png"; natural := Some (w, h);
     toDataURL := fun _ => "data:image/jpeg;base64," +:+ name;
     objectURL := "blob:" +:+ name |}.

Definition document : File :=
  {| type := "application/pdf"; natural := None;
     toDataURL := fun _ => ""; objectURL := "blob:notes" |}.

Definition three_files : list Upload :=
  [ {| file := picture "a" 2000 1000; draw := "a" |};
    {| file := document; draw := "n" |};
    {| file := picture "b" 640 480; draw := "b" |} ].

Definition answer : GeminiResponse :=
  {| g_taglines := ["Bright days"]; g_keywords := [];
     g_description := "calm"; g_platforms := ["Instagram"] |}.

Definition success : SdkOutcome := SdkResponded (Some "{}") (Some answer).

(** ** The transitions of the engine

    [transition s e s']: one turn of the event loop, for the event [e], takes
    [s] to [s'].  Each
    constructor is one path through a handler or a job, with the state it
    leaves; [step_transition] below shows that every turn which does
    something is one of them. *)

Definition idle (s : State) : Prop := jobs s = [].

(** The state after [settled o]. *)
Definition resume (o : Owner) (s : State) : State :=
  match o with
  | Standalone => s
  | Worker r => setJobs (fun js => js ++ [JWorker r]) s
  end.

Definition result_of (a : GeminiResponse) : AnalysisResult :=
  {| taglines := g_taglines a; keywords := g_keywords a;
     description := g_description a; suggestedPlatforms := g_platforms a |}.

(** The write of [analyzeSingle] when the provider call settles: what
    [analyzeImage] makes of the SDK outcome decides between line 293 and
    line 295. *)
Definition verdict (o : SdkOutcome) : BatchItem -> BatchItem :=
  match o with
  | SdkRejected m => mark_error m
  | SdkResponded text json =>
      if falsy text then mark_error "Empty response from AI"
      else match json with
           | Some a => mark_completed (result_of a)
           | None => mark_error "Invalid format received from AI"
           end
  end.

Definition toggled (keyword : string) (current : list string) : list string :=
  if decide (keyword ∈ current)
  then filter (fun k => k ≠ keyword) current
  else current ++ [keyword].

Inductive transition (s : State) : Event -> State -> Prop :=
| t_add files :
    idle s -> files ≠ [] -> Forall decodes (accepted files) ->
    transition s (AddFiles files)
      (setIsPreparing false
         (setBatch (fun prev => (item_of <$> accepted files) ++ prev)
            (setStore (stored (accepted files)) (setIsPreparing true s))))
| t_add_stuck files :
    idle s -> files ≠ [] -> ¬ Forall decodes (accepted files) ->
    transition s (AddFiles files) (setStore (stored (accepted files)) (setIsPreparing true s))
| t_capture dataUrl x :
    idle s ->
    transition s (CapturePhoto dataUrl x)
      (setBatch (fun prev => new_item x dataUrl :: prev)
         (setStore (insert x dataUrl) s))
| t_remove x :
    idle s ->
    transition s (RemoveItem x)
      (setSelectedKeywordsMap (delete x)
         (setStore (delete x) (setBatch (filter (fun i => id i ≠ x)) s)))
| t_clear :
    idle s ->
    transition s (ClearBatch true)
      (setStore (fun _ => ∅)
         (setSelectedKeywordsMap (fun _ => ∅) (setBatch (fun _ => []) s)))
| t_enter e o x js :
    (idle s /\ o = Standalone /\ js = [] /\ e = AnalyzeSingle x) \/
    (jobs s = JAnalyze o x :: js /\ e = Microtask) ->
    transition s e
      (setJobs (fun _ => JLookup o x :: js)
         (setBatch (on_id x mark_processing) (record o x s)))
| t_lost o x js :
    jobs s = JLookup o x :: js ->
    falsy (base64Store s !! x) = true ->
    transition s Microtask
      (resume o
         (setBatch (on_id x (mark_error "Image data lost"))
            (setJobs (fun _ => js) s)))
| t_call o x js :
    jobs s = JLookup o x :: js ->
    falsy (base64Store s !! x) = false ->
    transition s Microtask
      (setCalls (fun cs => cs ++ [{| call_id := x;
                                     call_data := default "" (base64Store s !! x);
                                     call_owner := o |}])
         (setJobs (fun _ => js) s))
| t_settle n c o :
    idle s -> calls s !! n = Some c ->
    transition s (Settle n o)
      (resume (call_owner c)
         (setBatch (on_id (call_id c) (verdict o)) (setCalls (delete n) s)))
| t_launch :
    idle s -> filter eligible (batch s) ≠ [] -> isProcessingAll s = false ->
    transition s ProcessAll
      (setJobs (fun js =>
                  replicate (min CONCURRENCY_LIMIT (length (filter eligible (batch s))))
                    (JWorker (length (runs s))) ++ js)
         (setRuns (fun rs =>
                     rs ++ [{| queue := filter eligible (batch s);
                               live := min CONCURRENCY_LIMIT
                                         (length (filter eligible (batch s))) |}])
            (setIsProcessingAll true s)))
| t_shift r rn item rest js :
    jobs s = JWorker r :: js -> runs s !! r = Some rn ->
    queue rn = item :: rest ->
    transition s Microtask
      (setJobs (fun _ => JAnalyze (Worker r) (id item) :: js)
         (setRuns (<[r := {| queue := rest; live := live rn |}]>) s))
| t_exit r rn js :
    jobs s = JWorker r :: js -> runs s !! r = Some rn -> queue rn = [] ->
    transition s Microtask
      (setIsProcessingAll
         (if decide (pred (live rn) = 0) then false else isProcessingAll s)
         (setRuns (<[r := {| queue := []; live := pred (live rn) |}]>)
            (setJobs (fun _ => js) s)))
| t_orphan r js :
    jobs s = JWorker r :: js -> runs s !! r = None ->
    transition s Microtask (setJobs (fun _ => js) s)
| t_toggle itemId keyword :
    idle s ->
    transition s (ToggleKeyword itemId keyword)
      (setSelectedKeywordsMap
         (fun prev => <[itemId := toggled keyword (default [] (prev !! itemId))]> prev) s)
| t_select itemId kws :
    idle s ->
    transition s (SelectAllInItem itemId kws)
      (setSelectedKeywordsMap (fun prev => <[itemId := word <$> kws]> prev) s).

(** An item update that leaves the identifier alone. *)
Definition keeps_id (f : BatchItem -> BatchItem) : Prop := forall i, id (f i) = id i.

Create HintDb engine.

(** ** Usage disciplines *)

(** The presentation layer offers the keyword operations on the cards of the
    items in the store only. *)
Definition gated (e : Event) (s : State) : Prop :=
  match e with
  | ToggleKeyword x _ | SelectAllInItem x _ => x ∈ id <$> batch s
  | _ => True
  end.

Fixpoint gated_run (es : list Event) (s : State) : Prop :=
  match es with
  | [] => True
  | e :: es' => gated e s /\ gated_run es' (step e s)
  end.

(** The event is an intake that gives the identifier [x] to a new item. *)
Definition creates (x : string) (e : Event) : Prop :=
  match e with
  | AddFiles files => x ∈ draw <$> accepted files
  | CapturePhoto _ y => y = x
  | _ => False
  end.

(** An item in the store and a card action on it, for the examples. *)
Definition one_item : State := run [CapturePhoto "data:image/jpeg;base64,c" "c"] initial.

(** A state with the analysis of item [c] in flight. *)
Definition in_flight : State := run [AnalyzeSingle "c"; Microtask] one_item.

(** ** Bookkeeping of the batch runs *)

Definition job_owner (j : Job) : Owner :=
  match j with
  | JAnalyze o _ | JLookup o _ => o
  | JWorker r => Worker r
  end.

#[global] Instance Owner_eq_dec : EqDecision Owner.
Proof. solve_decision. Defined.

(** The provider calls in flight that a worker of run [r] awaits. *)
Definition calls_of (r : nat) (s : State) : list Call :=
  filter (fun c => call_owner c = Worker r) (calls s).

(** The jobs that belong to a worker of run [r]. *)
Definition jobs_of (r : nat) (s : State) : list Job :=
  filter (fun j => job_owner j = Worker r) (jobs s).

(** The workers of run [r] that are still in their loop: each one is
    suspended on a provider call or has a job pending. *)
Definition tokens (r : nat) (s : State) : nat :=
  length (calls_of r s) + length (jobs_of r s).

Definition live_of (r : nat) (s : State) : nat :=
  match runs s !! r with
  | Some rn => live rn
  | None => 0
  end.

Definition queue_of (r : nat) (s : State) : list BatchItem :=
  match runs s !! r with
  | Some rn => queue rn
  | None => []
  end.

Definition is_worker_job (j : Job) : Prop :=
  match j with JWorker _ => True | _ => False end.

(** The identifiers on which the workers of run [r] entered [analyzeSingle],
    oldest first. *)
Definition started (r : nat) (s : State) : list string :=
  snd <$> filter (fun p => fst p = Worker r) (trace s).

(** The identifiers a worker of run [r] has taken off the queue and is about
    to enter [analyzeSingle] with. *)
Definition entering (r : nat) (s : State) : list string :=
  omap (fun j => match j with
                 | JAnalyze (Worker r') x => if decide (r' = r) then Some x else None
                 | _ => None
                 end) (jobs s).

(** Nothing is pending and nothing is in flight. *)
Definition quiescent (s : State) : Prop := jobs s = [] /\ calls s = [].

(** The guard of [processAll] (line 301) lets the call through. *)
Definition launches (s : State) : Prop :=
  filter eligible (batch s) ≠ [] /\ isProcessingAll s = false.

(** *** Invariants of the reachable states *)

(** Every live worker is accounted for by a call or a job. *)
Definition counted (s : State) : Prop := forall r, tokens r s = live_of r s.

(** No run has more workers than the limit. *)
Definition capped (s : State) : Prop :=
  forall r rn, runs s !! r = Some rn -> live rn <= CONCURRENCY_LIMIT.

(** A run with queued items has a worker left to take them. *)
Definition staffed (s : State) : Prop :=
  forall r rn, runs s !! r = Some rn -> queue rn ≠ [] -> live rn ≠ 0.

(** The flag is set only while some run has a worker in its loop. *)
Definition flagged (s : State) : Prop :=
  isProcessingAll s = true -> exists r rn, runs s !! r = Some rn /\ live rn ≠ 0.

(** Synchronous continuations sit at the head of the job list: behind the
    head there are only worker resumptions. *)
Definition headed (s : State) : Prop := Forall is_worker_job (tail (jobs s)).

(** Owners name runs that exist. *)
Definition scoped (s : State) : Prop :=
  (forall r x, (Worker r, x) ∈ trace s -> r < length (runs s)) /\
  (forall j r, j ∈ jobs s -> job_owner j = Worker r -> r < length (runs s)) /\
  (forall c r, c ∈ calls s -> call_owner c = Worker r -> r < length (runs s)).

Definition sound (s : State) : Prop :=
  counted s /\ capped s /\ staffed s /\ flagged s /\ headed s /\ scoped s.

(** ** An undisturbed batch run *)

(** Events of the engine itself: a pending job runs, a provider call
    settles. *)
Definition internal (e : Event) : Prop :=
  match e with
  | Microtask | Settle _ _ => True
  | _ => False
  end.

(** A schedule of internal events each of which does something. *)
Fixpoint busy (es : list Event) (s : State) : Prop :=
  match es with
  | [] => True
  | e :: es' => internal e /\ step e s ≠ s /\ busy es' (step e s)
  end.

Definition job_weight (j : Job) : nat :=
  match j with
  | JAnalyze _ _ => 4
  | JLookup _ _ => 3
  | JWorker _ => 1
  end.

Definition queued (rs : list Run) : nat :=
  sum_list_with (fun rn => length (queue rn)) rs.

(** What is left to do: it decreases with every internal event. *)
Definition backlog (s : State) : nat :=
  sum_list_with job_weight (jobs s) + 2 * length (calls s) + 4 * queued (runs s).

Definition terminal (i : BatchItem) : Prop :=
  status i = Status.completed \/ status i = Status.error.

Definition job_ids (js : list Job) : list string :=
  omap (fun j => match j with
                 | JAnalyze _ x | JLookup _ x => Some x
                 | JWorker _ => None
                 end) js.

(** The identifiers whose analysis is still to come or under way, as far as
    run [r] and the engine's pending work go. *)
Definition awaited (r : nat) (s : State) : list string :=
  job_ids (jobs s) ++ (call_id <$> calls s) ++ (id <$> queue_of r s).

(** Every item is done with or still awaited. *)
Definition settling (r : nat) (S : list string) (s : State) : Prop :=
  forall i, i ∈ batch s -> id i ∈ S -> terminal i \/ id i ∈ awaited r s.

(** Sample schedule: the run over [three_files] with one success and one
    transport failure. *)
Definition two_pending : State := run [AddFiles three_files] initial.

Definition mixed_schedule : list Event :=
  [Microtask; Microtask; Microtask; Microtask; Microtask; Microtask;
   Settle 0 success; Microtask; Settle 0 (SdkRejected "network down"); Microtask].

(** ** The item state machine *)

(** The four status changes of section 4.3. *)
Inductive status_step : Status.t -> Status.t -> Prop :=
| step_start : status_step Status.pending Status.processing
| step_retry : status_step Status.error Status.processing
| step_succeed : status_step Status.processing Status.completed
| step_fail : status_step Status.processing Status.error.

Definition strict (a b : Status.t) : Prop := a = b \/ status_step a b.

(** What the writes of [analyzeSingle] do whatever the status was: they
    never put an item back to pending. *)
Definition loose (a b : Status.t) : Prop := a = b \/ b ≠ Status.pending.

Definition moves (R : Status.t -> Status.t -> Prop) (i i' : BatchItem) : Prop :=
  id i = id i' /\ R (status i) (status i').

(** One turn's effect on the item store: new pending items in front, items
    taken out, or the same items with their statuses moved along [R]. *)
Inductive store_step (R : Status.t -> Status.t -> Prop)
    (l l' : list BatchItem) : Prop :=
| ss_intake new :
    Forall (fun i => status i = Status.pending) new -> l' = new ++ l ->
    store_step R l l'
| ss_removal : l' `sublist_of` l -> store_step R l l'
| ss_update : Forall2 (moves R) l l' -> store_step R l l'.

(** [result] is there exactly on completed items and [error] exactly on
    error items. *)
Definition exclusive (i : BatchItem) : Prop :=
  (is_Some (result i) <-> status i = Status.completed) /\
  (is_Some (error i) <-> status i = Status.error).

(** *** Single-flight use

    [analyzeSingle] tests nothing before its first write: that it is entered
    on pending or error items only is up to its callers (the filter of
    [processAll], the button of a pending card), and up to the user not
    starting an item by hand that a run has queued.  Identifiers are random
    draws: nothing keeps a new one apart from one in flight. *)

Definition startable (x : string) (s : State) : Prop :=
  Forall (fun i => id i = x -> eligible i) (batch s).

Definition fresh (x : string) (s : State) : Prop := x ∉ call_id <$> calls s.

Definition disciplined (e : Event) (s : State) : Prop :=
  match jobs s with
  | JAnalyze _ x :: _ => e = Microtask -> startable x s
  | _ :: _ => True
  | [] =>
      match e with
      | AnalyzeSingle x => startable x s
      | AddFiles files => Forall (fun u => fresh (draw u) s) (accepted files)
      | CapturePhoto _ x => fresh x s
      | _ => True
      end
  end.

Fixpoint disciplined_run (es : list Event) (s : State) : Prop :=
  match es with
  | [] => True
  | e :: es' => disciplined e s /\ disciplined_run es' (step e s)
  end.

#[global] Instance Event_eq_Microtask_dec e : Decision (e = Microtask).
Proof. destruct e; (left; reflexivity) || (right; discriminate). Defined.

#[global] Instance disciplined_dec e s : Decision (disciplined e s).
Proof.
  unfold disciplined, startable, fresh.
  destruct (jobs s) as [|[o x|o x|r] js]; [destruct e|..]; apply _.
Defined.

#[global] Instance disciplined_run_dec es : forall s, Decision (disciplined_run es s).
Proof. induction es as [|e es IH]; intros s; cbn [disciplined_run]; apply _. Defined.

Definition head_lookup (x : string) (js : list Job) : nat :=
  match js with
  | JLookup _ y :: _ => if decide (y = x) then 1 else 0
  | _ => 0
  end.

(** The analyses of [x] past their first write and not yet settled. *)
Definition inflight (x : string) (s : State) : nat :=
  length (filter (fun c => call_id c = x) (calls s)) + head_lookup x (jobs s).

Definition orderly (s : State) : Prop :=
  forall i, i ∈ batch s ->
    inflight (id i) s <= 1 /\ (inflight (id i) s = 1 -> status i = Status.processing).

Definition tidy (s : State) : Prop :=
  orderly s /\ forall i, i ∈ batch s -> exclusive i.

(** Sample executions.  [completed_item]: one item, analysed with success.
    [race]: six pictures are queued, five workers start, the user starts the
    sixth by hand, a worker then takes it off the queue; the hand-started
    call succeeds and the worker's call fails. *)
Definition completed_item : State := run [Settle 0 success] in_flight.

Definition six_files : list Upload :=
  (fun n => {| file := picture n 800 600; draw := n |}) <$> ["f1"; "f2"; "f3"; "f4"; "f5"; "f6"].

Definition race : list Event :=
  [AddFiles six_files; ProcessAll] ++ replicate 15 Microtask ++
  [AnalyzeSingle "f6"; Microtask;
   Settle 0 success; Microtask; Microtask; Microtask;
   Settle 4 success; Settle 4 (SdkRejected "network down")].

(** A run over [three_files] in which nothing interferes. *)
Definition quiet_run : list Event :=
  [AddFiles three_files; ProcessAll] ++ mixed_schedule.

(** ** Keyword views: [filteredKeywords] (App.tsx, lines 69-76;
    BatchCard.tsx, lines 47-62)

    [Array.prototype.sort] is stable: for a consistent comparator its result
    is the arrangement that insertion from the right builds, each element
    going in front of the first one it does not have to follow.  The
    collation behind [localeCompare] is the host's and is a parameter of the
    view. *)

Inductive SortMode := by_relevance | alphabetical.

Fixpoint sort_insert {A} (compare : A -> A -> Z) (a : A) (l : list A) : list A :=
  match l with
  | [] => [a]
  | b :: l' => if (compare a b <=? 0)%Z then a :: b :: l'
               else b :: sort_insert compare a l'
  end.

Definition array_sort {A} (compare : A -> A -> Z) (l : list A) : list A :=
  foldr (sort_insert compare) [] l.

Definition filteredKeywords (localeCompare : string -> string -> Z)
    (item : BatchItem) (platform : string) (sortBy : SortMode) : list KeywordMetadata :=
  match result item with
  | None => []
  | Some r =>
      let kws := if decide (platform = "All") then keywords r
                 else filter (fun k => platform ∈ platforms k) (keywords r) in
      match sortBy with
      | by_relevance => array_sort (fun a b => (relevance b - relevance a)%Z) kws
      | alphabetical => array_sort (fun a b => localeCompare (word a) (word b)) kws
      end
  end.

(** ** Clipboard operations (App.tsx, lines 325-345; BatchCard.tsx, lines
    63-74)

    The handlers leave the engine state alone; what they do is the text they
    hand to [navigator.clipboard.writeText], [None] when they return before
    the call. *)

(** [l.join(', ')] *)
Definition array_join (l : list string) : string := String.concat ", " l.

(** The [selectedKeywords] property of a card and of the modal (lines 445
    and 459): [selectedKeywordsMap[item.id] || []]. *)
Definition selectedKeywords (itemId : string) (s : State) : list string :=
  default [] (selectedKeywordsMap s !! itemId).

Definition handleCopySelectedKeywords (itemId : string) (s : State) : option string :=
  let selected := default [] (selectedKeywordsMap s !! itemId) in
  if decide (length selected = 0) then None
  else Some (array_join selected).

Definition handleCopyAllKeywords (kws : list KeywordMetadata) : option string :=
  Some (array_join (word <$> kws)).

(** [Array.from(new Set(l))]: the values in the order of their first
    insertion. *)
Definition from_set (l : list string) : list string :=
  foldl (fun acc x => if decide (x ∈ acc) then acc else acc ++ [x]) [] l.

(** Line 340.  The items that pass the filter have a result. *)
Definition allKws (s : State) : list string :=
  from_set
    (filter (fun i => status i = Status.completed /\ is_Some (result i)) (batch s)
     ≫= fun i => match result i with
                 | Some r => word <$> keywords r
                 | None => []
                 end).

Definition handleCopyCombinedKeywords (s : State) : option string :=
  if decide (length (allKws s) = 0) then None
  else Some (array_join (allKws s)).

(** The copy button of a card, rendered with the property
    [selectedKeywords]. *)
Definition handleQuickCopy (item : BatchItem) (selected : list string)
    : option string :=
  match result item with
  | None => None
  | Some r =>
      Some (if decide (0 < length selected) then array_join selected
            else array_join (word <$> keywords r))
  end.

(** ** Derived values (App.tsx, lines 347-354) *)

Definition completedCount (s : State) : nat :=
  length (filter (fun i => status i = Status.completed) (batch s)).

Definition processingCount (s : State) : nat :=
  length (filter (fun i => status i = Status.processing) (batch s)).

Definition pendingCount (s : State) : nat :=
  length (filter (fun i => status i = Status.pending) (batch s)).

(** [selectedResultId] is [null] or the identifier of the card that was
    clicked. *)
Definition currentSelectedItem (selectedResultId : option string) (s : State)
    : option BatchItem :=
  match selectedResultId with
  | None => None
  | Some x => snd <$> list_find (fun i => id i = x) (batch s)
  end.

(** What the current platform tab lets through. *)
Definition on_platform (platform : string) (k : KeywordMetadata) : Prop :=
  platform = "All" \/ platform ∈ platforms k.

#[global] Instance on_platform_dec platform k : Decision (on_platform platform k).
Proof. unfold on_platform. apply _. Defined.

(** A provider answer with keywords, and an item that carries it. *)
Definition stock_keywords : list KeywordMetadata :=
  [ {| word := "beach"; relevance := 70; platforms := ["Freepik"] |};
    {| word := "sunset"; relevance := 90; platforms := ["Adobe Stock"; "Shutterstock"] |};
    {| word := "sea"; relevance := 90; platforms := ["Adobe Stock"] |} ].

Definition stock_answer : GeminiResponse :=
  {| g_taglines := ["Golden hour"]; g_keywords := stock_keywords;
     g_description := "warm"; g_platforms := ["Instagram"] |}.

Definition stock_run : list Event :=
  [CapturePhoto "data:image/jpeg;base64,c" "c"; AnalyzeSingle "c"; Microtask;
   Settle 0 (SdkResponded (Some "{}") (Some stock_answer))].

Definition stock_item : State := run stock_run initial.

(** The words line 340 collects before the duplicates go. *)
Definition completed_words (s : State) : list string :=
  filter (fun i => status i = Status.completed /\ is_Some (result i)) (batch s)
  ≫= fun i => match result i with
              | Some r => word <$> keywords r
              | None => []
              end.

(** ** Camera frames: the scaling of [capturePhoto] (App.tsx, lines 264-268)

    [canvas.width] and [canvas.height] hold the size of the video frame.
    The factor [Math.min(1, 1024 / Math.max(width, height))] and the two
    products are IEEE binary64 numbers; the products are stored in attributes
    of the second canvas, as unsigned longs. *)

(** [Math.min(a, b)] for two numbers. *)
Definition math_min (a b : float) : float :=
  if PrimFloat.is_nan a then a
  else if PrimFloat.is_nan b then b
  else if PrimFloat.ltb b a then b else a.

Definition capture_scale (width height : Z) : float :=
  math_min (of_int 1)
    (PrimFloat.div (of_int MAX_IMAGE_DIMENSION) (of_int (Z.max width height))).

(** The size of the canvas the frame is drawn on. *)
Definition capture_dims (width height : Z) : Z * Z :=
  let scale := capture_scale width height in
  (to_unsigned_long (trunc (PrimFloat.mul (of_int width) scale)),
   to_unsigned_long (trunc (PrimFloat.mul (of_int height) scale))).

(** [P] holds of the [n] integers from [z] on. *)
Fixpoint all_from (n : nat) (z : Z) (P : Z -> bool) : bool :=
  match n with
  | O => true
  | S n' => P z && all_from n' (z + 1)%Z P
  end.

(** ** The payload sent to the provider (services/geminiService, line 7) *)

(** [s.split(',')] *)
Fixpoint split_comma (s : string) : list string :=
  match s with
  | EmptyString => [""]
  | String c rest =>
      if Ascii.eqb c ","%char then "" :: split_comma rest
      else match split_comma rest with
           | field :: fields => String c field :: fields
           | [] => [String c ""]
           end
  end.

(** [base64Image.split(',')[1] || base64Image] *)
Definition base64Data (base64Image : string) : string :=
  match split_comma base64Image !! 1 with
  | Some part => if decide (part = "") then base64Image else part
  | None => base64Image
  end.

Fixpoint comma_free (s : string) : bool :=
  match s with
  | EmptyString => true
  | String c rest => negb (Ascii.eqb c ","%char) && comma_free rest
  end.

(** ** Further invariants of the reachable states *)

(** The fields an item carries go with its status: a completed item has its
    result, a failed one its message, a pending one neither, and an item
    under analysis no message. *)
Definition coherent (i : BatchItem) : Prop :=
  match status i with
  | Status.pending => result i = None /\ error i = None
  | Status.processing => error i = None
  | Status.completed => is_Some (result i)
  | Status.error => is_Some (error i)
  end.

(** The identifiers whose payload lookup is pending. *)
Definition lookups (js : list Job) : list string :=
  omap (fun j => match j with
                 | JLookup _ x => Some x
                 | _ => None
                 end) js.

(** The identifiers with an analysis past its first write and not yet
    settled. *)
Definition underway (s : State) : list string :=
  lookups (jobs s) ++ (call_id <$> calls s).

Definition attended (s : State) : Prop :=
  forall i, i ∈ batch s -> status i = Status.processing -> id i ∈ underway s.

(** Only the run launched last can have workers in their loop, and the flag
    is set while it has. *)
Definition single_run (s : State) : Prop :=
  forall r rn, runs s !! r = Some rn -> live rn ≠ 0 ->
    isProcessingAll s = true /\ S r = length (runs s).

(** The provider calls in flight that workers await. *)
Definition worker_calls (s : State) : list Call :=
  filter (fun c => call_owner c ≠ Standalone) (calls s).

(** A file the browser never decodes. *)
Definition broken : File :=
  {| type := "image/png"; natural := None;
     toDataURL := fun _ => ""; objectURL := "blob:broken" |}.


(** * Theorems *)

(** ** Image normalizer *)

Lemma to_unsigned_long_small z : (0 <= z < 4294967296)%Z -> to_unsigned_long z = z.
Proof. intros H. unfold to_unsigned_long. apply Z.mod_small. exact H. Qed.

(** C9, as stated, fails: a square picture of 1568 x 1568 pixels gets a
    canvas of 1023 x 1024, because [1568 * (1024 / 1568)] evaluates to
    1023.9999999999999 in binary64 and the canvas attribute truncates it. *)
Lemma resize_square_not_proportional :
  resize_dims 1568 1568 = (1023, 1024)%Z /\
  ¬ same_factor 1568 1568 (resize_dims 1568 1568).
Proof.
  assert (E : resize_dims 1568 1568 = (1023, 1024)%Z) by (vm_compute; reflexivity).
  split; [exact E|]. rewrite E. unfold same_factor, MAX_IMAGE_DIMENSION.
  cbn [fst snd]. intros [H _]. lia.
Qed.

(** *** Binary64 arithmetic behind the scaled side

    [1024 / d] and [v * (1024 / d)] are followed through the kernel's
    specification of binary64 division, multiplication and conversion
    ([div_spec], [mul_spec], [of_uint63_spec]): each rounds to a normalised
    number within one unit in the last place, which for sides below 2^32
    keeps the product within [2^-8] of [v * 1024 / d]. *)

Open Scope Z_scope.

Lemma digits2_pos_bounds p :
  2 ^ (Z.pos (digits2_pos p) - 1) <= Z.pos p < 2 ^ Z.pos (digits2_pos p).
Proof.
  induction p as [p IH|p IH|]; cbn [digits2_pos].
  - rewrite Pos2Z.inj_succ.
    replace (Z.succ (Z.pos (digits2_pos p)) - 1) with (Z.succ (Z.pos (digits2_pos p) - 1)) by lia.
    rewrite !Z.pow_succ_r by lia. lia.
  - rewrite Pos2Z.inj_succ.
    replace (Z.succ (Z.pos (digits2_pos p)) - 1) with (Z.succ (Z.pos (digits2_pos p) - 1)) by lia.
    rewrite !Z.pow_succ_r by lia. lia.
  - cbn. lia.
Qed.

Lemma Zdigits2_range n :
  0 < n -> 1 <= Zdigits2 n /\ 2 ^ (Zdigits2 n - 1) <= n < 2 ^ Zdigits2 n.
Proof.
  intros Hn. destruct n as [|p|p]; try lia. cbn [Zdigits2].
  split; [lia|apply digits2_pos_bounds].
Qed.

Lemma Zdigits2_unique m k :
  2 ^ (k - 1) <= m < 2 ^ k -> 1 <= k -> Zdigits2 m = k.
Proof.
  intros Hm Hk. assert (0 < m) by (pose proof (Z.pow_pos_nonneg 2 (k - 1)); lia).
  destruct (Zdigits2_range m ltac:(lia)) as [HD Hp].
  set (D := Zdigits2 m) in *.
  destruct (Z.lt_trichotomy D k) as [Hlt|[Heq|Hgt]]; [|exact Heq|].
  - assert (2 ^ D <= 2 ^ (k - 1)) by (apply Z.pow_le_mono_r; lia). lia.
  - assert (2 ^ k <= 2 ^ (D - 1)) by (apply Z.pow_le_mono_r; lia). lia.
Qed.

Lemma shr_1_m mrs : 0 <= shr_m mrs -> shr_m (shr_1 mrs) = shr_m mrs / 2.
Proof.
  destruct mrs as [m r s]. cbn [shr_m shr_1]. intros Hm.
  destruct m as [|[p|p|]|p]; cbn [shr_m]; try lia.
  - reflexivity.
  - rewrite Pos2Z.inj_xI. apply Z.div_unique with (r := 1); lia.
  - rewrite Pos2Z.inj_xO. apply Z.div_unique with (r := 0); lia.
  - reflexivity.
Qed.

Lemma pow2_xI p : 2 ^ Z.pos p~1 = 2 * (2 ^ Z.pos p * 2 ^ Z.pos p).
Proof.
  replace (Z.pos p~1) with (Z.pos p + Z.pos p + 1) by lia.
  rewrite !Z.pow_add_r by lia. change (2 ^ 1) with 2. lia.
Qed.

Lemma pow2_xO p : 2 ^ Z.pos p~0 = 2 ^ Z.pos p * 2 ^ Z.pos p.
Proof.
  replace (Z.pos p~0) with (Z.pos p + Z.pos p) by lia.
  rewrite !Z.pow_add_r by lia. lia.
Qed.

(** Shifting right keeps the quotient, whatever the bits it drops. *)
Lemma iter_shr_m p : forall mrs,
  0 <= shr_m mrs -> shr_m (SpecFloat.iter_pos shr_1 p mrs) = shr_m mrs / 2 ^ Z.pos p.
Proof.
  induction p as [p IH|p IH|]; intros mrs Hm; cbn [SpecFloat.iter_pos].
  - assert (0 < 2 ^ Z.pos p) as Hp by (apply Z.pow_pos_nonneg; lia).
    assert (0 <= shr_m (shr_1 mrs)) by (rewrite shr_1_m by lia; apply Z.div_pos; lia).
    assert (0 <= shr_m (SpecFloat.iter_pos shr_1 p (shr_1 mrs)))
      by (rewrite IH by lia; apply Z.div_pos; lia).
    rewrite !IH, shr_1_m by lia.
    rewrite !Z.div_div by lia.
    f_equal. symmetry. apply pow2_xI.
  - assert (0 < 2 ^ Z.pos p) as Hp by (apply Z.pow_pos_nonneg; lia).
    assert (0 <= shr_m (SpecFloat.iter_pos shr_1 p mrs))
      by (rewrite IH by lia; apply Z.div_pos; lia).
    rewrite !IH by lia.
    rewrite !Z.div_div by lia.
    f_equal. symmetry. apply pow2_xO.
  - rewrite shr_1_m by lia. reflexivity.
Qed.

Lemma round_nearest_even_near m l :
  round_nearest_even m l = m \/ round_nearest_even m l = m + 1.
Proof.
  unfold round_nearest_even. destruct l as [|[| |]]; try tauto.
  destruct (Z.even m); tauto.
Qed.

Lemma shr_m_record m l : shr_m (shr_record_of_loc m l) = m.
Proof. destruct l as [|[| |]]; reflexivity. Qed.

Lemma shr_fexp_spec m e l D :
  0 < m -> Zdigits2 m = D -> 53 <= D -> -1074 <= e + D - 53 ->
  exists mrs, shr_fexp prec emax m e l = (mrs, e + (D - 53)) /\
              shr_m mrs = m / 2 ^ (D - 53) /\
              (D = 53 -> mrs = shr_record_of_loc m l).
Proof.
  intros Hm HD H53 Hmin. unfold shr_fexp, fexp, emin, prec, emax. rewrite HD.
  rewrite Z.max_l by lia.
  replace (D + e - 53 - e) with (D - 53) by lia.
  destruct (D - 53) as [|p|p] eqn:E; try lia; cbn [shr].
  - exists (shr_record_of_loc m l). split; [f_equal; lia|].
    rewrite shr_m_record, Z.div_1_r. tauto.
  - eexists. split; [reflexivity|]. split; [|lia].
    rewrite iter_shr_m by (rewrite shr_m_record; lia).
    by rewrite shr_m_record.
Qed.

(** Rounding to nearest of a mantissa of at least 53 bits, in the normal
    range: the result is a normalised number within one unit in the last
    place of the operand, and the operand itself when it has 53 bits and
    nothing was lost before. *)
Lemma binary_round_aux_spec mx ex lx D :
  0 < mx -> Zdigits2 mx = D -> 53 <= D ->
  -1074 <= ex + D - 53 -> ex + D - 53 < 971 ->
  exists M E,
    binary_round_aux prec emax false mx ex lx = S754_finite false M E /\
    2 ^ 52 <= Z.pos M < 2 ^ 53 /\
    ex + (D - 53) <= E <= ex + (D - 53) + 1 /\
    mx - 2 ^ (D - 53) < Z.pos M * 2 ^ (E - ex) <= mx + 2 ^ (D - 53) /\
    (D = 53 -> lx = loc_Exact -> Z.pos M = mx /\ E = ex).
Proof.
  intros Hm HD H53 Hmin Hmax. unfold binary_round_aux.
  destruct (shr_fexp_spec mx ex lx D Hm HD H53 Hmin) as (mrs & -> & Hmrs & Hex).
  set (n := D - 53) in *. assert (0 <= n) by lia.
  assert (0 < 2 ^ n) as Hn by (apply Z.pow_pos_nonneg; lia).
  pose proof (digits2_pos_bounds (Z.to_pos mx)) as Hb.
  assert (Z.pos (digits2_pos (Z.to_pos mx)) = D) as HD'.
  { rewrite <- HD. destruct mx; try lia. reflexivity. }
  rewrite HD', Z2Pos.id in Hb by lia.
  assert (2 ^ 52 * 2 ^ n <= mx < 2 ^ 53 * 2 ^ n) as Hmx.
  { rewrite <- !Z.pow_add_r by lia. replace (52 + n) with (D - 1) by lia.
    replace (53 + n) with D by lia. exact Hb. }
  set (m1 := mx / 2 ^ n) in *.
  assert (m1 * 2 ^ n <= mx < (m1 + 1) * 2 ^ n) as Hm1.
  { unfold m1. pose proof (Z.div_mod mx (2 ^ n) ltac:(lia)).
    pose proof (Z.mod_pos_bound mx (2 ^ n) Hn). nia. }
  assert (2 ^ 52 <= m1 < 2 ^ 53) as Hr1 by nia.
  set (r := round_nearest_even (shr_m mrs) (loc_of_shr_record mrs)).
  assert (r = m1 \/ r = m1 + 1) as Hr.
  { unfold r. rewrite Hmrs. apply round_nearest_even_near. }
  assert (D = 53 -> lx = loc_Exact -> r = mx) as Hexact.
  { intros E1 E2. unfold r. rewrite (Hex E1), E2. reflexivity. }
  destruct (Z.eq_dec r (2 ^ 53)) as [Etop|Hlow].
  - (* the mantissa overflowed to 2^53: one more shift *)
    destruct (shr_fexp_spec r (ex + n) loc_Exact 54) as (mrs2 & -> & Hm2 & _);
      [lia| |lia|lia|].
    { apply Zdigits2_unique; [|lia]. rewrite Etop. change (54 - 1) with 53.
      split; [lia|]. apply Z.pow_lt_mono_r; lia. }
    rewrite Hm2, Etop. change (2 ^ 53 / 2 ^ (54 - 53)) with (2 ^ 52).
    change (2 ^ 52) with (Z.pos 4503599627370496) at 1. cbv iota beta.
    replace (ex + n + (54 - 53) <=? emax - prec) with true
      by (symmetry; apply Z.leb_le; unfold emax, prec; lia).
    eexists _, _. split; [reflexivity|].
    split; [split; [reflexivity|reflexivity]|]. split; [lia|].
    split.
    + replace (ex + n + (54 - 53) - ex) with (n + 1) by lia.
      rewrite Z.pow_add_r by lia. change (2 ^ 1) with 2.
      change (Z.pos 4503599627370496) with (2 ^ 52).
      assert (2 ^ 52 * 2 = 2 ^ 53) by reflexivity. nia.
    + intros E1 E2. exfalso. pose proof (Hexact E1 E2).
      assert (n = 0) by lia. replace n with 0 in * by lia.
      change (2 ^ 0) with 1 in *. lia.
  - assert (2 ^ 52 <= r < 2 ^ 53) as Hrr by lia.
    destruct (shr_fexp_spec r (ex + n) loc_Exact 53) as (mrs2 & -> & Hm2 & _);
      [lia| |lia|lia|].
    { apply Zdigits2_unique; [|lia]. exact Hrr. }
    rewrite Hm2. change (2 ^ (53 - 53)) with 1. rewrite Z.div_1_r.
    destruct r as [|pr|pr] eqn:Er; try lia.
    replace (ex + n + (53 - 53) <=? emax - prec) with true
      by (symmetry; apply Z.leb_le; unfold emax, prec; lia).
    eexists _, _. split; [reflexivity|]. split; [exact Hrr|]. split; [lia|].
    split.
    + replace (ex + n + (53 - 53) - ex) with n by lia. nia.
    + intros E1 E2. split; [by apply Hexact|lia].
Qed.

Lemma iter_xO p d : Z.pos (Pos.iter xO p d) = Z.pos p * 2 ^ Z.pos d.
Proof.
  induction d as [|d IH] using Pos.peano_ind.
  - cbn [Pos.iter]. rewrite Pos2Z.inj_xO. change (2 ^ 1) with 2. lia.
  - rewrite Pos.iter_succ, Pos2Z.inj_xO, IH, Pos2Z.inj_succ, Z.pow_succ_r by lia. lia.
Qed.

(** The binary64 number of a positive integer below 2^52: exact. *)
Lemma of_int_spec n :
  0 < n < 2 ^ 52 ->
  exists M, Prim2SF (of_int n) = S754_finite false M (Zdigits2 n - 53) /\
            Z.pos M = n * 2 ^ (53 - Zdigits2 n) /\ 2 ^ 52 <= Z.pos M < 2 ^ 53.
Proof.
  intros Hn. unfold of_int. rewrite of_uint63_spec, Uint63.of_Z_spec.
  rewrite Z.mod_small by (change Uint63Axioms.wB with (2 ^ 63); split; [lia|];
    assert (2 ^ 52 < 2 ^ 63) by reflexivity; lia).
  destruct (Zdigits2_range n ltac:(lia)) as [HD1 HD].
  set (D := Zdigits2 n) in *.
  assert (D <= 52) as HD52.
  { destruct (Z.le_gt_cases D 52) as [|Hgt]; [done|].
    assert (2 ^ 52 <= 2 ^ (D - 1)) by (apply Z.pow_le_mono_r; lia). lia. }
  destruct n as [|p|p]; try lia.
  cbn [binary_normalize]. unfold binary_round.
  change (Z.pos (digits2_pos p)) with D.
  assert (fexp prec emax (D + 0) = D - 53) as ->.
  { unfold fexp, emin, prec, emax. lia. }
  unfold shl_align. destruct (D - 53 - 0) as [|d|d] eqn:Ed; try lia.
  assert (Z.pos d = 53 - D) as Hd by lia.
  assert (0 < 2 ^ (D - 1)) by (apply Z.pow_pos_nonneg; lia).
  assert (2 ^ 52 <= Z.pos (Pos.iter xO p d) < 2 ^ 53) as Hrange.
  { rewrite iter_xO, Hd.
    assert (2 ^ 52 = 2 ^ (D - 1) * 2 ^ (53 - D)) as ->
      by (rewrite <- Z.pow_add_r by lia; f_equal; lia).
    assert (2 ^ 53 = 2 ^ D * 2 ^ (53 - D)) as ->
      by (rewrite <- Z.pow_add_r by lia; f_equal; lia).
    assert (0 < 2 ^ (53 - D)) by (apply Z.pow_pos_nonneg; lia). nia. }
  destruct (binary_round_aux_spec (Z.pos (Pos.iter xO p d)) (D - 53) loc_Exact 53)
    as (M & E & -> & HM & _ & _ & Hex); try lia.
  { apply Zdigits2_unique; [exact Hrange|lia]. }
  destruct (Hex eq_refl eq_refl) as [HM' ->].
  exists M. split; [reflexivity|]. split; [|exact HM].
  by rewrite HM', iter_xO, Hd.
Qed.
(** [1024 / d] in binary64, for a side [d] above 1024: a normalised number
    [M * 2^E] with [d * (M * 2^E)] within [2^-51] of 1024 (both sides are
    scaled by [2^200]). *)
Lemma quotient_spec d :
  MAX_IMAGE_DIMENSION < d < 2 ^ 32 ->
  exists M E,
    Prim2SF (PrimFloat.div (of_int MAX_IMAGE_DIMENSION) (of_int d)) = S754_finite false M E /\
    2 ^ 52 <= Z.pos M < 2 ^ 53 /\ -74 <= E <= -51 /\
    2 ^ 210 - 2 ^ 159 < Z.pos M * 2 ^ (E + 200) * d < 2 ^ 210 + 2 ^ 159.
Proof.
  unfold MAX_IMAGE_DIMENSION. intros Hd.
  assert (2 ^ 32 < 2 ^ 52) as H3252 by reflexivity.
  destruct (of_int_spec d ltac:(lia)) as (Md & Ed & HMd & HMd').
  destruct (Zdigits2_range d ltac:(lia)) as [_ HD].
  set (Dd := Zdigits2 d) in *.
  assert (11 <= Dd /\ Dd <= 32) as [HD11 HD32].
  { split.
    - destruct (Z.le_gt_cases 11 Dd) as [|Hlt]; [done|].
      assert (2 ^ Dd <= 2 ^ 10) by (apply Z.pow_le_mono_r; lia).
      change (2 ^ 10) with 1024 in *. lia.
    - destruct (Z.le_gt_cases Dd 32) as [|Hgt]; [done|].
      assert (2 ^ 32 <= 2 ^ (Dd - 1)) by (apply Z.pow_le_mono_r; lia). lia. }
  rewrite div_spec, Ed.
  assert (Prim2SF (of_int 1024) = S754_finite false 4503599627370496 (-42)) as ->
    by (vm_compute; reflexivity).
  unfold SF64div, SFdiv, SFdiv_core_binary.
  assert (Zdigits2 (Z.pos Md) = 53) as -> by (apply Zdigits2_unique; [exact HMd'|lia]).
  change (Zdigits2 4503599627370496) with 53.
  assert (fexp prec emax (53 + -42 - (53 + (Dd - 53))) = -42 - Dd) as ->
    by (unfold fexp, emin, prec, emax; lia).
  rewrite Z.min_l by lia.
  replace (-42 - (Dd - 53) - (-42 - Dd)) with 53 by lia.
  change (Z.shiftl 4503599627370496 53) with (2 ^ 105).
  destruct (Z.div_eucl (2 ^ 105) (Z.pos Md)) as [q r] eqn:Eqr.
  pose proof (Z_div_mod (2 ^ 105) (Z.pos Md) ltac:(lia)) as Hqr. rewrite Eqr in Hqr.
  destruct Hqr as [Hq Hr].
  assert (2 ^ 105 = 2 ^ 52 * 2 ^ 53) as H105 by reflexivity.
  assert (2 ^ 52 <= q <= 2 ^ 53) as Hqrange.
  { assert (0 < 2 ^ 52) by reflexivity. assert (2 ^ 53 = 2 * 2 ^ 52) as E53 by reflexivity.
    rewrite H105, E53 in *. generalize dependent (2 ^ 52). intros A. intros. nia. }
  set (DQ := Zdigits2 q).
  destruct (Zdigits2_range q ltac:(lia)) as [_ HDQ]. fold DQ in HDQ.
  assert (DQ = 53 \/ DQ = 54) as HDQ'.
  { assert (2 ^ 53 < 2 ^ 54) by reflexivity.
    destruct (Z.lt_trichotomy DQ 53) as [Hlt|[->|Hgt]]; [|by left|].
    - assert (2 ^ DQ <= 2 ^ 52) by (apply Z.pow_le_mono_r; lia). lia.
    - destruct (Z.eq_dec DQ 54) as [->|Hne]; [by right|].
      assert (2 ^ 54 <= 2 ^ (DQ - 1)) by (apply Z.pow_le_mono_r; lia). lia. }
  cbn [xorb].
  destruct (binary_round_aux_spec q (-42 - Dd) (new_location (Z.pos Md) r) DQ)
    as (M & E & -> & HM & HE & Hval & _); try lia; try reflexivity.
  exists M, E. split; [reflexivity|]. split; [exact HM|]. split; [lia|].
  (* T = M * 2^(E - ez) is within 2 of q, and q * Md <= 2^105 < (q+1) * Md *)
  set (T := Z.pos M * 2 ^ (E - (-42 - Dd))) in *.
  assert (2 ^ (DQ - 53) <= 2) as Hu by (destruct HDQ' as [-> | ->]; cbn; lia).
  assert (Z.pos M * 2 ^ (E + 200) * d = T * Z.pos Md * 2 ^ 105) as ->.
  { unfold T. rewrite HMd.
    assert (2 ^ (E + 200) = 2 ^ (E - (-42 - Dd)) * (2 ^ (53 - Dd) * 2 ^ 105)) as ->.
    { rewrite <- !Z.pow_add_r by lia. f_equal. lia. }
    ring. }
  assert (2 ^ 210 = 2 ^ 105 * 2 ^ 105) as -> by reflexivity.
  assert (2 ^ 159 = 2 * 2 ^ 53 * 2 ^ 105) as -> by reflexivity.
  assert (0 < 2 ^ 105) by reflexivity.
  assert (1 <= 2 ^ (DQ - 53)) as Hl by (destruct HDQ' as [-> | ->]; cbn; lia).
  assert (2 ^ 105 - 2 * 2 ^ 53 < T * Z.pos Md < 2 ^ 105 + 2 * 2 ^ 53) as HT.
  { assert (T * Z.pos Md <= (q + 2) * Z.pos Md) by (apply Z.mul_le_mono_nonneg_r; lia).
    assert ((q - 1) * Z.pos Md <= T * Z.pos Md) by (apply Z.mul_le_mono_nonneg_r; lia).
    lia. }
  assert ((2 ^ 105 - 2 * 2 ^ 53) * 2 ^ 105 < T * Z.pos Md * 2 ^ 105)
    by (apply Z.mul_lt_mono_pos_r; lia).
  assert (T * Z.pos Md * 2 ^ 105 < (2 ^ 105 + 2 * 2 ^ 53) * 2 ^ 105)
    by (apply Z.mul_lt_mono_pos_r; lia).
  lia.
Qed.

(** [v * q] in binary64 for a side [v] and a normalised [q = Mq * 2^Eq]
    near [1024 / d]: the result [M * 2^E] is within [2^-52] of the exact
    product, relatively (both scaled by [2^200]). *)
Lemma product_spec v q Mq Eq :
  0 < v < 2 ^ 32 ->
  Prim2SF q = S754_finite false Mq Eq ->
  2 ^ 52 <= Z.pos Mq < 2 ^ 53 -> -74 <= Eq <= -51 ->
  exists M E,
    Prim2SF (PrimFloat.mul (of_int v) q) = S754_finite false M E /\
    2 ^ 52 <= Z.pos M < 2 ^ 53 /\ -127 <= E <= 0 /\
    (v * (Z.pos Mq * 2 ^ (Eq + 200))) * (2 ^ 52 - 1)
      <= (Z.pos M * 2 ^ (E + 200)) * 2 ^ 52
      <= (v * (Z.pos Mq * 2 ^ (Eq + 200))) * (2 ^ 52 + 1).
Proof.
  intros Hv Hq HMq HEq.
  assert (2 ^ 32 < 2 ^ 52) as H3252 by reflexivity.
  destruct (of_int_spec v ltac:(lia)) as (Mv & Ev & HMv & HMv').
  destruct (Zdigits2_range v ltac:(lia)) as [HD1 HD].
  set (Dv := Zdigits2 v) in *.
  assert (Dv <= 32) as HD32.
  { destruct (Z.le_gt_cases Dv 32) as [|Hgt]; [done|].
    assert (2 ^ 32 <= 2 ^ (Dv - 1)) by (apply Z.pow_le_mono_r; lia). lia. }
  rewrite mul_spec, Ev, Hq. unfold SF64mul, SFmul. cbn [xorb].
  set (mx := Z.pos (Mv * Mq)).
  assert (mx = Z.pos Mv * Z.pos Mq) as Hmx by reflexivity.
  assert (2 ^ 104 = 2 ^ 52 * 2 ^ 52) as H104 by reflexivity.
  assert (2 ^ 106 = 2 ^ 53 * 2 ^ 53) as H106 by reflexivity.
  assert (0 < 2 ^ 52) as Hp52 by reflexivity.
  assert (2 ^ 53 = 2 * 2 ^ 52) as H53 by reflexivity.
  assert (2 ^ 104 <= mx < 2 ^ 106) as Hrange.
  { rewrite Hmx, H104, H106, H53 in *. generalize dependent (2 ^ 52). intros A; intros. nia. }
  destruct (Zdigits2_range mx ltac:(lia)) as [_ HDx].
  set (D := Zdigits2 mx) in *.
  assert (D = 105 \/ D = 106) as HD'.
  { assert (2 ^ 104 < 2 ^ 105) by reflexivity. assert (2 ^ 105 < 2 ^ 106) by reflexivity.
    destruct (Z.lt_trichotomy D 105) as [Hlt|[->|Hgt]]; [|by left|].
    - assert (2 ^ D <= 2 ^ 104) by (apply Z.pow_le_mono_r; lia). lia.
    - destruct (Z.eq_dec D 106) as [->|Hne]; [by right|].
      assert (2 ^ 106 <= 2 ^ (D - 1)) by (apply Z.pow_le_mono_r; lia). lia. }
  destruct (binary_round_aux_spec mx (Dv - 53 + Eq) loc_Exact D)
    as (M & E & -> & HM & HE & Hval & _); try lia; try reflexivity.
  exists M, E. split; [reflexivity|]. split; [exact HM|]. split; [lia|].
  set (n := D - 53) in *.
  assert (0 < 2 ^ n) as Hn by (apply Z.pow_pos_nonneg; lia).
  assert (2 ^ n * 2 ^ 52 <= mx) as Hulp.
  { rewrite <- Z.pow_add_r by lia. replace (n + 52) with (D - 1) by lia. lia. }
  set (T := Z.pos M * 2 ^ (E - (Dv - 53 + Eq))) in *.
  set (S := 2 ^ (Dv - 53 + Eq + 200)).
  assert (0 < S) as HS by (apply Z.pow_pos_nonneg; lia).
  assert (Z.pos M * 2 ^ (E + 200) = T * S) as ->.
  { unfold T, S. rewrite <- Z.mul_assoc, <- Z.pow_add_r by lia. do 2 f_equal. lia. }
  assert (v * (Z.pos Mq * 2 ^ (Eq + 200)) = mx * S) as ->.
  { unfold S. rewrite Hmx, HMv.
    assert (2 ^ (Eq + 200) = 2 ^ (53 - Dv) * 2 ^ (Dv - 53 + Eq + 200)) as ->.
    { rewrite <- Z.pow_add_r by lia. f_equal. lia. }
    ring. }
  assert (mx * (2 ^ 52 - 1) <= T * 2 ^ 52 <= mx * (2 ^ 52 + 1)) as HT.
  { assert ((mx - 2 ^ n) * 2 ^ 52 <= T * 2 ^ 52) by (apply Z.mul_le_mono_nonneg_r; lia).
    assert (T * 2 ^ 52 <= (mx + 2 ^ n) * 2 ^ 52) by (apply Z.mul_le_mono_nonneg_r; lia).
    lia. }
  assert (mx * (2 ^ 52 - 1) * S <= T * 2 ^ 52 * S)
    by (apply Z.mul_le_mono_nonneg_r; lia).
  assert (T * 2 ^ 52 * S <= mx * (2 ^ 52 + 1) * S)
    by (apply Z.mul_le_mono_nonneg_r; lia).
  lia.
Qed.

(** The scaled side is the exact quotient [v * 1024 / d], rounded down, or
    one less than it when the quotient is a whole number. *)
Lemma scaled_bounds v d :
  0 < v <= d -> MAX_IMAGE_DIMENSION < d < 2 ^ 32 ->
  0 <= scaled v d /\
  scaled v d * d <= v * MAX_IMAGE_DIMENSION <= (scaled v d + 1) * d.
Proof.
  intros Hv Hd.
  destruct (quotient_spec d Hd) as (Mq & Eq & Hq & HMq & HEq & Hqv).
  destruct (product_spec v _ Mq Eq ltac:(unfold MAX_IMAGE_DIMENSION in *; lia) Hq HMq HEq)
    as (M & E & Hp & HM & HE & Hpv).
  unfold scaled, trunc. rewrite Hp.
  unfold MAX_IMAGE_DIMENSION in *.
  set (Vq := Z.pos Mq * 2 ^ (Eq + 200)) in *.
  set (Vp := Z.pos M * 2 ^ (E + 200)) in *.
  assert (0 < 2 ^ 52) as Hp52 by reflexivity.
  assert (2 ^ 210 = 1024 * 2 ^ 200) as H210 by reflexivity.
  assert (2 ^ 159 * 2 ^ 52 = 2 * 2 ^ 210) as H159 by reflexivity.
  assert (2 ^ 32 * 2 ^ 159 * 4 < 2 ^ 200) as H200 by reflexivity.
  assert (0 < 2 ^ 159) as Hp159 by reflexivity.
  assert (0 < 2 ^ 200) as Hp200 by reflexivity.
  assert (0 < Vq) as HVq
    by (unfold Vq; apply Z.mul_pos_pos; [lia|apply Z.pow_pos_nonneg; lia]).
  (* the product is within 2^192 of v * 1024, at scale 2^200 *)
  assert (v * 2 ^ 210 - 2 ^ 200 < Vp * d < v * 2 ^ 210 + 2 ^ 200) as Hnear.
  { assert (d * (v * Vq * (2 ^ 52 - 1)) <= d * (Vp * 2 ^ 52))
      by (apply Z.mul_le_mono_nonneg_l; lia).
    assert (d * (Vp * 2 ^ 52) <= d * (v * Vq * (2 ^ 52 + 1)))
      by (apply Z.mul_le_mono_nonneg_l; lia).
    assert (v * (2 ^ 210 - 2 ^ 159) <= v * (Vq * d))
      by (apply Z.mul_le_mono_nonneg_l; lia).
    assert (v * (Vq * d) <= v * (2 ^ 210 + 2 ^ 159))
      by (apply Z.mul_le_mono_nonneg_l; lia).
    assert (v * 2 ^ 159 <= 2 ^ 32 * 2 ^ 159)
      by (apply Z.mul_le_mono_nonneg_r; lia).
    set (X := v * (Vq * d)) in *.
    replace (d * (v * Vq * (2 ^ 52 - 1))) with (X * 2 ^ 52 - X) in * by (unfold X; ring).
    replace (d * (v * Vq * (2 ^ 52 + 1))) with (X * 2 ^ 52 + X) in * by (unfold X; ring).
    replace (d * (Vp * 2 ^ 52)) with ((Vp * d) * 2 ^ 52) in * by ring.
    assert ((v * 2 ^ 210 - 2 ^ 200) * 2 ^ 52 < (Vp * d) * 2 ^ 52
            /\ (Vp * d) * 2 ^ 52 < (v * 2 ^ 210 + 2 ^ 200) * 2 ^ 52) as [Hlo Hhi].
    { assert (X * 2 ^ 52 <= v * (2 ^ 210 + 2 ^ 159) * 2 ^ 52)
        by (apply Z.mul_le_mono_nonneg_r; lia).
      assert (v * (2 ^ 210 - 2 ^ 159) * 2 ^ 52 <= X * 2 ^ 52)
        by (apply Z.mul_le_mono_nonneg_r; lia).
      assert (2 ^ 200 * 2 ^ 52 > 2 ^ 32 * 2 ^ 159 * 2 ^ 52 * 2 + 2 ^ 32 * 2 ^ 210 * 2)
        by reflexivity.
      assert (v * 2 ^ 159 * 2 ^ 52 <= 2 ^ 32 * 2 ^ 159 * 2 ^ 52)
        by (apply Z.mul_le_mono_nonneg_r; lia).
      assert (v * 2 ^ 210 <= 2 ^ 32 * 2 ^ 210)
        by (apply Z.mul_le_mono_nonneg_r; lia).
      lia. }
    split; [apply (Z.mul_lt_mono_pos_r (2 ^ 52)); [lia|exact Hlo]
          |apply (Z.mul_lt_mono_pos_r (2 ^ 52)); [lia|exact Hhi]]. }
  (* truncation *)
  assert (E < 0) as HEneg.
  { destruct (Z.le_gt_cases 0 E) as [H0|]; [|lia]. exfalso.
    assert (2 ^ 200 <= 2 ^ (E + 200)) by (apply Z.pow_le_mono_r; lia).
    assert (2 ^ 52 * 2 ^ 200 <= Vp) by (unfold Vp; apply Z.mul_le_mono_nonneg; lia).
    assert (2 ^ 52 * 2 ^ 200 * 1 <= Vp * d) by (apply Z.mul_le_mono_nonneg; lia).
    assert (v * 2 ^ 210 <= 2 ^ 32 * 2 ^ 210) by (apply Z.mul_le_mono_nonneg_r; lia).
    assert (2 ^ 32 * 2 ^ 210 + 2 ^ 200 < 2 ^ 52 * 2 ^ 200 * 1) by reflexivity.
    lia. }
  replace (0 <=? E) with false by (symmetry; apply Z.leb_gt; lia).
  rewrite Z.shiftr_div_pow2 by lia.
  set (s := Z.pos M / 2 ^ (- E)).
  assert (0 < 2 ^ (- E)) as HpE by (apply Z.pow_pos_nonneg; lia).
  assert (s * 2 ^ 200 <= Vp < (s + 1) * 2 ^ 200) as Hs.
  { unfold Vp. assert (2 ^ 200 = 2 ^ (- E) * 2 ^ (E + 200)) as ->
      by (rewrite <- Z.pow_add_r by lia; f_equal; lia).
    assert (0 < 2 ^ (E + 200)) by (apply Z.pow_pos_nonneg; lia).
    pose proof (Z.div_mod (Z.pos M) (2 ^ (- E)) ltac:(lia)) as Hdm.
    pose proof (Z.mod_pos_bound (Z.pos M) (2 ^ (- E)) HpE) as Hmb. fold s in Hdm.
    split.
    - rewrite Z.mul_assoc. apply Z.mul_le_mono_nonneg_r; lia.
    - rewrite Z.mul_assoc. apply Z.mul_lt_mono_pos_r; lia. }
  assert (0 <= s) as Hs0 by (apply Z.div_pos; lia).
  assert (s * d <= v * 1024 <= (s + 1) * d) as Hsd.
  { assert (s * 2 ^ 200 * d <= Vp * d) by (apply Z.mul_le_mono_nonneg_r; lia).
    assert (Vp * d < (s + 1) * 2 ^ 200 * d) by (apply Z.mul_lt_mono_pos_r; lia).
    rewrite H210 in Hnear.
    assert ((s * d) * 2 ^ 200 < (v * 1024 + 1) * 2 ^ 200) as Hlo by lia.
    assert ((v * 1024 - 1) * 2 ^ 200 < ((s + 1) * d) * 2 ^ 200) as Hhi by lia.
    apply Z.mul_lt_mono_pos_r in Hlo; [|lia]. apply Z.mul_lt_mono_pos_r in Hhi; [|lia]. lia. }
  assert (s <= 1024) as Hs1024.
  { destruct (Z.le_gt_cases s 1024) as [|Hgt]; [done|].
    assert (1025 * d <= s * d) by (apply Z.mul_le_mono_nonneg_r; lia).
    assert (v * 1024 <= d * 1024) by (apply Z.mul_le_mono_nonneg_r; lia). lia. }
  rewrite to_unsigned_long_small by lia. split; [exact Hs0|exact Hsd].
Qed.

Close Scope Z_scope.

(** C9, amended: a picture within bounds keeps its size (no upscaling);
    otherwise the dimension that was the larger one becomes exactly 1024 and
    the other one becomes [other * 1024 / larger] rounded down, or one less
    than that when the quotient is a whole number: the aspect ratio is kept
    to within one pixel. *)
Theorem resize_dims_spec (w h : Z) :
  (0 < w < 4294967296)%Z -> (0 < h < 4294967296)%Z ->
  (Z.max w h <= MAX_IMAGE_DIMENSION -> resize_dims w h = (w, h))%Z /\
  (MAX_IMAGE_DIMENSION < Z.max w h ->
     (h < w ->
        fst (resize_dims w h) = MAX_IMAGE_DIMENSION /\
        0 <= snd (resize_dims w h) /\
        snd (resize_dims w h) * w <= h * MAX_IMAGE_DIMENSION
          <= (snd (resize_dims w h) + 1) * w /\
        (snd (resize_dims w h) = h * MAX_IMAGE_DIMENSION / w \/
         snd (resize_dims w h) = h * MAX_IMAGE_DIMENSION / w - 1 /\
         (h * MAX_IMAGE_DIMENSION) mod w = 0)) /\
     (w <= h ->
        snd (resize_dims w h) = MAX_IMAGE_DIMENSION /\
        0 <= fst (resize_dims w h) /\
        fst (resize_dims w h) * h <= w * MAX_IMAGE_DIMENSION
          <= (fst (resize_dims w h) + 1) * h /\
        (fst (resize_dims w h) = w * MAX_IMAGE_DIMENSION / h \/
         fst (resize_dims w h) = w * MAX_IMAGE_DIMENSION / h - 1 /\
         (w * MAX_IMAGE_DIMENSION) mod h = 0)))%Z.
Proof.
  intros Hw Hh.
  assert (Hnear : forall v d s : Z,
            (0 < d -> s * d <= v * MAX_IMAGE_DIMENSION <= (s + 1) * d ->
             s = v * MAX_IMAGE_DIMENSION / d \/
             s = v * MAX_IMAGE_DIMENSION / d - 1 /\ (v * MAX_IMAGE_DIMENSION) mod d = 0)%Z).
  { intros v d s Hd [Hlo Hhi]. set (N := (v * MAX_IMAGE_DIMENSION)%Z) in *.
    destruct (Z.eq_dec N ((s + 1) * d)%Z) as [E|Hne].
    - right. rewrite E, Z.div_mul, Z.mod_mul by lia. lia.
    - left. apply Z.div_unique with (r := (N - s * d)%Z); lia. }
  assert (E32 : (2 ^ 32 = 4294967296)%Z) by reflexivity.
  unfold resize_dims.
  assert (E1024 : to_unsigned_long MAX_IMAGE_DIMENSION = MAX_IMAGE_DIMENSION) by reflexivity.
  assert (Ew : to_unsigned_long w = w) by (apply to_unsigned_long_small; lia).
  assert (Eh : to_unsigned_long h = h) by (apply to_unsigned_long_small; lia).
  rewrite Ew, Eh, E1024. split.
  - intros Hmax.
    destruct (Z.ltb_spec h w), (Z.ltb_spec MAX_IMAGE_DIMENSION w),
      (Z.ltb_spec MAX_IMAGE_DIMENSION h); try reflexivity; lia.
  - intros Hmax. split; intros Hc.
    + destruct (Z.ltb_spec h w); [|lia].
      destruct (Z.ltb_spec MAX_IMAGE_DIMENSION w); [|lia]. cbn [fst snd].
      destruct (scaled_bounds h w) as [Hnn Hb]; [lia|rewrite E32; lia|].
      split; [reflexivity|]. split; [exact Hnn|]. split; [exact Hb|].
      apply Hnear; [lia|exact Hb].
    + destruct (Z.ltb_spec h w); [lia|].
      destruct (Z.ltb_spec MAX_IMAGE_DIMENSION h); [|lia]. cbn [fst snd].
      destruct (scaled_bounds w h) as [Hnn Hb]; [lia|rewrite E32; lia|].
      split; [reflexivity|]. split; [exact Hnn|]. split; [exact Hb|].
      apply Hnear; [lia|exact Hb].
Qed.

Lemma resize_dims_spec_witness :
  resize_dims 800 600 = (800, 600)%Z /\
  (snd (resize_dims 2000 1000) * 2000 <= 1000 * MAX_IMAGE_DIMENSION
     <= (snd (resize_dims 2000 1000) + 1) * 2000)%Z.
Proof.
  assert (Hw : (0 < 800 < 4294967296)%Z) by lia.
  assert (Hh : (0 < 600 < 4294967296)%Z) by lia.
  assert (Hw' : (0 < 2000 < 4294967296)%Z) by lia.
  assert (Hh' : (0 < 1000 < 4294967296)%Z) by lia.
  split.
  - apply (proj1 (resize_dims_spec 800 600 Hw Hh)). vm_compute. discriminate.
  - apply (proj1 (proj2 (resize_dims_spec 2000 1000 Hw' Hh') ltac:(vm_compute; reflexivity))).
    lia.
Defined.

(** ** Intake *)

Ltac fields :=
  cbn [batch base64Store selectedKeywordsMap isProcessingAll isPreparing
       runs calls jobs trace fst snd] in *.

Lemma stored_cons u us m :
  stored (u :: us) m =
  stored us (match payload_of u with Some b => <[draw u := b]> m | None => m end).
Proof. reflexivity. Qed.

Lemma promise_all_intake us : forall s,
  promise_all (intake <$> us) s =
  (if decide (Forall decodes us) then Returned (item_of <$> us) else Stuck,
   setStore (stored us) s).
Proof.
  induction us as [|u us IH]; intros s.
  - destruct s. reflexivity.
  - cbn [fmap list_fmap promise_all].
    change (list_fmap Upload (M BatchItem) intake us) with (intake <$> us).
    unfold intake at 1, resizeImage.
    assert (Hst := stored_cons u us). unfold payload_of in Hst.
    destruct (natural (file u)) as [[w h]|] eqn:En.
    + unfold mbind, M_bind, modify, mret, M_ret. rewrite IH.
      unfold setStore at 1 2 3. fields. rewrite Hst.
      assert (Hiff : Forall decodes (u :: us) <-> Forall decodes us).
      { rewrite Forall_cons. unfold decodes at 1. rewrite En.
        split; [intros [_ Hall]; exact Hall | intros Hall; split; [eauto | exact Hall]]. }
      destruct (decide (Forall decodes us)), (decide (Forall decodes (u :: us)));
        try reflexivity; tauto.
    + unfold never. rewrite IH. unfold setStore at 1 2. fields. rewrite Hst.
      assert (Hno : ~ Forall decodes (u :: us)).
      { rewrite Forall_cons. unfold decodes at 1. rewrite En.
        intros [[? ?] _]. discriminate. }
      destruct (decide (Forall decodes us)), (decide (Forall decodes (u :: us)));
        try reflexivity; tauto.
Qed.

Lemma addFilesToBatch_unfold files s :
  addFilesToBatch files s =
  if decide (length files = 0) then (Returned tt, s)
  else if decide (Forall decodes (accepted files))
       then (Returned tt,
             setIsPreparing false
               (setBatch (fun prev => (item_of <$> accepted files) ++ prev)
                  (setStore (stored (accepted files)) (setIsPreparing true s))))
       else (Stuck, setStore (stored (accepted files)) (setIsPreparing true s)).
Proof.
  unfold addFilesToBatch. destruct (decide (length files = 0)); [reflexivity|].
  unfold mbind, M_bind, modify, try_finally. fold (accepted files).
  rewrite promise_all_intake.
  destruct (decide (Forall decodes (accepted files))); reflexivity.
Qed.

Lemma addFilesToBatch_never_throws files s m :
  fst (addFilesToBatch files s) <> Threw m.
Proof.
  rewrite addFilesToBatch_unfold.
  repeat case_decide; discriminate.
Qed.

(** C1, as stated, fails: with the batch of the scenario (two pictures and
    a PDF) the call returns normally; no error is raised for the PDF. *)
Lemma addFilesToBatch_raises_nothing :
  ¬ is_image document /\
  fst (addFilesToBatch three_files initial) = Returned tt.
Proof.
  split.
  - unfold is_image. vm_compute. discriminate.
  - vm_compute. reflexivity.
Qed.

(** C1, amended: files whose type does not start with [image/] are dropped
    silently (no error, no decoding, no payload, no item); when the accepted
    files decode, the call returns and prepends exactly one pending item per
    accepted file, in the order of submission, and stores one payload for
    each. *)
Theorem addFilesToBatch_spec files s :
  Forall decodes (accepted files) ->
  fst (addFilesToBatch files s) = Returned tt /\
  batch (exec (addFilesToBatch files) s) = (item_of <$> accepted files) ++ batch s /\
  base64Store (exec (addFilesToBatch files) s) = stored (accepted files) (base64Store s) /\
  Forall (fun i => status i = Status.pending) (item_of <$> accepted files) /\
  length (item_of <$> accepted files) = length (accepted files) /\
  (forall u, u ∈ files -> ¬ is_image (file u) -> u ∉ accepted files).
Proof.
  intros Hdec. unfold exec. rewrite addFilesToBatch_unfold.
  destruct (decide (length files = 0)) as [Hz|Hz].
  - apply length_zero_iff_nil in Hz. subst files. cbn.
    repeat split; try reflexivity; try constructor. intros u Hu. inversion Hu.
  - rewrite decide_True by exact Hdec. fields.
    repeat split.
    + apply Forall_fmap. apply Forall_forall. intros u _. reflexivity.
    + apply length_fmap.
    + intros u _ Hn Hin. unfold accepted in Hin.
      apply list_elem_of_filter in Hin as [Him _]. exact (Hn Him).
Qed.

Lemma addFilesToBatch_spec_witness :
  batch (exec (addFilesToBatch three_files) initial) =
  (item_of <$> accepted three_files) ++ batch initial.
Proof.
  refine (proj1 (proj2 (addFilesToBatch_spec three_files initial _))).
  vm_compute. repeat constructor; eauto.
Defined.

(** ** The event loop as a transition system *)

Lemma analyzeSingle_resume_eq c o s :
  analyzeSingle_resume c o s =
  (Returned tt, resume (call_owner c) (setBatch (on_id (call_id c) (verdict o)) s)).
Proof.
  unfold analyzeSingle_resume, mbind, M_bind, try_catch, analyzeImage, verdict.
  destruct o as [m|text json].
  - unfold throw, modify, settled, resume. destruct (call_owner c); reflexivity.
  - destruct (falsy text).
    + unfold throw, modify, settled, resume. destruct (call_owner c); reflexivity.
    + destruct json as [a|].
      * unfold mret, M_ret, modify, settled, resume. destruct (call_owner c); reflexivity.
      * unfold throw, modify, settled, resume. destruct (call_owner c); reflexivity.
Qed.

Lemma analyzeSingle_lookup_eq o x s :
  analyzeSingle_lookup o x s =
  (Returned tt,
   if falsy (base64Store s !! x)
   then resume o (setBatch (on_id x (mark_error "Image data lost")) s)
   else setCalls (fun cs => cs ++ [{| call_id := x;
                                      call_data := default "" (base64Store s !! x);
                                      call_owner := o |}]) s).
Proof.
  unfold analyzeSingle_lookup, mbind, M_bind, get.
  destruct (falsy (base64Store s !! x)); [|reflexivity].
  unfold modify, settled, resume. destruct o; reflexivity.
Qed.

Lemma step_transition e s : step e s = s \/ transition s e (step e s).
Proof.
  unfold step, exec, turn. destruct (jobs s) as [|j js] eqn:Ej.
  - destruct e; cbn [fire].
    + rewrite addFilesToBatch_unfold.
      destruct (decide (length files = 0)) as [Hz|Hz]; [left; reflexivity|].
      assert (files ≠ []) by (intros ->; apply Hz; reflexivity).
      right. case_decide; cbn [snd]; [apply t_add | apply t_add_stuck]; assumption.
    + right. apply t_capture. exact Ej.
    + right. apply t_remove. exact Ej.
    + destruct confirmed; [right; apply t_clear; exact Ej | left; reflexivity].
    + right. cbn [snd]. unfold analyzeSingle, mbind, M_bind, modify. cbn [snd].
      replace (setJobs (cons (JLookup Standalone x))
                 (setBatch (on_id x mark_processing) (record Standalone x s)))
        with (setJobs (fun _ => [JLookup Standalone x])
                (setBatch (on_id x mark_processing) (record Standalone x s))).
      * apply t_enter. left. repeat split. exact Ej.
      * unfold setJobs, setBatch, record. fields. rewrite Ej. reflexivity.
    + unfold processAll, mbind, M_bind, get.
      case_decide as Hg; [left; reflexivity|]. right. cbn [snd].
      apply t_launch; [exact Ej| |].
      * intros Hnil. apply Hg. left. rewrite Hnil. reflexivity.
      * destruct (isProcessingAll s); [exfalso; apply Hg; right|]; reflexivity.
    + right. apply t_toggle. exact Ej.
    + right. apply t_select. exact Ej.
    + unfold mbind, M_bind, get. destruct (calls s !! n) as [c|] eqn:Ec; [|left; reflexivity].
      right. unfold modify. rewrite analyzeSingle_resume_eq. cbn [snd].
      apply (t_settle s n c o Ej Ec).
    + left. reflexivity.
  - destruct e; try (left; reflexivity). destruct j as [o x|o x|r]; cbn [run_job].
    + right. apply (t_enter s Microtask o x js). right. split; [exact Ej|reflexivity].
    + right. rewrite analyzeSingle_lookup_eq. cbn [snd].
      change (base64Store (setJobs (fun _ => js) s)) with (base64Store s).
      destruct (falsy (base64Store s !! x)) eqn:Ef.
      * apply (t_lost s o x js Ej Ef).
      * apply (t_call s o x js Ej Ef).
    + unfold worker, mbind, M_bind, get.
      change (runs (setJobs (fun _ => js) s)) with (runs s).
      destruct (runs s !! r) as [rn|] eqn:Er.
      * destruct (queue rn) as [|item rest] eqn:Eq.
        -- right. unfold modify. case_decide; cbn [snd].
           ++ pose proof (t_exit s r rn js Ej Er Eq) as T.
              rewrite decide_True in T by assumption. exact T.
           ++ pose proof (t_exit s r rn js Ej Er Eq) as T.
              rewrite decide_False in T by assumption. exact T.
        -- right. apply (t_shift s r rn item rest js Ej Er Eq).
      * right. apply (t_orphan s r js Ej Er).
Qed.

Lemma run_snoc es e s : run (es ++ [e]) s = step e (run es s).
Proof. unfold run. rewrite foldl_app. reflexivity. Qed.

Lemma run_app es es' s : run (es ++ es') s = run es' (run es s).
Proof. unfold run. apply foldl_app. Qed.

(** A property kept by every transition holds along every execution. *)
Lemma run_invariant (P : State -> Prop) :
  (forall s e s', P s -> transition s e s' -> P s') ->
  forall es s, P s -> P (run es s).
Proof.
  intros Hstep es. induction es as [|e es IH]; intros s Hs; [exact Hs|].
  cbn. apply IH. destruct (step_transition e s) as [->|Ht]; [exact Hs|].
  exact (Hstep _ _ _ Hs Ht).
Qed.

(** ** Writes to the item store *)

Lemma mark_processing_id : keeps_id mark_processing.
Proof. intros i. reflexivity. Qed.

Lemma mark_error_id m : keeps_id (mark_error m).
Proof. intros i. reflexivity. Qed.

Lemma mark_completed_id r : keeps_id (mark_completed r).
Proof. intros i. reflexivity. Qed.

Lemma verdict_id o : keeps_id (verdict o).
Proof.
  intros i. unfold verdict. destruct o as [m|text [a|]]; try reflexivity;
    destruct (falsy text); reflexivity.
Qed.

#[local] Hint Resolve mark_processing_id mark_error_id mark_completed_id verdict_id : engine.

Lemma on_id_absent x f (l : list BatchItem) :
  (forall i, i ∈ l -> id i ≠ x) -> on_id x f l = l.
Proof.
  intros Habs. unfold on_id. induction l as [|i l IH]; [reflexivity|].
  cbn. rewrite decide_False by (apply Habs; left).
  f_equal. apply IH. intros j Hj. apply Habs. right. exact Hj.
Qed.

Lemma on_id_ids x f (l : list BatchItem) :
  keeps_id f -> id <$> on_id x f l = id <$> l.
Proof.
  intros Hf. unfold on_id. rewrite <- list_fmap_compose. apply list_fmap_ext.
  intros _ i _. cbn. case_decide; [apply Hf | reflexivity].
Qed.

Lemma elem_of_on_id x f (l : list BatchItem) j :
  j ∈ on_id x f l <->
  exists i, i ∈ l /\ j = if decide (id i = x) then f i else i.
Proof.
  unfold on_id. rewrite list_elem_of_fmap. split; intros (i & H1 & H2); eauto.
Qed.

(** ** Analysis of an unknown identifier *)

(** C10: when [x] names no item and no payload, [analyzeSingle(x)] returns
    normally at the payload check of line 281; the item store, the payload
    store and the selection map are what they were, and no provider call was
    started. *)
Theorem analyzeSingle_unknown_id x s :
  idle s ->
  (forall i, i ∈ batch s -> id i ≠ x) ->
  base64Store s !! x = None ->
  fst (turn (AnalyzeSingle x) s) = Returned tt /\
  fst (turn Microtask (step (AnalyzeSingle x) s)) = Returned tt /\
  batch (run [AnalyzeSingle x; Microtask] s) = batch s /\
  base64Store (run [AnalyzeSingle x; Microtask] s) = base64Store s /\
  selectedKeywordsMap (run [AnalyzeSingle x; Microtask] s) = selectedKeywordsMap s /\
  calls (run [AnalyzeSingle x; Microtask] s) = calls s /\
  jobs (run [AnalyzeSingle x; Microtask] s) = [].
Proof.
  intros Hidle Habs Hstore. unfold idle in Hidle.
  assert (E1 : turn (AnalyzeSingle x) s =
               (Returned tt,
                setJobs (cons (JLookup Standalone x))
                  (setBatch (on_id x mark_processing) (record Standalone x s)))).
  { unfold turn. rewrite Hidle. reflexivity. }
  assert (E2 : turn Microtask (step (AnalyzeSingle x) s) =
               (Returned tt,
                setBatch (on_id x (mark_error "Image data lost"))
                  (setJobs (fun _ => [])
                     (setBatch (on_id x mark_processing) (record Standalone x s))))).
  { unfold step, exec. rewrite E1. unfold turn. cbn [snd jobs setJobs setBatch record].
    rewrite Hidle. cbn [run_job]. rewrite analyzeSingle_lookup_eq.
    cbn [base64Store setJobs setBatch record]. rewrite Hstore. reflexivity. }
  assert (E : run [AnalyzeSingle x; Microtask] s =
              setBatch (on_id x (mark_error "Image data lost"))
                (setJobs (fun _ => [])
                   (setBatch (on_id x mark_processing) (record Standalone x s)))).
  { cbn [run foldl]. unfold step at 1. unfold exec. rewrite E2. reflexivity. }
  rewrite E1, E2, E. cbn [fst batch base64Store selectedKeywordsMap calls jobs
                          setBatch setJobs record].
  repeat split.
  rewrite (on_id_absent x mark_processing) by exact Habs.
  apply on_id_absent. exact Habs.
Qed.

Ltac sfields :=
  cbn [batch base64Store selectedKeywordsMap isProcessingAll isPreparing
       runs calls jobs trace setBatch setStore setSelectedKeywordsMap
       setIsProcessingAll setIsPreparing setRuns setCalls setJobs record
       fst snd] in *.

Lemma batch_resume o s : batch (resume o s) = batch s.
Proof. destruct o; reflexivity. Qed.

Lemma selected_resume o s : selectedKeywordsMap (resume o s) = selectedKeywordsMap s.
Proof. destruct o; reflexivity. Qed.

Lemma calls_resume o s : calls (resume o s) = calls s.
Proof. destruct o; reflexivity. Qed.

Lemma runs_resume o s : runs (resume o s) = runs s.
Proof. destruct o; reflexivity. Qed.

Lemma flag_resume o s : isProcessingAll (resume o s) = isProcessingAll s.
Proof. destruct o; reflexivity. Qed.

Lemma item_of_ids (us : list Upload) : id <$> (item_of <$> us) = draw <$> us.
Proof. rewrite <- list_fmap_compose. reflexivity. Qed.

(** What a transition does to the identifiers in the item store: nothing,
    or an intake puts new ones in front, or some are removed. *)
Lemma transition_ids s e s' :
  transition s e s' ->
  id <$> batch s' = id <$> batch s \/
  (exists new, id <$> batch s' = new ++ (id <$> batch s) /\
               forall x, x ∈ new -> creates x e) \/
  (exists x, e = RemoveItem x /\ batch s' = filter (fun i => id i ≠ x) (batch s)) \/
  (e = ClearBatch true /\ batch s' = []).
Proof.
  intros Ht. inversion Ht; subst; clear Ht; rewrite ?batch_resume; sfields;
    rewrite ?on_id_ids by auto with engine; try (left; reflexivity).
  - right; left. exists (draw <$> accepted files). rewrite fmap_app, item_of_ids.
    split; [reflexivity|]. intros x Hx. exact Hx.
  - right; left. exists [x]. split; [reflexivity|]. intros y Hy.
    apply list_elem_of_singleton in Hy. subst y. reflexivity.
  - right; right; left. exists x. split; reflexivity.
  - right; right; right. split; reflexivity.
Qed.

(** ** Keyword selection *)

Lemma removeItem_eq x s :
  removeItem x s =
  (Returned tt,
   setSelectedKeywordsMap (delete x)
     (setStore (delete x) (setBatch (filter (fun i => id i ≠ x)) s))).
Proof. reflexivity. Qed.

Lemma gated_selection_step s e s' :
  (forall x, is_Some (selectedKeywordsMap s !! x) -> x ∈ id <$> batch s) ->
  gated e s -> transition s e s' ->
  forall x, is_Some (selectedKeywordsMap s' !! x) -> x ∈ id <$> batch s'.
Proof.
  intros Hinv Hg Ht x. inversion Ht; subst; clear Ht;
    rewrite ?batch_resume, ?selected_resume; sfields;
    rewrite ?on_id_ids by auto with engine; try (apply Hinv).
  - intros Hx. rewrite fmap_app. apply elem_of_app. right. apply Hinv, Hx.
  - intros Hx. rewrite fmap_cons. right. apply Hinv, Hx.
  - intros Hx. destruct (decide (x = x0)) as [->|Hne].
    + rewrite lookup_delete_eq in Hx. destruct Hx; discriminate.
    + rewrite lookup_delete_ne in Hx by congruence.
      apply Hinv in Hx. apply list_elem_of_fmap in Hx as (i & -> & Hi).
      apply list_elem_of_fmap. exists i. split; [reflexivity|].
      apply list_elem_of_filter. split; [congruence | exact Hi].
  - rewrite lookup_empty. intros [? ?]. discriminate.
  - intros Hx. destruct (decide (itemId = x)) as [->|Hne].
    + exact Hg.
    + rewrite lookup_insert_ne in Hx by exact Hne. apply Hinv, Hx.
  - intros Hx. destruct (decide (itemId = x)) as [->|Hne].
    + exact Hg.
    + rewrite lookup_insert_ne in Hx by exact Hne. apply Hinv, Hx.
Qed.

Lemma gated_selection es : forall s,
  (forall x, is_Some (selectedKeywordsMap s !! x) -> x ∈ id <$> batch s) ->
  gated_run es s ->
  forall x, is_Some (selectedKeywordsMap (run es s) !! x) -> x ∈ id <$> batch (run es s).
Proof.
  induction es as [|e es IH]; intros s Hinv Hg; [exact Hinv|].
  destruct Hg as [Hg Hrest]. cbn [run foldl]. apply IH; [|exact Hrest].
  destruct (step_transition e s) as [->|Ht]; [exact Hinv|].
  exact (gated_selection_step s e _ Hinv Hg Ht).
Qed.

(** C8, as stated, fails: toggling the only selected word of an item off
    leaves the item's entry in the map, with the empty list. *)
Lemma toggle_off_keeps_entry :
  selectedKeywordsMap (run [ToggleKeyword "c" "sunset"] one_item) !! "c" = Some ["sunset"] /\
  selectedKeywordsMap
    (run [ToggleKeyword "c" "sunset"; ToggleKeyword "c" "sunset"] one_item) !! "c" = Some [].
Proof. split; vm_compute; reflexivity. Qed.

(** C8, amended: in every state reached by operating on the cards of stored
    items, an entry of the selection map belongs to an item in the store (its
    word list may be empty); removing an item removes its entry whatever was
    toggled or selected before; toggling the only selected word off leaves
    the entry with the empty list. *)
Theorem selection_entries es x w (s : State) :
  gated_run es initial ->
  (is_Some (selectedKeywordsMap (run es initial) !! x) ->
   x ∈ id <$> batch (run es initial)) /\
  selectedKeywordsMap (exec (removeItem x) s) !! x = None /\
  (idle s -> selectedKeywordsMap (step (RemoveItem x) s) !! x = None) /\
  (selectedKeywordsMap s !! x = Some [w] ->
   selectedKeywordsMap (exec (handleToggleKeyword x w) s) !! x = Some []).
Proof.
  intros Hg. repeat split.
  - apply gated_selection; [|exact Hg]. intros y. cbn. rewrite lookup_empty.
    intros [? ?]. discriminate.
  - unfold exec. rewrite removeItem_eq. sfields. apply lookup_delete_eq.
  - intros Hidle. unfold step, exec, turn. rewrite Hidle. cbn [fire].
    rewrite removeItem_eq. sfields. apply lookup_delete_eq.
  - intros Hsel. unfold exec, handleToggleKeyword, modify. sfields.
    rewrite lookup_insert_eq. rewrite Hsel. cbn [from_option Datatypes.id].
    rewrite decide_True by (apply list_elem_of_singleton; reflexivity).
    rewrite filter_cons, decide_False by (intros Hne; apply Hne; reflexivity).
    reflexivity.
Qed.

Lemma selection_entries_witness :
  selectedKeywordsMap
    (exec (removeItem "c") (run [ToggleKeyword "c" "sunset"] one_item)) !! "c" = None /\
  selectedKeywordsMap
    (exec (handleToggleKeyword "c" "sunset")
       (run [ToggleKeyword "c" "sunset"] one_item)) !! "c" = Some [].
Proof.
  assert (Hg : gated_run [CapturePhoto "data:image/jpeg;base64,c" "c";
                          ToggleKeyword "c" "sunset"] initial).
  { cbn. repeat split. vm_compute. left. }
  destruct (selection_entries _ "c" "sunset"
              (run [ToggleKeyword "c" "sunset"] one_item) Hg) as (_ & H1 & _ & H2).
  split; [exact H1 | apply H2; vm_compute; reflexivity].
Defined.

(** ** Removal while an analysis is in flight *)

Lemma absent_step x e s :
  ¬ creates x e -> x ∉ id <$> batch s -> x ∉ id <$> batch (step e s).
Proof.
  intros Hc Habs. destruct (step_transition e s) as [->|Ht]; [exact Habs|].
  destruct (transition_ids _ _ _ Ht) as [E|[(new & E & Hnew)|[(y & _ & E)|[_ E]]]].
  - rewrite E. exact Habs.
  - rewrite E. intros Hin. apply elem_of_app in Hin as [Hin|Hin].
    + exact (Hc (Hnew _ Hin)).
    + exact (Habs Hin).
  - rewrite E. intros Hin. apply Habs.
    apply list_elem_of_fmap in Hin as (i & -> & Hi).
    apply list_elem_of_filter in Hi as [_ Hi].
    apply list_elem_of_fmap. exists i. split; [reflexivity | exact Hi].
  - rewrite E. intros Hin. inversion Hin.
Qed.

Lemma absent_run x es : forall s,
  Forall (fun e => ¬ creates x e) es ->
  x ∉ id <$> batch s -> x ∉ id <$> batch (run es s).
Proof.
  induction es as [|e es IH]; intros s Hes Habs; [exact Habs|].
  apply Forall_cons in Hes as [He Hes]. cbn [run foldl].
  apply IH; [exact Hes|]. apply absent_step; assumption.
Qed.

Lemma removeItem_absent x s : x ∉ id <$> batch (exec (removeItem x) s).
Proof.
  unfold exec. rewrite removeItem_eq. sfields. intros Hin.
  apply list_elem_of_fmap in Hin as (i & -> & Hi).
  apply list_elem_of_filter in Hi as [Hne _]. apply Hne. reflexivity.
Qed.

(** C6: once [x] is removed, whatever happens next short of an intake that
    draws the identifier [x] again, no item [x] is in the store; the late
    write of an analysis of [x] returns normally and leaves the item store as
    it is. *)
Theorem remove_discards_late_write x s es :
  Forall (fun e => ¬ creates x e) es ->
  (x ∉ id <$> batch (run es (exec (removeItem x) s))) /\
  (forall c o t, call_id c = x -> x ∉ id <$> batch t ->
     fst (analyzeSingle_resume c o t) = Returned tt /\
     batch (exec (analyzeSingle_resume c o) t) = batch t).
Proof.
  intros Hes. split.
  - apply absent_run; [exact Hes | apply removeItem_absent].
  - intros c o t Hc Habs. unfold exec. rewrite analyzeSingle_resume_eq.
    split; [reflexivity|]. cbn [snd]. rewrite batch_resume. sfields.
    apply on_id_absent. intros i Hi Heq. apply Habs.
    apply list_elem_of_fmap. exists i. split; [congruence | exact Hi].
Qed.

Lemma remove_discards_late_write_witness :
  calls (exec (removeItem "c") in_flight) =
    [{| call_id := "c"; call_data := "data:image/jpeg;base64,c"; call_owner := Standalone |}] /\
  "c" ∉ id <$> batch (run [Settle 0 success] (exec (removeItem "c") in_flight)).
Proof.
  split; [vm_compute; reflexivity|].
  refine (proj1 (remove_discards_late_write "c" in_flight [Settle 0 success] _)).
  repeat constructor. intros H. exact H.
Defined.

(** ** Bookkeeping of the batch runs *)

Lemma count_cons {A} (P : A -> Prop) `{!forall x, Decision (P x)} x l :
  length (filter P (x :: l)) = (if decide (P x) then 1 else 0) + length (filter P l).
Proof. rewrite filter_cons. case_decide; reflexivity. Qed.

Lemma count_app {A} (P : A -> Prop) `{!forall x, Decision (P x)} l k :
  length (filter P (l ++ k)) = length (filter P l) + length (filter P k).
Proof. rewrite filter_app. apply length_app. Qed.

Lemma count_delete {A} (P : A -> Prop) `{!forall x, Decision (P x)} l n c :
  l !! n = Some c ->
  length (filter P l) = (if decide (P c) then 1 else 0) + length (filter P (delete n l)).
Proof.
  revert n. induction l as [|a l IH]; intros n Hn; [discriminate|].
  destruct n as [|n].
  - cbn in Hn. injection Hn as ->. cbn [delete list_delete]. apply count_cons.
  - cbn in Hn. cbn [delete list_delete]. rewrite !count_cons, (IH n Hn).
    destruct (decide (P a)), (decide (P c)); reflexivity.
Qed.

Lemma count_replicate {A} (P : A -> Prop) `{!forall x, Decision (P x)} n x :
  length (filter P (replicate n x)) = if decide (P x) then n else 0.
Proof.
  induction n as [|n IH]; [case_decide; reflexivity|].
  cbn [replicate]. rewrite count_cons, IH. case_decide; reflexivity.
Qed.

Lemma count_nil {A} (P : A -> Prop) `{!forall x, Decision (P x)} :
  length (filter P []) = 0.
Proof. reflexivity. Qed.

Ltac count_simpl :=
  repeat (rewrite count_cons || rewrite count_app || rewrite count_replicate
          || rewrite count_nil);
  cbn [job_owner call_owner length app].

Ltac decides := repeat (case_decide; try congruence); try lia.

Lemma counted_transition s e s' : counted s -> transition s e s' -> counted s'.
Proof.
  intros Hc Ht r'. specialize (Hc r'). revert Hc.
  unfold tokens, calls_of, jobs_of.
  inversion Ht; subst; clear Ht; unfold live_of, resume;
    try match goal with |- context [match ?o with Standalone => _ | Worker _ => _ end] =>
      destruct o eqn:?
    end;
    sfields; try (intros Hc; exact Hc).
  all: try match goal with H : idle _ |- _ => unfold idle in H end.
  all: try match goal with H : jobs _ = _ |- _ => rewrite H end.
  all: try match goal with H : calls _ !! _ = Some _ |- _ =>
             rewrite (count_delete _ _ _ _ H) end.
  all: count_simpl.
  - (* t_enter *)
    destruct H as [(Hi & -> & -> & _)|[Hj _]].
    + unfold idle in Hi. rewrite Hi. count_simpl. decides.
    + rewrite Hj. count_simpl. decides.
  - intros. decides.
  - intros. decides.
  - intros. decides.
  - intros. decides.
  - intros. decides.
  - (* t_launch *)
    destruct (decide (r' = length (runs s))) as [->|Hne].
    + rewrite lookup_app_r, Nat.sub_diag by lia. cbn [lookup list_lookup live].
      rewrite lookup_ge_None_2 by lia. intros. decides.
    + destruct (decide (r' < length (runs s))).
      * rewrite lookup_app_l by assumption. intros. decides.
      * rewrite !lookup_ge_None_2; [intros; decides | rewrite length_app; cbn; lia | lia].
  - (* t_shift *)
    destruct (decide (r = r')) as [->|Hne].
    + rewrite list_lookup_insert_eq by (eapply lookup_lt_Some; eassumption).
      rewrite H0. cbn [live]. intros. decides.
    + rewrite list_lookup_insert_ne by exact Hne. intros. decides.
  - (* t_exit *)
    intros Hc. destruct (decide (r = r')) as [->|Hne].
    + rewrite list_lookup_insert_eq by (eapply lookup_lt_Some; eassumption).
      rewrite H0 in Hc. cbn [live]. decides.
    + rewrite list_lookup_insert_ne by exact Hne. decides.
  - (* t_orphan *)
    intros Hc. destruct (decide (r = r')) as [->|Hne].
    + rewrite H0 in Hc. decides.
    + decides.
Qed.

Lemma capped_transition s e s' : capped s -> transition s e s' -> capped s'.
Proof.
  intros Hb Ht r' rn'. unfold capped in Hb.
  inversion Ht; subst; clear Ht; rewrite ?runs_resume; sfields; try apply Hb.
  - intros Hl. apply lookup_app_Some in Hl as [Hl|[_ Hl]]; [exact (Hb _ _ Hl)|].
    apply list_lookup_singleton_Some in Hl as [_ <-]. cbn [live]. lia.
  - intros Hl. apply list_lookup_insert_Some in Hl as [(-> & <- & _)|[_ Hl]].
    + cbn [live]. exact (Hb _ _ H0).
    + exact (Hb _ _ Hl).
  - intros Hl. apply list_lookup_insert_Some in Hl as [(-> & <- & _)|[_ Hl]].
    + cbn [live]. pose proof (Hb _ _ H0). lia.
    + exact (Hb _ _ Hl).
Qed.

Lemma staffed_transition s e s' : staffed s -> transition s e s' -> staffed s'.
Proof.
  intros Hb Ht r' rn'. unfold staffed in Hb.
  inversion Ht; subst; clear Ht; rewrite ?runs_resume; sfields; try apply Hb.
  - intros Hl. apply lookup_app_Some in Hl as [Hl|[_ Hl]]; [exact (Hb _ _ Hl)|].
    apply list_lookup_singleton_Some in Hl as [_ <-]. cbn [live queue].
    intros Hq. destruct (filter eligible (batch s)); [congruence|].
    unfold CONCURRENCY_LIMIT. cbn [length]. lia.
  - intros Hl. apply list_lookup_insert_Some in Hl as [(-> & <- & _)|[_ Hl]].
    + cbn [live queue]. intros _. apply (Hb _ _ H0). rewrite H1. discriminate.
    + exact (Hb _ _ Hl).
  - intros Hl. apply list_lookup_insert_Some in Hl as [(-> & <- & _)|[_ Hl]].
    + cbn [live queue]. congruence.
    + exact (Hb _ _ Hl).
Qed.

Lemma flagged_transition s e s' : flagged s -> transition s e s' -> flagged s'.
Proof.
  intros Hf Ht. unfold flagged in *.
  inversion Ht; subst; clear Ht; rewrite ?runs_resume, ?flag_resume; sfields;
    try exact Hf.
  - intros _. exists (length (runs s)). eexists. split.
    + rewrite lookup_app_r, Nat.sub_diag by lia. reflexivity.
    + cbn [live]. destruct (filter eligible (batch s)); [congruence|].
      unfold CONCURRENCY_LIMIT. cbn [length]. lia.
  - intros Hflag. destruct (Hf Hflag) as (r' & rn' & Hl & Hlive).
    destruct (decide (r = r')) as [->|Hne].
    + eexists r', _. split.
      * apply list_lookup_insert_eq. eapply lookup_lt_Some; eassumption.
      * cbn [live]. congruence.
    + exists r', rn'. split; [|exact Hlive].
      rewrite list_lookup_insert_ne by exact Hne. exact Hl.
  - case_decide as Hz; [discriminate|]. intros Hflag.
    eexists r, _. split.
    + apply list_lookup_insert_eq. eapply lookup_lt_Some; eassumption.
    + cbn [live]. exact Hz.
Qed.

Lemma headed_tail j js : Forall is_worker_job (tail (j :: js)) -> Forall is_worker_job (tail js).
Proof.
  cbn [tail]. destruct js as [|j' js]; [constructor|]. cbn [tail].
  intros H. apply Forall_cons in H as [_ H]. exact H.
Qed.

Lemma headed_transition s e s' : headed s -> transition s e s' -> headed s'.
Proof.
  intros Hh Ht. unfold headed in *.
  inversion Ht; subst; clear Ht; unfold resume;
    try match goal with |- context [match ?o with Standalone => _ | Worker _ => _ end] =>
      destruct o eqn:?
    end;
    sfields; try exact Hh.
  all: try match goal with H : idle _ |- _ => unfold idle in H end.
  all: try match goal with H : jobs _ = _ |- _ => rewrite H in * end.
  all: try (apply headed_tail in Hh; exact Hh).
  all: try (cbn [tail app] in *; exact Hh).
  all: try (cbn [tail app]; constructor; fail).
  - destruct H as [(Hi & -> & -> & _)|[Hj _]]; [constructor|].
    rewrite Hj in Hh. exact Hh.
  - cbn [tail] in Hh. destruct js as [|j js]; cbn [tail app]; [constructor|].
    apply Forall_cons in Hh as [_ Hh]. apply Forall_app. split; [exact Hh|].
    repeat constructor.
  - destruct (CONCURRENCY_LIMIT `min` length (filter eligible (batch s))) as [|k];
      cbn [replicate app tail]; [constructor|].
    rewrite app_nil_r. apply Forall_replicate. exact I.
Qed.

Lemma scoped_transition s e s' : scoped s -> transition s e s' -> scoped s'.
Proof.
  intros (Ht & Hj & Hc) T. unfold scoped.
  inversion T; subst; clear T; unfold resume;
    try match goal with |- context [match ?o with Standalone => _ | Worker _ => _ end] =>
      destruct o eqn:?
    end;
    sfields; try (split; [exact Ht | split; [exact Hj | exact Hc]]).
  all: try match goal with H : idle _ |- _ => unfold idle in H end.
  all: try match goal with H : jobs _ = _ |- _ => rewrite H in * end.
  all: rewrite ?length_insert, ?length_app; cbn [length].
  - (* t_enter *)
    destruct H as [(Hi & -> & -> & _)|[Hjs _]].
    + repeat split.
      * intros r y Hin. apply elem_of_app in Hin as [Hin|Hin]; [eauto|].
        apply list_elem_of_singleton in Hin. discriminate.
      * intros j r Hin Ho. apply list_elem_of_singleton in Hin. subst j. discriminate.
      * exact Hc.
    + rewrite Hjs in Hj. repeat split.
      * intros r y Hin. apply elem_of_app in Hin as [Hin|Hin]; [eauto|].
        apply list_elem_of_singleton in Hin. injection Hin as Ho Hy. subst.
        apply (Hj (JAnalyze (Worker r) x)); [left | reflexivity].
      * intros j r Hin Ho. apply elem_of_cons in Hin as [->|Hin].
        -- apply (Hj (JAnalyze o x)); [left | exact Ho].
        -- apply (Hj j); [right; exact Hin | exact Ho].
      * exact Hc.
  - (* t_lost, nobody awaits *)
    repeat split; [exact Ht | | exact Hc].
    intros j r Hin. apply (Hj j). right. exact Hin.
  - (* t_lost, a worker awaits *)
    repeat split; [exact Ht | | exact Hc].
    intros j r' Hin Ho. apply elem_of_app in Hin as [Hin|Hin].
    + apply (Hj j); [right; exact Hin | exact Ho].
    + apply list_elem_of_singleton in Hin. subst j.
      apply (Hj (JLookup (Worker r) x)); [left | exact Ho].
  - (* t_call *)
    repeat split; [exact Ht | | ].
    + intros j r Hin. apply (Hj j). right. exact Hin.
    + intros c r Hin Ho. apply elem_of_app in Hin as [Hin|Hin]; [eauto|].
      apply list_elem_of_singleton in Hin. subst c. cbn [call_owner] in Ho.
      apply (Hj (JLookup o x)); [left | exact Ho].
  - (* t_settle, nobody awaits *)
    repeat split; [exact Ht | exact Hj | ].
    intros c' r Hin. apply (Hc c'). eapply list_elem_of_delete_inv, Hin.
  - (* t_settle, a worker awaits *)
    repeat split; [exact Ht | | ].
    + intros j r' Hin Ho. apply list_elem_of_singleton in Hin. subst j.
      cbn [job_owner] in Ho. injection Ho as ->.
      apply (Hc c); [eapply list_elem_of_lookup_2; eassumption | congruence].
    + intros c' r' Hin. apply (Hc c'). eapply list_elem_of_delete_inv, Hin.
  - (* t_launch *)
    repeat split.
    + intros r y Hin. specialize (Ht r y Hin). lia.
    + intros j r Hin Ho. rewrite app_nil_r in Hin.
      apply elem_of_replicate in Hin as [-> _]. injection Ho as <-. lia.
    + intros c r Hin Ho. specialize (Hc c r Hin Ho). lia.
  - (* t_shift *)
    repeat split; [exact Ht | | exact Hc].
    intros j r' Hin Ho. apply elem_of_cons in Hin as [->|Hin].
    + injection Ho as <-. eapply lookup_lt_Some; eassumption.
    + apply (Hj j); [right; exact Hin | exact Ho].
  - (* t_exit *)
    repeat split; [exact Ht | | exact Hc].
    intros j r' Hin. apply (Hj j). right. exact Hin.
  - (* t_orphan *)
    repeat split; [exact Ht | | exact Hc].
    intros j r' Hin. apply (Hj j). right. exact Hin.
Qed.

Lemma sound_initial : sound initial.
Proof.
  unfold sound, counted, capped, staffed, flagged, headed, scoped.
  cbn. repeat split; try discriminate; try constructor;
    intros ? ? H; inversion H.
Qed.

Lemma sound_transition s e s' : sound s -> transition s e s' -> sound s'.
Proof.
  intros (H1 & H2 & H3 & H4 & H5 & H6) Ht.
  repeat split;
    eauto using counted_transition, capped_transition, staffed_transition,
      flagged_transition, headed_transition.
  all: apply (scoped_transition _ _ _ H6 Ht).
Qed.

Lemma sound_run es s : sound s -> sound (run es s).
Proof. apply run_invariant. exact sound_transition. Qed.

Lemma sound_reachable es : sound (run es initial).
Proof. apply sound_run, sound_initial. Qed.

(** The runs are never removed, and the number of live workers of a run
    never grows. *)
Lemma live_transition s e s' r :
  transition s e s' -> r < length (runs s) ->
  r < length (runs s') /\ live_of r s' <= live_of r s.
Proof.
  intros Ht Hr. unfold live_of.
  inversion Ht; subst; clear Ht; rewrite ?runs_resume; sfields;
    rewrite ?length_insert, ?length_app; cbn [length]; try (split; [lia | reflexivity]).
  - rewrite lookup_app_l by exact Hr. split; [lia | reflexivity].
  - split; [lia|]. destruct (decide (r0 = r)) as [->|Hne].
    + rewrite list_lookup_insert_eq by exact Hr. rewrite H0. reflexivity.
    + rewrite list_lookup_insert_ne by exact Hne. reflexivity.
  - split; [lia|]. destruct (decide (r0 = r)) as [->|Hne].
    + rewrite list_lookup_insert_eq by exact Hr. rewrite H0. cbn [live]. lia.
    + rewrite list_lookup_insert_ne by exact Hne. reflexivity.
Qed.

Lemma live_run es : forall s r,
  r < length (runs s) ->
  r < length (runs (run es s)) /\ live_of r (run es s) <= live_of r s.
Proof.
  induction es as [|e es IH]; intros s r Hr; [split; [exact Hr | reflexivity]|].
  change (run (e :: es) s) with (run es (step e s)).
  destruct (step_transition e s) as [->|Ht]; [apply IH, Hr|].
  destruct (live_transition _ _ _ r Ht Hr) as [Hr' Hl].
  destruct (IH _ _ Hr') as [Hr'' Hl']. split; [exact Hr''|]. lia.
Qed.

Lemma processAll_eq s :
  processAll s =
  if decide (length (filter eligible (batch s)) = 0 \/ isProcessingAll s = true)
  then (Returned tt, s)
  else
    (Returned tt,
     setJobs (fun js =>
                replicate (min CONCURRENCY_LIMIT (length (filter eligible (batch s))))
                  (JWorker (length (runs s))) ++ js)
       (setRuns (fun rs =>
                   rs ++ [{| queue := filter eligible (batch s);
                             live := min CONCURRENCY_LIMIT
                                       (length (filter eligible (batch s))) |}])
          (setIsProcessingAll true s))).
Proof. unfold processAll, mbind, M_bind, get. case_decide; reflexivity. Qed.

Lemma launch_eq s :
  idle s -> launches s ->
  step ProcessAll s =
  setJobs (fun js =>
             replicate (min CONCURRENCY_LIMIT (length (filter eligible (batch s))))
               (JWorker (length (runs s))) ++ js)
    (setRuns (fun rs =>
                rs ++ [{| queue := filter eligible (batch s);
                          live := min CONCURRENCY_LIMIT
                                    (length (filter eligible (batch s))) |}])
       (setIsProcessingAll true s)).
Proof.
  intros Hi [Hq Hf]. unfold step, exec, turn. rewrite Hi. cbn [fire].
  rewrite processAll_eq. rewrite decide_False; [reflexivity|].
  intros [Hz|Ht].
  - apply length_zero_iff_nil in Hz. exact (Hq Hz).
  - congruence.
Qed.

Lemma processAll_noop s :
  filter eligible (batch s) = [] \/ isProcessingAll s = true ->
  processAll s = (Returned tt, s) /\ step ProcessAll s = s.
Proof.
  intros Hg.
  assert (E : processAll s = (Returned tt, s)).
  { rewrite processAll_eq. rewrite decide_True; [reflexivity|].
    destruct Hg as [->|Hg]; [left; reflexivity | right; exact Hg]. }
  split; [exact E|]. unfold step, exec, turn.
  destruct (jobs s); [cbn [fire]; rewrite E|]; reflexivity.
Qed.

(** C4: with no run in progress, [processAll] puts exactly
    [min(5, queue length)] workers to work, the queue being the items that
    are pending or error; from then on the provider calls in flight for that
    run never exceed that number, and at no moment has any run more than 5
    calls in flight. *)
Theorem processAll_concurrency s es r :
  reachable s ->
  CONCURRENCY_LIMIT = 5 /\
  (idle s -> isProcessingAll s = false ->
   jobs (step ProcessAll s) =
     replicate (min CONCURRENCY_LIMIT (length (filter eligible (batch s))))
       (JWorker (length (runs s)))) /\
  (idle s -> launches s ->
   live_of (length (runs s)) (step ProcessAll s) =
     min CONCURRENCY_LIMIT (length (filter eligible (batch s))) /\
   length (calls_of (length (runs s)) (run es (step ProcessAll s))) <=
     min CONCURRENCY_LIMIT (length (filter eligible (batch s)))) /\
  length (calls_of r (run es s)) <= 5.
Proof.
  intros [es0 ->]. set (s := run es0 initial) in *.
  split; [reflexivity|]. split; [|split].
  - intros Hi Hf. destruct (filter eligible (batch s)) as [|i l] eqn:E.
    + destruct (processAll_noop s (or_introl E)) as [_ ->]. exact Hi.
    + assert (Hl : launches s) by (split; [rewrite E; discriminate | exact Hf]).
      rewrite (launch_eq s Hi Hl). sfields. unfold idle in Hi.
      rewrite Hi, E. apply app_nil_r.
  - intros Hi Hl.
    assert (Hlive : live_of (length (runs s)) (step ProcessAll s) =
                    min CONCURRENCY_LIMIT (length (filter eligible (batch s)))).
    { rewrite (launch_eq s Hi Hl). unfold live_of. sfields.
      rewrite lookup_app_r, Nat.sub_diag by lia. reflexivity. }
    split; [exact Hlive|].
    assert (Hs : sound (run es (step ProcessAll s))).
    { unfold s. rewrite <- run_snoc, <- run_app. apply sound_reachable. }
    destruct Hs as (Hc & _). specialize (Hc (length (runs s))). unfold tokens in Hc.
    assert (Hr : length (runs s) < length (runs (step ProcessAll s))).
    { rewrite (launch_eq s Hi Hl). sfields. rewrite length_app. cbn. lia. }
    destruct (live_run es _ _ Hr) as [_ Hle]. lia.
  - assert (Hs : sound (run es s)).
    { unfold s. rewrite <- run_app. apply sound_reachable. }
    destruct Hs as (Hc & Hcap & _). specialize (Hc r). unfold tokens, live_of in Hc.
    destruct (runs (run es s) !! r) as [rn|] eqn:E.
    + specialize (Hcap r rn E). unfold CONCURRENCY_LIMIT in Hcap. lia.
    + lia.
Qed.

(** ** Snapshot semantics of a batch run *)

Lemma headed_entering (r : nat) (js : list Job) :
  Forall is_worker_job js ->
  omap (fun j => match j with
                 | JAnalyze (Worker r') x => if decide (r' = r) then Some x else None
                 | _ => None
                 end) js = [].
Proof.
  induction 1 as [|j' js Hj _ IH]; [reflexivity|].
  cbn [omap list_omap]. destruct j'; try contradiction. exact IH.
Qed.

(** The identifiers run [r] still has to enter [analyzeSingle] with, after
    those it has entered with, make up the same list all along. *)
Lemma owed_transition s e s' r :
  headed s -> transition s e s' -> r < length (runs s) ->
  started r s' ++ entering r s' ++ (id <$> queue_of r s') =
  started r s ++ entering r s ++ (id <$> queue_of r s).
Proof.
  intros Hh Ht Hr. unfold headed in Hh. unfold entering, queue_of.
  inversion Ht; subst; clear Ht; unfold resume;
    try match goal with |- context [match ?o with Standalone => _ | Worker _ => _ end] =>
      destruct o eqn:?
    end;
    unfold started; sfields; try reflexivity.
  all: try match goal with H : idle _ |- _ => unfold idle in H end.
  all: try match goal with H : jobs _ = _ |- _ => rewrite H in * end.
  all: rewrite ?omap_app; cbn [omap list_omap app tail] in *; rewrite ?app_nil_r;
    try reflexivity.
  - (* t_enter *)
    rewrite filter_app, fmap_app, filter_cons, filter_nil. cbn [fst].
    destruct H as [(Hi & -> & -> & _)|[Hj _]].
    + unfold idle in Hi. rewrite Hi. rewrite decide_False by discriminate.
      cbn [fmap list_fmap omap list_omap app]. rewrite app_nil_r. reflexivity.
    + rewrite Hj. cbn [omap list_omap]. destruct o as [|r'].
      * rewrite decide_False by discriminate. cbn [fmap list_fmap].
        rewrite app_nil_r. reflexivity.
      * destruct (decide (r' = r)) as [->|Hne].
        -- rewrite decide_True by reflexivity. cbn [fmap list_fmap snd].
           rewrite <- !app_assoc. reflexivity.
        -- rewrite decide_False by congruence. cbn [fmap list_fmap].
           rewrite app_nil_r. reflexivity.
  - (* t_launch *)
    rewrite lookup_app_l by exact Hr.
    rewrite (headed_entering r) by (apply Forall_replicate; exact I). reflexivity.
  - (* t_shift *)
    rewrite (headed_entering r js) by exact Hh.
    destruct (decide (r0 = r)) as [->|Hne].
    + rewrite list_lookup_insert_eq by exact Hr. rewrite H0, H1.
      cbn [queue fmap list_fmap app]. reflexivity.
    + rewrite list_lookup_insert_ne by exact Hne. reflexivity.
  - (* t_exit *)
    destruct (decide (r0 = r)) as [->|Hne].
    + rewrite list_lookup_insert_eq by exact Hr. rewrite H0, H1. reflexivity.
    + rewrite list_lookup_insert_ne by exact Hne. reflexivity.
Qed.

Lemma owed_run es : forall s r,
  sound s -> r < length (runs s) ->
  started r (run es s) ++ entering r (run es s) ++ (id <$> queue_of r (run es s)) =
  started r s ++ entering r s ++ (id <$> queue_of r s).
Proof.
  induction es as [|e es IH]; intros s r Hs Hr; [reflexivity|].
  change (run (e :: es) s) with (run es (step e s)).
  destruct (step_transition e s) as [->|Ht]; [apply IH; assumption|].
  rewrite IH.
  - apply (owed_transition s e _ r); [apply Hs | exact Ht | exact Hr].
  - exact (sound_transition _ _ _ Hs Ht).
  - apply (live_transition _ _ _ r Ht Hr).
Qed.

Lemma started_fresh s : scoped s -> started (length (runs s)) s = [].
Proof.
  intros (Ht & _ & _). unfold started.
  destruct (filter (fun p => fst p = Worker (length (runs s))) (trace s))
    as [|[o x] l] eqn:E; [reflexivity|].
  assert (Hin : (o, x) ∈ filter (fun p => fst p = Worker (length (runs s))) (trace s))
    by (rewrite E; left).
  apply list_elem_of_filter in Hin as [Ho Hin]. cbn [fst] in Ho. subst o.
  specialize (Ht _ _ Hin). lia.
Qed.

Lemma entering_none r s : length (jobs_of r s) = 0 -> entering r s = [].
Proof.
  unfold jobs_of, entering. induction (jobs s) as [|j js IH]; [reflexivity|].
  rewrite count_cons. cbn [omap list_omap]. intros Hz.
  destruct j as [[|r'] x|o x|r']; cbn [job_owner] in Hz; try (apply IH; decides).
  destruct (decide (r' = r)) as [->|Hne]; [|apply IH; decides].
  rewrite decide_True in Hz by reflexivity. lia.
Qed.

(** ** Termination of an undisturbed run *)

Lemma queued_insert rs r rn rn' :
  rs !! r = Some rn ->
  queued (<[r := rn']> rs) + length (queue rn) = queued rs + length (queue rn').
Proof.
  unfold queued. revert r. induction rs as [|a rs IH]; intros r Hr; [discriminate|].
  destruct r as [|r]; simpl in Hr |- *.
  - injection Hr as ->. lia.
  - specialize (IH r Hr). lia.
Qed.

Lemma queued_app rs rn : queued (rs ++ [rn]) = queued rs + length (queue rn).
Proof. unfold queued. rewrite sum_list_with_app. cbn. lia. Qed.


Lemma backlog_transition s e s' :
  transition s e s' -> internal e -> backlog s' < backlog s.
Proof.
  intros Ht Hi. unfold backlog.
  inversion Ht; subst; clear Ht; try contradiction; unfold resume;
    try match goal with |- context [match ?o with Standalone => _ | Worker _ => _ end] =>
      destruct o eqn:?
    end;
    sfields.
  all: try match goal with H : idle _ |- _ => unfold idle in H end.
  all: try match goal with H : jobs _ = _ |- _ => rewrite H in * end.
  all: rewrite ?sum_list_with_app, ?length_app; cbn [sum_list_with job_weight length].
  - destruct H as [(_ & _ & _ & ->)|[Hj _]]; [contradiction|].
    rewrite Hj. cbn [sum_list_with job_weight]. lia.
  - lia.
  - lia.
  - lia.
  - rewrite length_delete by (rewrite H0; eauto). apply lookup_lt_Some in H0. lia.
  - rewrite length_delete by (rewrite H0; eauto). apply lookup_lt_Some in H0. lia.
  - pose proof (queued_insert (runs s) r rn {| queue := rest; live := live rn |} H0) as Hq.
    rewrite H1 in Hq. cbn [queue length] in Hq. lia.
  - pose proof (queued_insert (runs s) r rn {| queue := []; live := pred (live rn) |} H0) as Hq.
    rewrite H1 in Hq. cbn [queue length] in Hq. lia.
  - lia.
Qed.

Lemma busy_bound es : forall s, busy es s -> length es <= backlog s.
Proof.
  induction es as [|e es IH]; intros s Hb; cbn [length]; [lia|].
  destruct Hb as (Hi & Hne & Hb). specialize (IH _ Hb).
  destruct (step_transition e s) as [E|Ht]; [contradiction|].
  pose proof (backlog_transition _ _ _ Ht Hi). lia.
Qed.

Lemma microtask_transition s j js :
  jobs s = j :: js -> transition s Microtask (step Microtask s).
Proof.
  intros Ej. unfold step, exec, turn. rewrite Ej.
  destruct j as [o x|o x|r]; cbn [run_job].
  - apply (t_enter s Microtask o x js). right. split; [exact Ej|reflexivity].
  - rewrite analyzeSingle_lookup_eq. cbn [snd].
    change (base64Store (setJobs (fun _ => js) s)) with (base64Store s).
    destruct (falsy (base64Store s !! x)) eqn:Ef.
    + apply (t_lost s o x js Ej Ef).
    + apply (t_call s o x js Ej Ef).
  - unfold worker, mbind, M_bind, get.
    change (runs (setJobs (fun _ => js) s)) with (runs s).
    destruct (runs s !! r) as [rn|] eqn:Er.
    + destruct (queue rn) as [|item rest] eqn:Eq.
      * unfold modify. pose proof (t_exit s r rn js Ej Er Eq) as T.
        case_decide; cbn [snd]; exact T.
      * apply (t_shift s r rn item rest js Ej Er Eq).
    + apply (t_orphan s r js Ej Er).
Qed.

Lemma settle_transition s n c o :
  idle s -> calls s !! n = Some c -> transition s (Settle n o) (step (Settle n o) s).
Proof.
  intros Hi Hc. unfold step, exec, turn. rewrite Hi. cbn [fire].
  unfold mbind, M_bind, get. rewrite Hc. unfold modify.
  rewrite analyzeSingle_resume_eq. cbn [snd]. apply (t_settle s n c o Hi Hc).
Qed.

Lemma internal_progress s :
  ¬ quiescent s -> exists e, internal e /\ step e s ≠ s.
Proof.
  intros Hq. destruct (jobs s) as [|j js] eqn:Ej.
  - destruct (calls s) as [|c cs] eqn:Ec; [exfalso; apply Hq; split; assumption|].
    exists (Settle 0 success). split; [exact I|].
    assert (Hc : calls s !! 0 = Some c) by (rewrite Ec; reflexivity).
    pose proof (backlog_transition _ _ _ (settle_transition s 0 c success Ej Hc) I) as Hlt.
    intros E. rewrite E in Hlt. lia.
  - exists Microtask. split; [exact I|].
    pose proof (backlog_transition _ _ _ (microtask_transition s j js Ej) I) as Hlt.
    intros E. rewrite E in Hlt. lia.
Qed.

(** ** Partial failure: what an undisturbed run leaves behind *)

Lemma verdict_terminal o i : terminal (verdict o i).
Proof.
  unfold terminal, verdict. destruct o as [m|text [a|]]; cbn; auto;
    destruct (falsy text); cbn; auto.
Qed.

Lemma elem_of_delete_or {A} (l : list A) n c x :
  l !! n = Some c -> x ∈ l -> x = c \/ x ∈ delete n l.
Proof.
  revert n. induction l as [|a l IH]; intros n Hn Hx; [inversion Hx|].
  destruct n as [|n]; simpl in Hn |- *.
  - injection Hn as ->. apply elem_of_cons in Hx. exact Hx.
  - apply elem_of_cons in Hx as [->|Hx].
    + right. left.
    + destruct (IH n Hn Hx) as [->|H]; [left; reflexivity | right; right; exact H].
Qed.

Ltac mem :=
  repeat (progress
            rewrite ?elem_of_app, ?elem_of_cons, ?list_elem_of_singleton, ?elem_of_nil in *);
  tauto.

Lemma settling_transition R S s e s' :
  internal e -> R < length (runs s) -> transition s e s' ->
  settling R S s -> settling R S s'.
Proof.
  intros Hi HR Ht Hs i' Hin HS. revert Hin.
  unfold settling, awaited, job_ids, queue_of in *.
  inversion Ht; subst; clear Ht; try contradiction; unfold resume;
    try match goal with |- context [match ?o with Standalone => _ | Worker _ => _ end] =>
      destruct o eqn:?
    end;
    sfields.
  all: try match goal with H : idle _ |- _ => unfold idle in H end.
  all: try match goal with H : jobs _ = _ |- _ => rewrite H in * end.
  all: rewrite ?omap_app; cbn [omap list_omap app] in *; rewrite ?app_nil_r.
  - (* t_enter *)
    destruct H as [(_ & _ & _ & ->)|[Hj _]]; [contradiction|].
    rewrite Hj in Hs. cbn [omap list_omap] in Hs.
    intros Hin. apply elem_of_on_id in Hin as (i & Hin & ->). case_decide as Hid.
    + right. cbn [id mark_processing]. rewrite Hid. left.
    + exact (Hs i Hin HS).
  - (* t_lost, nobody awaits *)
    intros Hin. apply elem_of_on_id in Hin as (i & Hin & ->). case_decide as Hid.
    + left. right. reflexivity.
    + destruct (Hs i Hin HS) as [Ht|Haw]; [left; exact Ht|]. right.
      apply elem_of_cons in Haw as [E|Haw]; [congruence | exact Haw].
  - (* t_lost, a worker awaits *)
    intros Hin. apply elem_of_on_id in Hin as (i & Hin & ->). case_decide as Hid.
    + left. right. reflexivity.
    + destruct (Hs i Hin HS) as [Ht|Haw]; [left; exact Ht|]. right.
      apply elem_of_cons in Haw as [E|Haw]; [congruence | exact Haw].
  - (* t_call *)
    intros Hin. destruct (Hs i' Hin HS) as [Ht|Haw]; [left; exact Ht|]. right.
    rewrite fmap_app. cbn [fmap list_fmap call_id].
    mem.
  - (* t_settle, nobody awaits *)
    intros Hin. apply elem_of_on_id in Hin as (i & Hin & ->). case_decide as Hid.
    + left. apply verdict_terminal.
    + destruct (Hs i Hin HS) as [Ht|Haw]; [left; exact Ht|]. right.
      apply elem_of_app in Haw as [Haw|Haw]; [|mem].
      apply list_elem_of_fmap in Haw as (c' & E & Hc').
      destruct (elem_of_delete_or _ _ _ _ H0 Hc') as [->|Hd]; [congruence|].
      apply elem_of_app. left. rewrite E. apply list_elem_of_fmap_2. exact Hd.
  - (* t_settle, a worker awaits *)
    intros Hin. apply elem_of_on_id in Hin as (i & Hin & ->). case_decide as Hid.
    + left. apply verdict_terminal.
    + destruct (Hs i Hin HS) as [Ht|Haw]; [left; exact Ht|]. right.
      apply elem_of_app in Haw as [Haw|Haw]; [|mem].
      apply list_elem_of_fmap in Haw as (c' & E & Hc').
      destruct (elem_of_delete_or _ _ _ _ H0 Hc') as [->|Hd]; [congruence|].
      apply elem_of_app. left. rewrite E. apply list_elem_of_fmap_2. exact Hd.
  - (* t_shift *)
    intros Hin. destruct (Hs i' Hin HS) as [Ht|Haw]; [left; exact Ht|]. right.
    destruct (decide (r = R)) as [->|Hne].
    + rewrite list_lookup_insert_eq by exact HR. rewrite H0, H1 in Haw.
      cbn [queue fmap list_fmap] in *. mem.
    + rewrite list_lookup_insert_ne by exact Hne. mem.
  - (* t_exit *)
    intros Hin. destruct (Hs i' Hin HS) as [Ht|Haw]; [left; exact Ht|]. right.
    destruct (decide (r = R)) as [->|Hne].
    + rewrite list_lookup_insert_eq by exact HR. rewrite H0, H1 in Haw. exact Haw.
    + rewrite list_lookup_insert_ne by exact Hne. exact Haw.
  - (* t_orphan *)
    intros Hin. destruct (Hs i' Hin HS) as [Ht|Haw]; [left; exact Ht|]. right.
    exact Haw.
Qed.

Lemma internal_ids s e s' :
  internal e -> transition s e s' -> id <$> batch s' = id <$> batch s.
Proof.
  intros Hi Ht.
  destruct (transition_ids _ _ _ Ht) as [E|[(new & E & Hnew)|[(y & -> & _)|[-> _]]]];
    try contradiction; [exact E|].
  destruct new as [|x new]; [exact E|].
  exfalso. specialize (Hnew x ltac:(left)). destruct e; contradiction.
Qed.

Lemma internal_run es : forall s R S,
  Forall internal es -> R < length (runs s) -> settling R S s ->
  settling R S (run es s) /\ id <$> batch (run es s) = id <$> batch s.
Proof.
  induction es as [|e es IH]; intros s R S Hes HR Hs; [split; [exact Hs | reflexivity]|].
  apply Forall_cons in Hes as [He Hes].
  change (run (e :: es) s) with (run es (step e s)).
  destruct (step_transition e s) as [->|Ht]; [apply IH; assumption|].
  destruct (IH (step e s) R S Hes) as [H1 H2].
  - apply (live_transition _ _ _ R Ht HR).
  - exact (settling_transition R S _ _ _ He HR Ht Hs).
  - split; [exact H1|]. rewrite H2. exact (internal_ids _ _ _ He Ht).
Qed.

Lemma no_tokens s r : quiescent s -> tokens r s = 0.
Proof. intros [Hj Hc]. unfold tokens, calls_of, jobs_of. rewrite Hj, Hc. reflexivity. Qed.

(** In a quiescent state no queue holds an item and the flag is down. *)
Lemma quiescent_drained s :
  sound s -> quiescent s ->
  (forall r, queue_of r s = []) /\ isProcessingAll s = false /\ queued (runs s) = 0.
Proof.
  intros (Hc & _ & Hst & Hf & _) Hq.
  assert (Hlive : forall r rn, runs s !! r = Some rn -> live rn = 0).
  { intros r rn Hr. specialize (Hc r). rewrite (no_tokens s r Hq) in Hc.
    unfold live_of in Hc. rewrite Hr in Hc. congruence. }
  assert (Hqueue : forall r rn, runs s !! r = Some rn -> queue rn = []).
  { intros r rn Hr. destruct (queue rn) eqn:E; [reflexivity|].
    exfalso. apply (Hst _ _ Hr); [rewrite E; discriminate | exact (Hlive _ _ Hr)]. }
  repeat split.
  - intros r. unfold queue_of. destruct (runs s !! r) eqn:E; [eauto | reflexivity].
  - destruct (isProcessingAll s) eqn:E; [|reflexivity].
    destruct (Hf E) as (r & rn & Hr & Hne). exfalso. exact (Hne (Hlive _ _ Hr)).
  - unfold queued. clear -Hqueue. induction (runs s) as [|rn rs IH]; [reflexivity|].
    simpl. rewrite (Hqueue 0 rn eq_refl). simpl. apply IH.
    intros r rn' Hr. apply (Hqueue (S r)). exact Hr.
Qed.

Lemma weight_replicate n r : sum_list_with job_weight (replicate n (JWorker r)) = n.
Proof. induction n as [|n IH]; [reflexivity|]. simpl. rewrite IH. reflexivity. Qed.

Lemma analyzeImage_throws o t m t' :
  analyzeImage o t = (Threw m, t') -> verdict o = mark_error m.
Proof.
  unfold analyzeImage, verdict. destruct o as [m'|text [a|]].
  - unfold throw. intros E. injection E as -> _. reflexivity.
  - destruct (falsy text); unfold throw, mret, M_ret; intros E;
      [injection E as <- _; reflexivity | discriminate].
  - destruct (falsy text); unfold throw; intros E; injection E as <- _; reflexivity.
Qed.

(** C7: [analyzeSingle] returns normally whatever the provider does or the
    payload store holds, and records a failure on the item ([status] error,
    [error] the message).  A batch run left to itself goes on whatever fails:
    while a job is pending or a call in flight, some event does something;
    no schedule of such events is longer than five times the snapshot; and
    once nothing is pending or in flight the flag is down and every item
    with an identifier of the snapshot is completed or error. *)
Theorem batch_run_partial_failure s es :
  reachable s -> quiescent s -> launches s -> Forall internal es ->
  (forall c o t, fst (analyzeSingle_resume c o t) = Returned tt) /\
  (forall c o t m i,
     fst (analyzeImage o t) = Threw m ->
     i ∈ batch (exec (analyzeSingle_resume c o) t) -> id i = call_id c ->
     status i = Status.error /\ error i = Some m) /\
  (forall o x t,
     fst (analyzeSingle o x t) = Returned tt /\
     fst (analyzeSingle_lookup o x t) = Returned tt) /\
  (forall o x t i,
     falsy (base64Store t !! x) = true ->
     i ∈ batch (exec (analyzeSingle_lookup o x) t) -> id i = x ->
     status i = Status.error /\ error i = Some "Image data lost") /\
  (busy es (step ProcessAll s) ->
   length es <= 5 * length (filter eligible (batch s))) /\
  (¬ quiescent (run es (step ProcessAll s)) ->
   exists e, internal e /\
             step e (run es (step ProcessAll s)) ≠ run es (step ProcessAll s)) /\
  (quiescent (run es (step ProcessAll s)) ->
   isProcessingAll (run es (step ProcessAll s)) = false /\
   id <$> batch (run es (step ProcessAll s)) = id <$> batch s /\
   forall i, i ∈ batch (run es (step ProcessAll s)) ->
             id i ∈ id <$> filter eligible (batch s) -> terminal i).
Proof.
  intros [es0 ->] Hq Hl Hes. set (s := run es0 initial) in *.
  assert (Hs : sound s) by apply sound_reachable.
  assert (Hi : idle s) by apply Hq.
  assert (Hs2 : sound (run es (step ProcessAll s))).
  { unfold s. rewrite <- run_snoc, <- run_app. apply sound_reachable. }
  destruct (quiescent_drained s Hs Hq) as (_ & _ & Hz).
  assert (HR : length (runs s) < length (runs (step ProcessAll s))).
  { rewrite (launch_eq s Hi Hl). sfields. rewrite length_app. cbn. lia. }
  split; [|split; [|split; [|split; [|split; [|split]]]]].
  - intros c o t. rewrite analyzeSingle_resume_eq. reflexivity.
  - intros c o t m i Hm Hin Hid.
    unfold exec in Hin. rewrite analyzeSingle_resume_eq in Hin. cbn [snd] in Hin.
    rewrite batch_resume in Hin. sfields.
    destruct (analyzeImage o t) as [cm t'] eqn:E. cbn [fst] in Hm. subst cm.
    rewrite (analyzeImage_throws _ _ _ _ E) in Hin.
    apply elem_of_on_id in Hin as (j & _ & ->).
    revert Hid. case_decide; [split; reflexivity | congruence].
  - intros o x t. rewrite analyzeSingle_lookup_eq. split; reflexivity.
  - intros o x t i Hf.
    unfold exec. rewrite analyzeSingle_lookup_eq, Hf. cbn [snd].
    rewrite batch_resume. sfields. intros Hin Hid.
    apply elem_of_on_id in Hin as (j & _ & ->).
    revert Hid. case_decide; [split; reflexivity | congruence].
  - intros Hb. apply busy_bound in Hb. revert Hb.
    rewrite (launch_eq s Hi Hl). unfold backlog. sfields.
    destruct Hq as [Hj Hc]. rewrite Hj, Hc, app_nil_r, weight_replicate, queued_app, Hz.
    cbn [queue length]. lia.
  - apply internal_progress.
  - intros Hq2. split; [apply (quiescent_drained _ Hs2 Hq2)|]. split.
    + destruct (internal_run es (step ProcessAll s) (length (runs s)) []
                  Hes HR) as [_ E].
      { intros i _ Hin. inversion Hin. }
      rewrite E. rewrite (launch_eq s Hi Hl). reflexivity.
    + intros i Hin HS.
      destruct (internal_run es (step ProcessAll s) (length (runs s))
                  (id <$> filter eligible (batch s)) Hes HR) as [Hset _].
      { intros j Hj HjS. right. unfold awaited, queue_of.
        rewrite (launch_eq s Hi Hl). sfields.
        rewrite lookup_app_r, Nat.sub_diag by lia. cbn [lookup list_lookup queue].
        apply elem_of_app. right. apply elem_of_app. right. exact HjS. }
      destruct (Hset i Hin HS) as [Ht|Haw]; [exact Ht|]. exfalso.
      unfold awaited in Haw. destruct Hq2 as [Hj2 Hc2].
      rewrite Hj2, Hc2 in Haw.
      destruct (quiescent_drained _ Hs2 (conj Hj2 Hc2)) as (Hqe & _ & _).
      rewrite Hqe in Haw. cbn in Haw. inversion Haw.
Qed.

(** ** A batch run as a whole *)

Lemma worker_has_token s r js :
  counted s -> jobs s = JWorker r :: js -> live_of r s ≠ 0.
Proof.
  intros Hc Hj. rewrite <- Hc. unfold tokens, jobs_of. rewrite Hj, count_cons.
  cbn [job_owner]. rewrite decide_True by done. lia.
Qed.

Lemma single_run_transition s e s' :
  counted s -> single_run s -> transition s e s' -> single_run s'.
Proof.
  intros Hc Hs Ht r' rn'. unfold single_run in Hs.
  inversion Ht; subst; clear Ht; rewrite ?runs_resume, ?flag_resume; sfields;
    try apply Hs.
  - intros Hl Hlive. rewrite length_app. cbn [length].
    apply lookup_app_Some in Hl as [Hl|[Hge Hl]].
    + destruct (Hs _ _ Hl Hlive) as [Hflag _]. congruence.
    + apply list_lookup_singleton_Some in Hl as [Hz _]. split; [done|lia].
  - intros Hl Hlive. rewrite length_insert.
    apply list_lookup_insert_Some in Hl as [(-> & <- & _)|[_ Hl]].
    + cbn [live] in Hlive. exact (Hs _ _ H0 Hlive).
    + exact (Hs _ _ Hl Hlive).
  - intros Hl Hlive. rewrite length_insert.
    assert (live rn ≠ 0) as Hrn.
    { pose proof (worker_has_token _ _ _ Hc H) as Hw. unfold live_of in Hw.
      by rewrite H0 in Hw. }
    destruct (Hs _ _ H0 Hrn) as [Hflag Hlast].
    apply list_lookup_insert_Some in Hl as [(-> & <- & _)|[Hne Hl]].
    + cbn [live] in Hlive. rewrite decide_False by done. done.
    + destruct (Hs _ _ Hl Hlive) as [_ Hlast']. lia.
Qed.

Lemma reachable_single_run es : single_run (run es initial) /\ sound (run es initial).
Proof.
  apply (run_invariant (fun s => single_run s /\ sound s)).
  - intros s e s' [Hs Hsound] Ht. split.
    + eapply single_run_transition; [apply Hsound|exact Hs|exact Ht].
    + eapply sound_transition; eassumption.
  - split; [|apply sound_initial]. intros r rn Hl. by destruct r.
Qed.

(** Left to itself the engine comes to rest. *)
Lemma drains s : exists es, Forall internal es /\ quiescent (run es s).
Proof.
  remember (backlog s) as n eqn:En. revert s En.
  induction n as [n IH] using lt_wf_ind. intros s ->.
  destruct (jobs s) as [|j js] eqn:Ej.
  - destruct (calls s) as [|c cs] eqn:Ec.
    + exists []. split; [constructor|]. split; assumption.
    + assert (Hc : calls s !! 0 = Some c) by (rewrite Ec; reflexivity).
      pose proof (backlog_transition _ _ _ (settle_transition s 0 c success Ej Hc) I) as Hlt.
      destruct (IH _ Hlt _ eq_refl) as (es & Hes & Hq).
      exists (Settle 0 success :: es). split; [constructor; [exact I|exact Hes]|exact Hq].
  - pose proof (backlog_transition _ _ _ (microtask_transition s j js Ej) I) as Hlt.
    destruct (IH _ Hlt _ eq_refl) as (es & Hes & Hq).
    exists (Microtask :: es). split; [constructor; [exact I|exact Hes]|exact Hq].
Qed.

(** A run is under way exactly while the flag is set. *)
Lemma run_in_progress es r :
  (live_of r (run es initial) ≠ 0 \/ queue_of r (run es initial) ≠ [] \/
   calls_of r (run es initial) ≠ [] \/ jobs_of r (run es initial) ≠ []) ->
  isProcessingAll (run es initial) = true.
Proof.
  destruct (reachable_single_run es) as [Hsingle (Hc & _ & Hst & _)].
  set (s := run es initial) in *. intros H.
  assert (live_of r s ≠ 0) as Hlive.
  { destruct H as [H|[H|[H|H]]]; [exact H| | |].
    - unfold queue_of, live_of in *. destruct (runs s !! r) as [rn|] eqn:E; [|done].
      by apply (Hst _ _ E).
    - rewrite <- Hc. unfold tokens. destruct (calls_of r s); [done|cbn [length]; lia].
    - rewrite <- Hc. unfold tokens. destruct (jobs_of r s); [done|cbn [length]; lia]. }
  unfold live_of in Hlive. destruct (runs s !! r) as [rn|] eqn:E; [|done].
  by destruct (Hsingle _ _ E Hlive).
Qed.

(** C5: a call of [processAll] whose snapshot is empty, or that finds a run
    in progress, leaves the state as it is; a run is in progress, with a
    worker in its loop, an item queued, a call awaited or a job pending,
    exactly while the flag is set.  A call that passes the guard makes its
    workers enter [analyzeSingle] on the identifiers of the snapshot, in the
    order of the snapshot and once for each of its items: whatever happens
    next, the identifiers entered so far, the one being entered and those
    still queued are the snapshot's; the engine comes to rest, and when it is
    at rest all of them have been entered. *)
Theorem processAll_snapshot s es :
  reachable s ->
  (filter eligible (batch s) = [] \/ isProcessingAll s = true \/
   (exists r, live_of r s ≠ 0 \/ queue_of r s ≠ [] \/
              calls_of r s ≠ [] \/ jobs_of r s ≠ []) ->
   processAll s = (Returned tt, s) /\ step ProcessAll s = s) /\
  (isProcessingAll s = true <-> exists r, live_of r s ≠ 0) /\
  (idle s -> launches s ->
   started (length (runs s)) (run es (step ProcessAll s)) ++
   entering (length (runs s)) (run es (step ProcessAll s)) ++
   (id <$> queue_of (length (runs s)) (run es (step ProcessAll s))) =
   id <$> filter eligible (batch s) /\
   (live_of (length (runs s)) (run es (step ProcessAll s)) = 0 ->
    started (length (runs s)) (run es (step ProcessAll s)) =
    id <$> filter eligible (batch s)) /\
   (quiescent (run es (step ProcessAll s)) ->
    started (length (runs s)) (run es (step ProcessAll s)) =
    id <$> filter eligible (batch s)) /\
   (exists es', Forall internal es' /\
                quiescent (run es' (run es (step ProcessAll s))) /\
                started (length (runs s)) (run es' (run es (step ProcessAll s))) =
                id <$> filter eligible (batch s))).
Proof.
  intros [es0 ->]. split; [|split].
  { intros [H|[H|[r H]]]; [apply processAll_noop; by left|apply processAll_noop; by right|].
    apply processAll_noop. right. by apply (run_in_progress es0 r). }
  { split.
    - intros Hflag. destruct (sound_reachable es0) as (_ & _ & _ & Hf & _).
      destruct (Hf Hflag) as (r & rn & Hr & Hlive). exists r.
      unfold live_of. by rewrite Hr.
    - intros [r Hr]. apply (run_in_progress es0 r). by left. }
  intros Hi Hl. set (s := run es0 initial) in *.
  assert (Hs : sound s) by apply sound_reachable.
  assert (Hs1 : sound (step ProcessAll s)).
  { unfold s. rewrite <- run_snoc. apply sound_reachable. }
  assert (Hr : length (runs s) < length (runs (step ProcessAll s))).
  { rewrite (launch_eq s Hi Hl). sfields. rewrite length_app. cbn. lia. }
  assert (E : forall es,
              started (length (runs s)) (run es (step ProcessAll s)) ++
              entering (length (runs s)) (run es (step ProcessAll s)) ++
              (id <$> queue_of (length (runs s)) (run es (step ProcessAll s))) =
              id <$> filter eligible (batch s)).
  { intros es1. rewrite (owed_run es1 _ _ Hs1 Hr). rewrite (launch_eq s Hi Hl).
    unfold entering, queue_of.
    change (started (length (runs s)) _) with (started (length (runs s)) s).
    rewrite started_fresh by apply Hs. sfields.
    unfold idle in Hi. rewrite Hi, app_nil_r.
    rewrite headed_entering by (apply Forall_replicate; exact I).
    rewrite lookup_app_r, Nat.sub_diag by lia. reflexivity. }
  assert (Hrest : forall es, quiescent (run es (step ProcessAll s)) ->
                    started (length (runs s)) (run es (step ProcessAll s)) =
                    id <$> filter eligible (batch s)).
  { intros es1 Hq. rewrite <- (E es1).
    assert (Hs2 : sound (run es1 (step ProcessAll s))) by (apply sound_run, Hs1).
    destruct (quiescent_drained _ Hs2 Hq) as (Hqueue & _ & _).
    rewrite Hqueue. unfold entering. rewrite (proj1 Hq).
    cbn [omap list_omap fmap list_fmap app]. by rewrite app_nil_r. }
  split; [apply E|]. split; [|split; [apply Hrest|]].
  - intros Hz. rewrite <- (E es).
    assert (Hs2 : sound (run es (step ProcessAll s))) by (apply sound_run, Hs1).
    destruct Hs2 as (Hc & _ & Hst & _).
    specialize (Hc (length (runs s))). rewrite Hz in Hc. unfold tokens in Hc.
    rewrite entering_none by lia.
    assert (Hq : queue_of (length (runs s)) (run es (step ProcessAll s)) = []).
    { unfold queue_of, live_of in *.
      destruct (runs (run es (step ProcessAll s)) !! length (runs s)) as [rn|] eqn:El;
        [|reflexivity].
      destruct (queue rn) eqn:Eq; [reflexivity|].
      exfalso. apply (Hst _ _ El); [rewrite Eq; discriminate | exact Hz]. }
    rewrite Hq. cbn [fmap list_fmap app]. rewrite app_nil_r. reflexivity.
  - destruct (drains (run es (step ProcessAll s))) as (es' & Hes' & Hq).
    exists es'. split; [exact Hes'|]. split; [exact Hq|].
    rewrite <- run_app in *. by apply Hrest.
Qed.

(** ** The item state machine *)

Lemma strict_loose a b : strict a b -> loose a b.
Proof.
  intros [->|H]; [left; reflexivity|]. right. destruct H; discriminate.
Qed.

Lemma moves_refl R i : (forall a, R a a) -> moves R i i.
Proof. intros HR. split; [reflexivity | apply HR]. Qed.

Lemma store_step_same R l : (forall a, R a a) -> store_step R l l.
Proof.
  intros HR. apply ss_update. apply Forall2_same_length_lookup. split; [reflexivity|].
  intros n i i' H1 H2. rewrite H1 in H2. injection H2 as <-. apply moves_refl, HR.
Qed.

Lemma store_step_on_id (R : Status.t -> Status.t -> Prop) x f l :
  (forall a, R a a) -> keeps_id f ->
  (forall i, i ∈ l -> id i = x -> R (status i) (status (f i))) ->
  store_step R l (on_id x f l).
Proof.
  intros HR Hf Hx. apply ss_update. unfold on_id.
  induction l as [|i l IH]; [constructor|].
  cbn [fmap list_fmap]. constructor.
  - case_decide as Hid.
    + split; [symmetry; apply Hf | apply Hx; [left | exact Hid]].
    + apply moves_refl, HR.
  - apply IH. intros j Hj. apply Hx. right. exact Hj.
Qed.

Lemma loose_refl a : loose a a.
Proof. left. reflexivity. Qed.

Lemma strict_refl a : strict a a.
Proof. left. reflexivity. Qed.

Lemma verdict_status o i :
  status (verdict o i) = Status.completed \/ status (verdict o i) = Status.error.
Proof. apply verdict_terminal. Qed.

(** Whatever the use, a turn never puts an item back to pending. *)
Lemma loose_transition s e s' :
  transition s e s' -> store_step loose (batch s) (batch s').
Proof.
  intros Ht. inversion Ht; subst; clear Ht; rewrite ?batch_resume; sfields;
    try (apply store_step_same; exact loose_refl).
  - apply (ss_intake _ _ _ (item_of <$> accepted files)); [|reflexivity].
    apply Forall_fmap, Forall_forall. intros u _. reflexivity.
  - apply (ss_intake _ _ _ [new_item x dataUrl]); [|reflexivity].
    repeat constructor.
  - apply ss_removal. apply sublist_filter.
  - apply ss_removal. apply sublist_nil_l.
  - apply store_step_on_id; auto using loose_refl with engine.
    intros i _ _; right; discriminate.
  - apply store_step_on_id; auto using loose_refl with engine.
    intros i _ _; right; discriminate.
  - apply store_step_on_id; auto using loose_refl with engine.
    intros i _ _; right.
    destruct (verdict_status o i) as [E|E]; rewrite E; discriminate.
Qed.

(** ** Single-flight use *)

Lemma count_fresh x s :
  fresh x s -> length (filter (fun c => call_id c = x) (calls s)) = 0.
Proof.
  unfold fresh. induction (calls s) as [|c cs IH]; [reflexivity|].
  intros Hx. rewrite count_cons. rewrite decide_False.
  - apply IH. intros Hin. apply Hx. rewrite fmap_cons. right. exact Hin.
  - intros E. apply Hx. rewrite fmap_cons, E. left.
Qed.

(** A turn that leaves the calls and the head of the jobs alone and adds no
    item keeps the store tidy. *)
Lemma tidy_frame s s' :
  (forall i, i ∈ batch s' -> i ∈ batch s) ->
  (forall x, inflight x s' = inflight x s) ->
  tidy s -> tidy s'.
Proof.
  intros Hsub Hin [Ho Hx]. split.
  - intros i Hi. rewrite Hin. apply Ho, Hsub, Hi.
  - intros i Hi. apply Hx, Hsub, Hi.
Qed.

Lemma exclusive_new x p : exclusive (new_item x p).
Proof.
  split; cbn; split; try discriminate; intros [? ?]; discriminate.
Qed.

Lemma tidy_intake s new :
  idle s -> tidy s ->
  (forall i, i ∈ new -> fresh (id i) s /\ status i = Status.pending /\ exclusive i) ->
  tidy (setBatch (fun prev => new ++ prev) s).
Proof.
  intros Hi [Ho Hx] Hnew. unfold idle in Hi. split.
  - intros i Hin. unfold inflight. sfields. rewrite Hi. cbn [head_lookup].
    apply elem_of_app in Hin as [Hin|Hin].
    + destruct (Hnew i Hin) as (Hf & _ & _). rewrite (count_fresh _ _ Hf).
      split; [lia | discriminate].
    + specialize (Ho i Hin). unfold inflight in Ho. rewrite Hi in Ho. exact Ho.
  - intros i Hin. sfields. apply elem_of_app in Hin as [Hin|Hin].
    + apply (Hnew i Hin).
    + apply Hx, Hin.
Qed.

Lemma exclusive_processing i :
  exclusive i -> status i = Status.processing -> result i = None /\ error i = None.
Proof.
  intros [[Hr _] [He _]] Hs. split.
  - destruct (result i) eqn:E; [|reflexivity].
    assert (H : is_Some (Some a)) by eauto. apply Hr in H. congruence.
  - destruct (error i) eqn:E; [|reflexivity].
    assert (H : is_Some (Some s)) by eauto. apply He in H. congruence.
Qed.

Lemma exclusive_eligible i : exclusive i -> eligible i -> result i = None.
Proof.
  intros [[Hr _] _] Hs. destruct (result i) eqn:E; [|reflexivity].
  assert (H : is_Some (Some a)) by eauto. apply Hr in H.
  destruct Hs; congruence.
Qed.

Lemma exclusive_mark_processing i : result i = None -> exclusive (mark_processing i).
Proof.
  intros Hr. split; cbn; rewrite ?Hr; split; try discriminate;
    intros [? ?]; discriminate.
Qed.

Lemma exclusive_mark_error m i : result i = None -> exclusive (mark_error m i).
Proof.
  intros Hr. split; cbn; rewrite ?Hr; split; try discriminate; eauto;
    intros [? ?]; discriminate.
Qed.

Lemma exclusive_mark_completed r i : error i = None -> exclusive (mark_completed r i).
Proof.
  intros Hr. split; cbn; rewrite ?Hr; split; try discriminate; eauto;
    intros [? ?]; discriminate.
Qed.

Lemma exclusive_verdict o i :
  result i = None -> error i = None -> exclusive (verdict o i).
Proof.
  intros Hr He. unfold verdict. destruct o as [m|text [a|]];
    try destruct (falsy text);
    auto using exclusive_mark_error, exclusive_mark_completed.
Qed.

Lemma strict_verdict o i :
  status i = Status.processing -> strict (status i) (status (verdict o i)).
Proof.
  intros ->. right. unfold verdict. destruct o as [m|text [a|]];
    try destruct (falsy text); cbn; constructor.
Qed.

(** The analysis entered on [x] finds the items named [x] pending or error
    and no other analysis of [x] in flight. *)
Lemma tidy_enter s o x js :
  tidy s -> startable x s -> (forall y, head_lookup y (jobs s) = 0) ->
  tidy (setJobs (fun _ => JLookup o x :: js)
          (setBatch (on_id x mark_processing) (record o x s))) /\
  store_step strict (batch s) (on_id x mark_processing (batch s)).
Proof.
  intros [Ho Hx] Hst0 Hhead.
  pose proof (proj1 (Forall_forall _ _) Hst0) as Hst. split; [split|].
  - intros i' Hin. sfields. apply elem_of_on_id in Hin as (i & Hin & ->).
    unfold inflight. sfields. cbn [head_lookup].
    specialize (Ho i Hin). unfold inflight in Ho. rewrite Hhead in Ho.
    assert (Eid : id (if decide (id i = x) then mark_processing i else i) = id i)
      by (case_decide; reflexivity).
    rewrite Eid. clear Eid.
    destruct (decide (id i = x)) as [Hid|Hid].
    + cbn [status mark_processing]. rewrite Hid, decide_True by reflexivity.
      rewrite Hid in Ho. destruct Ho as [Hle H1].
      assert (length (filter (fun c => call_id c = x) (calls s)) = 0).
      { destruct (length (filter (fun c => call_id c = x) (calls s))) as [|[|n]];
          [reflexivity | | lia].
        specialize (H1 ltac:(lia)). destruct (Hst i Hin Hid); congruence. }
      split; [lia | reflexivity].
    + rewrite decide_False by congruence. exact Ho.
  - intros i' Hin. sfields. apply elem_of_on_id in Hin as (i & Hin & ->).
    case_decide as Hid; [|apply Hx, Hin].
    apply exclusive_mark_processing, exclusive_eligible; [apply Hx, Hin|].
    exact (Hst i Hin Hid).
  - apply store_step_on_id; auto using strict_refl with engine.
    intros i Hin Hid. right. destruct (Hst i Hin Hid) as [E|E]; rewrite E; constructor.
Qed.

Lemma jobs_resume_head o s y :
  jobs s = [] \/ (exists j js, jobs s = j :: js /\ is_worker_job j) ->
  head_lookup y (jobs (resume o s)) = 0.
Proof.
  intros [E|(j & js & E & Hj)]; destruct o as [|r]; unfold resume; sfields; rewrite E.
  - reflexivity.
  - reflexivity.
  - destruct j; try contradiction; reflexivity.
  - destruct j; try contradiction; reflexivity.
Qed.

Lemma headed_rest s j js :
  headed s -> jobs s = j :: js ->
  js = [] \/ (exists j' js', js = j' :: js' /\ is_worker_job j').
Proof.
  unfold headed. intros Hh E. rewrite E in Hh. cbn [tail] in Hh.
  destruct js as [|j' js']; [left; reflexivity|]. right.
  apply Forall_cons in Hh as [Hj _]. eauto.
Qed.

(** An update of the items named [x] that takes the one analysis of [x] out
    of flight. *)
Lemma tidy_land s s' x f :
  tidy s ->
  batch s' = on_id x f (batch s) -> keeps_id f ->
  (forall y, inflight y s' + (if decide (x = y) then 1 else 0) = inflight y s) ->
  (forall i, result i = None -> error i = None -> exclusive (f i)) ->
  (forall i, status i = Status.processing -> strict (status i) (status (f i))) ->
  tidy s' /\ store_step strict (batch s) (batch s').
Proof.
  intros [Ho Hx] Eb Hf Hfl Hex Hstr.
  assert (Hproc : forall i, i ∈ batch s -> id i = x -> status i = Status.processing).
  { intros i Hin Hid. destruct (Ho i Hin) as [Hle H1]. apply H1.
    specialize (Hfl (id i)). rewrite decide_True in Hfl by congruence. lia. }
  split; [split|].
  - intros i' Hin. rewrite Eb in Hin. apply elem_of_on_id in Hin as (i & Hin & ->).
    assert (Eid : id (if decide (id i = x) then f i else i) = id i)
      by (case_decide; [apply Hf | reflexivity]).
    rewrite Eid. clear Eid. specialize (Hfl (id i)). specialize (Ho i Hin).
    destruct (decide (id i = x)) as [Hid|Hid].
    + rewrite decide_True in Hfl by congruence. split; lia.
    + rewrite decide_False in Hfl by congruence.
      replace (inflight (id i) s') with (inflight (id i) s) by lia. exact Ho.
  - intros i' Hin. rewrite Eb in Hin. apply elem_of_on_id in Hin as (i & Hin & ->).
    case_decide as Hid; [|apply Hx, Hin].
    destruct (exclusive_processing i (Hx i Hin) (Hproc i Hin Hid)) as [Hr He].
    exact (Hex i Hr He).
  - rewrite Eb. apply store_step_on_id; [exact strict_refl | exact Hf |].
    intros i Hin Hid. exact (Hstr i (Hproc i Hin Hid)).
Qed.

Lemma tidy_transition s e s' :
  headed s -> tidy s -> disciplined e s -> transition s e s' ->
  tidy s' /\ store_step strict (batch s) (batch s').
Proof.
  intros Hh Ht Hd T. unfold disciplined in Hd.
  inversion T; subst; clear T.
  - (* t_add *)
    unfold idle in H. rewrite H in Hd. split.
    + apply (tidy_frame
               (setBatch (fun prev => (item_of <$> accepted files) ++ prev)
                  (setStore (stored (accepted files)) (setIsPreparing true s))));
        [auto | reflexivity |].
      apply tidy_intake; [exact H | apply (tidy_frame s); auto |].
      intros i Hin. apply list_elem_of_fmap in Hin as (u & -> & Hu).
      split; [exact (proj1 (Forall_forall _ _) Hd u Hu) | split; [reflexivity | apply exclusive_new]].
    + apply (ss_intake _ _ _ (item_of <$> accepted files)); [|reflexivity].
      apply Forall_fmap, Forall_forall. intros u _. reflexivity.
  - (* t_add_stuck *)
    split; [apply (tidy_frame s); auto | apply store_step_same, strict_refl].
  - (* t_capture *)
    unfold idle in H. rewrite H in Hd. split.
    + apply (tidy_intake (setStore (insert x dataUrl) s) [new_item x dataUrl]);
        [exact H | apply (tidy_frame s); auto |].
      intros i Hin. apply list_elem_of_singleton in Hin. subst i.
      split; [exact Hd | split; [reflexivity | apply exclusive_new]].
    + apply (ss_intake _ _ _ [new_item x dataUrl]); [|reflexivity].
      repeat constructor.
  - (* t_remove *)
    split.
    + apply (tidy_frame s); [|reflexivity|exact Ht].
      intros i Hin. sfields. apply list_elem_of_filter in Hin as [_ Hin]. exact Hin.
    + apply ss_removal. apply sublist_filter.
  - (* t_clear *)
    split.
    + apply (tidy_frame s); [|reflexivity|exact Ht].
      intros i Hin. inversion Hin.
    + apply ss_removal. apply sublist_nil_l.
  - (* t_enter *)
    apply tidy_enter; [exact Ht | |].
    + destruct H as [(Hi & _ & _ & ->)|[Hj ->]].
      * unfold idle in Hi. rewrite Hi in Hd. exact Hd.
      * rewrite Hj in Hd. apply Hd. reflexivity.
    + intros y. destruct H as [(Hi & _)|[Hj _]].
      * unfold idle in Hi. rewrite Hi. reflexivity.
      * rewrite Hj. reflexivity.
  - (* t_lost *)
    apply (tidy_land s _ x (mark_error "Image data lost")); auto with engine.
    + apply batch_resume.
    + intros y. unfold inflight. rewrite calls_resume. sfields.
      rewrite jobs_resume_head by (sfields; exact (headed_rest s _ _ Hh H)).
      rewrite H. cbn [head_lookup]. lia.
    + intros i Hr _. apply exclusive_mark_error, Hr.
    + intros i ->. right. constructor.
  - (* t_call *)
    split; [|apply store_step_same, strict_refl].
    apply (tidy_frame s); [auto | | exact Ht].
    intros y. unfold inflight. sfields. rewrite H, count_app, count_cons, count_nil.
    cbn [call_id head_lookup].
    destruct (headed_rest s _ _ Hh H) as [->|(j' & js' & -> & Hj)].
    * cbn [head_lookup]. lia.
    * destruct j'; try contradiction. cbn [head_lookup]. lia.
  - (* t_settle *)
    apply (tidy_land s _ (call_id c) (verdict o)); auto with engine.
    + apply batch_resume.
    + intros y. unfold inflight. rewrite calls_resume. sfields.
      rewrite jobs_resume_head by (sfields; left; exact H).
      unfold idle in H. rewrite H. cbn [head_lookup].
      rewrite (count_delete (fun c0 => call_id c0 = y) (calls s) n c H0).
      repeat case_decide; try congruence; lia.
    + intros i. apply exclusive_verdict.
    + intros i. apply strict_verdict.
  - (* t_launch *)
    split; [|apply store_step_same, strict_refl].
    apply (tidy_frame s); [auto | | exact Ht].
    intros y. unfold inflight. sfields. unfold idle in H. rewrite H, app_nil_r.
    destruct (CONCURRENCY_LIMIT `min` length (filter eligible (batch s)));
      reflexivity.
  - (* t_shift *)
    split; [|apply store_step_same, strict_refl].
    apply (tidy_frame s); [auto | | exact Ht].
    intros y. unfold inflight. sfields. rewrite H. reflexivity.
  - (* t_exit *)
    split; [|apply store_step_same, strict_refl].
    apply (tidy_frame s); [auto | | exact Ht].
    intros y. unfold inflight. sfields. rewrite H. cbn [head_lookup].
    destruct (headed_rest s _ _ Hh H) as [->|(j' & js' & -> & Hj)]; [reflexivity|].
    destruct j'; try contradiction. reflexivity.
  - (* t_orphan *)
    split; [|apply store_step_same, strict_refl].
    apply (tidy_frame s); [auto | | exact Ht].
    intros y. unfold inflight. sfields. rewrite H. cbn [head_lookup].
    destruct (headed_rest s _ _ Hh H) as [->|(j' & js' & -> & Hj)]; [reflexivity|].
    destruct j'; try contradiction. reflexivity.
  - (* t_toggle *)
    split; [apply (tidy_frame s); auto | apply store_step_same, strict_refl].
  - (* t_select *)
    split; [apply (tidy_frame s); auto | apply store_step_same, strict_refl].
Qed.

Lemma tidy_initial : tidy initial.
Proof. split; intros i Hin; inversion Hin. Qed.

Lemma tidy_run es : forall s,
  sound s -> tidy s -> disciplined_run es s -> tidy (run es s).
Proof.
  induction es as [|e es IH]; intros s Hs Ht Hd; [exact Ht|].
  destruct Hd as [Hd Hrest]. change (run (e :: es) s) with (run es (step e s)).
  destruct (step_transition e s) as [E|T].
  - rewrite E in *. apply IH; assumption.
  - apply IH; [exact (sound_transition _ _ _ Hs T) | | exact Hrest].
    apply (tidy_transition s e); [apply Hs | exact Ht | exact Hd | exact T].
Qed.

Lemma disciplined_run_app es es' : forall s,
  disciplined_run (es ++ es') s <->
  disciplined_run es s /\ disciplined_run es' (run es s).
Proof.
  induction es as [|e es IH]; intros s; cbn [app disciplined_run].
  - change (run [] s) with s. tauto.
  - change (run (e :: es) s) with (run es (step e s)). rewrite IH. tauto.
Qed.

(** C2, as stated, fails: [analyzeSingle] invoked on the identifier of a
    completed item puts the item back to processing. *)
Lemma completed_goes_processing :
  status <$> batch completed_item = [Status.completed] /\
  status <$> batch (step (AnalyzeSingle "c") completed_item) = [Status.processing].
Proof. split; vm_compute; reflexivity. Qed.

(** C2, amended: a turn of the engine puts new pending items in front of the
    store, takes items out, or moves statuses; a status is never moved back
    to pending, but to processing, completed or error from whatever it was.
    In single-flight use the only moves are pending to processing, error to
    processing, processing to completed and processing to error. *)
Theorem status_machine es e :
  store_step loose (batch (run es initial)) (batch (step e (run es initial))) /\
  (disciplined_run (es ++ [e]) initial ->
   store_step strict (batch (run es initial)) (batch (step e (run es initial)))).
Proof.
  split.
  - destruct (step_transition e (run es initial)) as [->|T].
    + apply store_step_same, loose_refl.
    + exact (loose_transition _ _ _ T).
  - intros Hd. apply disciplined_run_app in Hd as [Hd [He _]].
    destruct (step_transition e (run es initial)) as [->|T].
    + apply store_step_same, strict_refl.
    + apply (tidy_transition _ e); [apply sound_reachable | | exact He | exact T].
      apply tidy_run; [apply sound_initial | apply tidy_initial | exact Hd].
Qed.

Lemma status_machine_witness :
  store_step strict (batch (run [AddFiles three_files; ProcessAll; Microtask] initial))
    (batch (step Microtask (run [AddFiles three_files; ProcessAll; Microtask] initial))).
Proof.
  apply (proj2 (status_machine [AddFiles three_files; ProcessAll; Microtask] Microtask)).
  refine (bool_decide_unpack (disciplined_run _ _) _). vm_compute. exact I.
Defined.

(** C3, as stated, fails.  After [race], picture [f6] has status error with
    both a result and an error message; and [analyzeSingle] on a completed
    item leaves it processing with the result of the previous attempt. *)
Lemma race_breaks_exclusion :
  reachable (run race initial) /\
  (exists i, batch (run race initial) !! 5 = Some i /\
             id i = "f6" /\ status i = Status.error /\
             is_Some (result i) /\ is_Some (error i) /\ ¬ exclusive i) /\
  (exists i, batch (run [AnalyzeSingle "c"; Microtask] completed_item) !! 0 = Some i /\
             status i = Status.processing /\ is_Some (result i)).
Proof.
  split; [exists race; reflexivity|]. split.
  - eexists. split; [vm_compute; reflexivity|].
    cbn [id status result error]. repeat split; eauto.
    intros [[H _] _]. cbn [result status] in H.
    assert (Hc : Status.error = Status.completed) by (apply H; eauto). discriminate.
  - eexists. split; [vm_compute; reflexivity|].
    cbn [status result]. split; eauto.
Qed.

(** C3, amended: in single-flight use every item has a result exactly when
    it is completed and an error message exactly when its status is error;
    a processing item has neither. *)
Theorem result_error_exclusive es i :
  disciplined_run es initial -> i ∈ batch (run es initial) ->
  exclusive i /\
  ¬ (is_Some (result i) /\ is_Some (error i)) /\
  (status i = Status.processing -> result i = None /\ error i = None).
Proof.
  intros Hd Hin.
  destruct (tidy_run es initial sound_initial tidy_initial Hd) as [_ Hx].
  specialize (Hx i Hin). split; [exact Hx|]. split.
  - intros [Hr He]. destruct Hx as [[H1 _] [H2 _]].
    specialize (H1 Hr). specialize (H2 He). congruence.
  - apply exclusive_processing, Hx.
Qed.

Lemma result_error_exclusive_witness :
  exists i, batch (run quiet_run initial) !! 1 = Some i /\
            status i = Status.error /\ exclusive i.
Proof.
  eexists. split; [vm_compute; reflexivity|]. split; [reflexivity|].
  refine (proj1 (result_error_exclusive quiet_run _ _ _)).
  - refine (bool_decide_unpack (disciplined_run _ _) _). vm_compute. exact I.
  - apply (list_elem_of_lookup_2 _ 1). vm_compute. reflexivity.
Defined.

(** ** Instances on the sample executions *)

Lemma analyzeSingle_unknown_id_witness :
  batch (run [AnalyzeSingle "ghost"; Microtask] two_pending) = batch two_pending /\
  calls (run [AnalyzeSingle "ghost"; Microtask] two_pending) = calls two_pending.
Proof.
  assert (Hi : idle two_pending) by reflexivity.
  assert (Hb : forall i, i ∈ batch two_pending -> id i ≠ "ghost").
  { apply Forall_forall. vm_compute. repeat constructor; discriminate. }
  assert (Hs : base64Store two_pending !! "ghost" = None) by (vm_compute; reflexivity).
  destruct (analyzeSingle_unknown_id "ghost" two_pending Hi Hb Hs)
    as (_ & _ & H1 & _ & _ & H2 & _).
  split; [exact H1 | exact H2].
Defined.

Lemma processAll_concurrency_witness :
  jobs (step ProcessAll two_pending) =
    replicate (min CONCURRENCY_LIMIT (length (filter eligible (batch two_pending))))
      (JWorker (length (runs two_pending))) /\
  length (calls_of (length (runs two_pending))
            (run (replicate 6 Microtask) (step ProcessAll two_pending))) <=
    min CONCURRENCY_LIMIT (length (filter eligible (batch two_pending))) /\
  length (calls_of 0 (run (ProcessAll :: replicate 6 Microtask) two_pending)) <= 5.
Proof.
  assert (Hr : reachable two_pending) by (exists [AddFiles three_files]; reflexivity).
  assert (Hi : idle two_pending) by reflexivity.
  assert (Hl : launches two_pending) by (split; [vm_compute; discriminate | reflexivity]).
  destruct (processAll_concurrency two_pending (replicate 6 Microtask) 0 Hr)
    as (_ & H1 & H2 & _).
  destruct (processAll_concurrency two_pending (ProcessAll :: replicate 6 Microtask) 0 Hr)
    as (_ & _ & _ & H3).
  split; [exact (H1 Hi (proj2 Hl))|]. split; [exact (proj2 (H2 Hi Hl)) | exact H3].
Defined.

Lemma processAll_snapshot_witness :
  step ProcessAll initial = initial /\
  started (length (runs two_pending)) (run mixed_schedule (step ProcessAll two_pending)) =
  id <$> filter eligible (batch two_pending).
Proof.
  assert (Hr0 : reachable initial) by (exists []; reflexivity).
  assert (Hr : reachable two_pending) by (exists [AddFiles three_files]; reflexivity).
  assert (Hi : idle two_pending) by reflexivity.
  assert (Hl : launches two_pending) by (split; [vm_compute; discriminate | reflexivity]).
  split.
  - apply (proj1 (processAll_snapshot initial [] Hr0)). left. reflexivity.
  - apply (proj1 (proj2 (proj2 (proj2 (proj2 (processAll_snapshot two_pending mixed_schedule Hr))
                                  Hi Hl)))).
    split; vm_compute; reflexivity.
Defined.

Lemma batch_run_partial_failure_witness :
  length mixed_schedule <= 5 * length (filter eligible (batch two_pending)) /\
  isProcessingAll (run mixed_schedule (step ProcessAll two_pending)) = false /\
  forall i, i ∈ batch (run mixed_schedule (step ProcessAll two_pending)) ->
            id i ∈ id <$> filter eligible (batch two_pending) -> terminal i.
Proof.
  assert (Hr : reachable two_pending) by (exists [AddFiles three_files]; reflexivity).
  assert (Hq : quiescent two_pending) by (split; reflexivity).
  assert (Hl : launches two_pending) by (split; [vm_compute; discriminate | reflexivity]).
  assert (He : Forall internal mixed_schedule) by (repeat constructor).
  destruct (batch_run_partial_failure two_pending mixed_schedule Hr Hq Hl He)
    as (_ & _ & _ & _ & Hbound & _ & H).
  assert (Hb : busy mixed_schedule (step ProcessAll two_pending)).
  { unfold mixed_schedule. cbn [busy].
    repeat split; try exact I;
      intros E; apply (f_equal backlog) in E; vm_compute in E; discriminate. }
  assert (Hq2 : quiescent (run mixed_schedule (step ProcessAll two_pending)))
    by (split; vm_compute; reflexivity).
  destruct (H Hq2) as (H1 & _ & H2).
  split; [exact (Hbound Hb) | split; [exact H1 | exact H2]].
Defined.

(** ** Keyword views *)

Lemma sort_insert_perm {A} (compare : A -> A -> Z) a l :
  sort_insert compare a l ≡ₚ a :: l.
Proof.
  induction l as [|b l IH]; cbn [sort_insert]; [done|].
  destruct (compare a b <=? 0)%Z; [done|].
  rewrite IH. apply Permutation_swap.
Qed.

Lemma array_sort_perm {A} (compare : A -> A -> Z) l : array_sort compare l ≡ₚ l.
Proof.
  induction l as [|a l IH]; [done|].
  cbn [array_sort foldr]. rewrite sort_insert_perm. by f_equiv.
Qed.

Lemma filter_all {A} (P : A -> Prop) `{!forall x, Decision (P x)} (l : list A) :
  (forall x, x ∈ l -> P x) -> filter P l = l.
Proof.
  induction l as [|a l IH]; intros Hall; [done|].
  rewrite filter_cons, decide_True by (apply Hall; left).
  f_equal. apply IH. intros x Hx. apply Hall. by right.
Qed.

Lemma filter_ext_in {A} (P Q : A -> Prop) `{!forall x, Decision (P x)}
    `{!forall x, Decision (Q x)} (l : list A) :
  (forall x, x ∈ l -> P x <-> Q x) -> filter P l = filter Q l.
Proof.
  induction l as [|a l IH]; intros Hall; [done|].
  rewrite !filter_cons.
  assert (filter P l = filter Q l) as -> by (apply IH; intros x Hx; apply Hall; by right).
  pose proof (Hall a (list_elem_of_here _ _)) as Ha.
  destruct (decide (P a)), (decide (Q a)); tauto.
Qed.

(** The keywords a view works on, before they are sorted. *)
Lemma view_unsorted platform (ks : list KeywordMetadata) :
  (if decide (platform = "All") then ks
   else filter (fun k => platform ∈ platforms k) ks) =
  filter (on_platform platform) ks.
Proof.
  destruct (decide (platform = "All")) as [e|n].
  - symmetry. apply filter_all. intros k _. by left.
  - apply filter_ext_in. intros k _. unfold on_platform. tauto.
Qed.

(** X1: in either sort mode the view shows the keywords of the item's result
    that the platform tab lets through, each as often as the result has it
    and nothing else; an item without a result has an empty view. *)
Theorem filteredKeywords_shows localeCompare item platform sortBy :
  filteredKeywords localeCompare item platform sortBy ≡ₚ
  filter (on_platform platform) (from_option keywords [] (result item)).
Proof.
  unfold filteredKeywords. destruct (result item) as [r|]; [|done].
  cbn [from_option]. rewrite view_unsorted.
  destruct sortBy; apply array_sort_perm.
Qed.

Lemma sort_insert_sorted (a : KeywordMetadata) l :
  StronglySorted (fun a b => (relevance b <= relevance a)%Z) l ->
  StronglySorted (fun a b => (relevance b <= relevance a)%Z)
    (sort_insert (fun a b => (relevance b - relevance a)%Z) a l).
Proof.
  induction 1 as [|b l Hl IH Hb]; cbn [sort_insert].
  - repeat constructor.
  - destruct (Z.leb_spec (relevance b - relevance a) 0) as [Hle|Hgt].
    + constructor; [by constructor|].
      constructor; [lia|].
      eapply Forall_impl; [exact Hb|]. cbn. intros; lia.
    + constructor; [exact IH|].
      rewrite sort_insert_perm. constructor; [lia|exact Hb].
Qed.

Lemma sort_insert_stable (a : KeywordMetadata) l v :
  filter (fun k => relevance k = v)
    (sort_insert (fun a b => (relevance b - relevance a)%Z) a l) =
  filter (fun k => relevance k = v) (a :: l).
Proof.
  induction l as [|b l IH]; cbn [sort_insert]; [done|].
  destruct (Z.leb_spec (relevance b - relevance a) 0) as [Hle|Hgt]; [done|].
  rewrite filter_cons, IH, !filter_cons.
  destruct (decide (relevance b = v)), (decide (relevance a = v)); try done; lia.
Qed.

(** X2: sorted by relevance, the view lists the keywords by non-increasing
    relevance, and keywords of equal relevance keep the order the result has
    them in. *)
Theorem filteredKeywords_by_relevance localeCompare item platform :
  StronglySorted (fun a b => (relevance b <= relevance a)%Z)
    (filteredKeywords localeCompare item platform by_relevance) /\
  forall v,
    filter (fun k => relevance k = v)
      (filteredKeywords localeCompare item platform by_relevance) =
    filter (fun k => relevance k = v)
      (filter (on_platform platform) (from_option keywords [] (result item))).
Proof.
  unfold filteredKeywords. destruct (result item) as [r|]; cbn [from_option].
  2: { split; [constructor|done]. }
  rewrite view_unsorted.
  generalize (filter (on_platform platform) (keywords r)). intros l. split.
  - induction l as [|a l IH]; [constructor|].
    cbn [array_sort foldr]. by apply sort_insert_sorted.
  - intros v. induction l as [|a l IH]; [done|].
    cbn [array_sort foldr]. rewrite sort_insert_stable, !filter_cons.
    fold (array_sort (fun a b => (relevance b - relevance a)%Z) l). by rewrite IH.
Qed.

(** ** Clipboard operations *)

Lemma from_set_acc (l : list string) : forall acc,
  NoDup acc ->
  NoDup (foldl (fun acc x => if decide (x ∈ acc) then acc else acc ++ [x]) acc l) /\
  (forall x, x ∈ foldl (fun acc x => if decide (x ∈ acc) then acc else acc ++ [x]) acc l
             <-> x ∈ acc \/ x ∈ l) /\
  exists k, foldl (fun acc x => if decide (x ∈ acc) then acc else acc ++ [x]) acc l
            = acc ++ k /\ k `sublist_of` l.
Proof.
  induction l as [|a l IH]; intros acc Hacc; cbn [foldl].
  - split; [done|]. split; [intros x; rewrite elem_of_nil; tauto|].
    exists []. by rewrite app_nil_r.
  - destruct (decide (a ∈ acc)) as [Hin|Hout].
    + destruct (IH acc Hacc) as (Hn & Hm & k & Hk & Hs).
      split; [done|]. split.
      * intros x. rewrite Hm, elem_of_cons. split; [tauto|].
        intros [?|[->|?]]; tauto.
      * exists k. split; [done|]. by apply sublist_cons.
    + assert (NoDup (acc ++ [a])) as Hacc'.
      { apply NoDup_app. split; [done|]. split; [|apply NoDup_singleton].
        intros x Hx Hx'. apply list_elem_of_singleton in Hx'. by subst. }
      destruct (IH _ Hacc') as (Hn & Hm & k & Hk & Hs).
      split; [done|]. split.
      * intros x. rewrite Hm, elem_of_app, list_elem_of_singleton, elem_of_cons. tauto.
      * exists (a :: k). split; [by rewrite Hk, <- app_assoc|]. by apply sublist_skip.
Qed.

Lemma elem_of_completed_words w s :
  w ∈ completed_words s <->
  exists i r k, i ∈ batch s /\ status i = Status.completed /\
                result i = Some r /\ k ∈ keywords r /\ word k = w.
Proof.
  unfold completed_words. rewrite list_elem_of_bind. split.
  - intros (i & Hw & Hi). apply list_elem_of_filter in Hi as [[Hst [r Hr]] Hi].
    rewrite Hr in Hw. apply list_elem_of_fmap in Hw as (k & -> & Hk).
    by exists i, r, k.
  - intros (i & r & k & Hi & Hst & Hr & Hk & <-). exists i. split.
    + rewrite Hr. apply list_elem_of_fmap. by exists k.
    + apply list_elem_of_filter. split; [|done]. split; [done|]. by exists r.
Qed.

Lemma from_set_snoc (l : list string) x :
  from_set (l ++ [x]) = if decide (x ∈ from_set l) then from_set l else from_set l ++ [x].
Proof. unfold from_set. by rewrite foldl_app. Qed.

Lemma elem_of_from_set (l : list string) w : w ∈ from_set l <-> w ∈ l.
Proof.
  destruct (from_set_acc l [] (NoDup_nil_2)) as (_ & Hm & _).
  change (foldl _ [] l) with (from_set l) in Hm. rewrite Hm, elem_of_nil. tauto.
Qed.

(** In [from_set l] a value comes before another one only if its first
    occurrence in [l] comes before every occurrence of the other. *)
Lemma from_set_order (l : list string) : forall r1 w1 r2 w2,
  from_set l = r1 ++ w1 :: r2 -> w2 ∈ r2 ->
  exists l1 l2, l = l1 ++ w1 :: l2 /\ (w1 ∉ l1) /\ (w2 ∉ l1).
Proof.
  induction l as [|x l IH] using rev_ind; intros r1 w1 r2 w2 Hr Hw2.
  - by destruct r1.
  - rewrite from_set_snoc in Hr. destruct (decide (x ∈ from_set l)) as [Hin|Hout].
    + destruct (IH _ _ _ _ Hr Hw2) as (l1 & l2 & -> & H1 & H2).
      exists l1, (l2 ++ [x]). by rewrite <- app_assoc.
    + destruct r2 as [|y r2 _] using rev_ind; [by apply elem_of_nil in Hw2|].
      change (r1 ++ w1 :: r2 ++ [y]) with (r1 ++ (w1 :: r2) ++ [y]) in Hr.
      rewrite app_assoc in Hr. apply app_inj_tail in Hr as [Hr <-].
      apply elem_of_app in Hw2 as [Hw2|Hw2].
      * destruct (IH _ _ _ _ Hr Hw2) as (l1 & l2 & -> & H1 & H2).
        exists l1, (l2 ++ [x]). by rewrite <- app_assoc.
      * apply list_elem_of_singleton in Hw2 as ->.
        assert (w1 ∈ l) as Hw1 by (apply elem_of_from_set; rewrite Hr; apply elem_of_app; right; left).
        apply list_elem_of_split_l in Hw1 as (l1 & l2 & -> & H1).
        exists l1, (l2 ++ [x]). split; [by rewrite <- app_assoc|]. split; [exact H1|].
        intros Hx. apply Hout, elem_of_from_set, elem_of_app. by left.
Qed.

(** X3: the combined copy collects every keyword of every completed item,
    each word once, in the order of first appearance over the store: a word
    comes before another one only if its first appearance comes before every
    appearance of the other; it writes nothing exactly when no completed item
    has a keyword. *)
Theorem handleCopyCombinedKeywords_words s :
  NoDup (allKws s) /\
  allKws s `sublist_of` completed_words s /\
  (forall r1 w1 r2 w2, allKws s = r1 ++ w1 :: r2 -> w2 ∈ r2 ->
     exists l1 l2, completed_words s = l1 ++ w1 :: l2 /\ (w1 ∉ l1) /\ (w2 ∉ l1)) /\
  (forall w, w ∈ allKws s <->
     exists i r k, i ∈ batch s /\ status i = Status.completed /\
                   result i = Some r /\ k ∈ keywords r /\ word k = w) /\
  (handleCopyCombinedKeywords s = None <-> completed_words s = []) /\
  (handleCopyCombinedKeywords s <> None <->
   handleCopyCombinedKeywords s = Some (array_join (allKws s))).
Proof.
  destruct (from_set_acc (completed_words s) [] (NoDup_nil_2)) as (Hn & Hm & k & Hk & Hs).
  change (foldl _ [] (completed_words s)) with (allKws s) in *.
  cbn [app] in Hk. subst k.
  split; [done|]. split; [done|]. split.
  { intros r1 w1 r2 w2. apply from_set_order. }
  split.
  { intros w. rewrite Hm, elem_of_nil, <- elem_of_completed_words. tauto. }
  unfold handleCopyCombinedKeywords.
  destruct (decide (length (allKws s) = 0)) as [e|n].
  - split; [|split; [done|done]]. split; [intros _|done].
    apply length_zero_iff_nil in e.
    destruct (completed_words s) as [|w l] eqn:E; [done|].
    assert (w ∈ allKws s) as Hw by (apply Hm; right; left).
    rewrite e in Hw. by apply elem_of_nil in Hw.
  - split; [|split; [done|done]]. split; [done|]. intros E. exfalso. apply n.
    rewrite E in Hs. apply sublist_nil_r in Hs. by rewrite Hs.
Qed.

(** X4: copying the selection writes nothing exactly when the item has no
    word selected, an entry that was emptied counting as none; after
    "Select Page" on a view it writes what "Copy" of that view writes, unless
    the view is empty. *)
Theorem handleCopySelectedKeywords_after_select x kws s :
  (handleCopySelectedKeywords x s = None <-> selectedKeywords x s = []) /\
  handleCopySelectedKeywords x (exec (handleSelectAllInItem x kws) s) =
    (if decide (kws = []) then None else handleCopyAllKeywords kws).
Proof.
  split.
  - unfold handleCopySelectedKeywords, selectedKeywords.
    destruct (decide _) as [e|n].
    + apply length_zero_iff_nil in e. tauto.
    + split; [done|]. intros E. rewrite E in n. done.
  - unfold handleCopySelectedKeywords, handleSelectAllInItem, handleCopyAllKeywords,
      exec, modify. sfields. rewrite lookup_insert_eq. cbn [from_option Datatypes.id default].
    destruct kws as [|k kws]; [done|]. done.
Qed.

(** X5: the copy button of a card does nothing without a result; with one it
    writes what copying the selection writes, and the result's keywords in
    the result's order, whatever the platform tab, when nothing is
    selected. *)
Theorem handleQuickCopy_agrees item s :
  handleQuickCopy item (selectedKeywords (id item) s) =
  (fun r => default (array_join (word <$> keywords r))
              (handleCopySelectedKeywords (id item) s)) <$> result item.
Proof.
  unfold handleQuickCopy, handleCopySelectedKeywords, selectedKeywords.
  destruct (result item) as [r|]; [|done]. cbn [fmap option_fmap option_map].
  f_equal.
  destruct (default [] (selectedKeywordsMap s !! id item)) as [|w l]; [done|].
  cbn [length]. rewrite decide_True by lia. done.
Qed.

(** ** Derived values *)

Lemma eligible_split (l : list BatchItem) :
  length (filter eligible l) =
  length (filter (fun i => status i = Status.pending) l) +
  length (filter (fun i => status i = Status.error) l).
Proof.
  induction l as [|i l IH]; [done|].
  rewrite !count_cons.
  repeat (destruct (decide _)); unfold eligible in *; destruct (status i);
    try lia; exfalso; intuition congruence.
Qed.

(** X6: the three counters of the header and the number of failed items add
    up to the size of the store, and a batch run queues as many items as are
    pending or failed. *)
Theorem counters_partition s :
  completedCount s + processingCount s + pendingCount s +
  length (filter (fun i => status i = Status.error) (batch s)) = length (batch s) /\
  length (filter eligible (batch s)) =
  pendingCount s + length (filter (fun i => status i = Status.error) (batch s)).
Proof.
  split; [|apply eligible_split].
  unfold completedCount, processingCount, pendingCount.
  induction (batch s) as [|i l IH]; [done|].
  rewrite !count_cons. cbn [length].
  repeat (destruct (decide _)); destruct (status i);
    try lia; exfalso; congruence.
Qed.

(** X7: the modal shows the first item of the store that has the selected
    identifier and no other; it has nothing to show exactly when no item has
    it, so removing the item or clearing the store closes it. *)
Theorem currentSelectedItem_spec x s :
  (currentSelectedItem (Some x) s = None <-> x ∉ id <$> batch s) /\
  (forall i, currentSelectedItem (Some x) s = Some i ->
     exists n, batch s !! n = Some i /\ id i = x /\
               forall m j, batch s !! m = Some j -> m < n -> id j ≠ x) /\
  currentSelectedItem (Some x) (exec (removeItem x) s) = None /\
  (forall sel, currentSelectedItem sel (exec (clearBatch true) s) = None).
Proof.
  assert (forall t, currentSelectedItem (Some x) t = None <-> x ∉ id <$> batch t) as Hnone.
  { intros t. unfold currentSelectedItem. rewrite fmap_None, list_find_None, Forall_forall.
    rewrite list_elem_of_fmap. split.
    - intros H (i & -> & Hi). by apply (H i).
    - intros H i Hi E. apply H. by exists i. }
  split; [apply Hnone|]. split; [|split].
  - intros i. unfold currentSelectedItem. intros E.
    apply fmap_Some in E as ([n j] & E & ->). apply list_find_Some in E as (E1 & E2 & E3).
    exists n. cbn [snd]. split; [done|]. split; [done|]. intros m k Hm Hlt. by apply (E3 m).
  - apply Hnone. apply removeItem_absent.
  - intros [y|]; [|done]. unfold currentSelectedItem, clearBatch, exec. done.
Qed.

Lemma currentSelectedItem_spec_witness :
  exists i n, batch one_item !! n = Some i /\ id i = "c".
Proof.
  destruct (proj1 (proj2 (currentSelectedItem_spec "c" one_item)) (new_item "c" "data:image/jpeg;base64,c"))
    as (n & E & Hid & _); [vm_compute; reflexivity|].
  by exists (new_item "c" "data:image/jpeg;base64,c"), n.
Defined.

(** ** Camera frames *)

Lemma all_from_spec n : forall z P,
  all_from n z P = true -> forall k, (z <= k < z + Z.of_nat n)%Z -> P k = true.
Proof.
  induction n as [|n IH]; intros z P H k Hk; [lia|].
  cbn [all_from] in H. apply andb_prop in H as [Hz Hn].
  destruct (decide (k = z)) as [->|Hne]; [done|].
  apply (IH (z + 1)%Z); [done|lia].
Qed.

Lemma capture_scale_small m :
  (0 <= m <= MAX_IMAGE_DIMENSION)%Z ->
  math_min (of_int 1) (PrimFloat.div (of_int MAX_IMAGE_DIMENSION) (of_int m)) = of_int 1.
Proof.
  intros Hm.
  assert (all_from 1025 0
            (fun m => let q := PrimFloat.div (of_int MAX_IMAGE_DIMENSION) (of_int m) in
                      negb (PrimFloat.is_nan (of_int 1)) && negb (PrimFloat.is_nan q)
                      && negb (PrimFloat.ltb q (of_int 1))) = true) as H
    by (vm_compute; reflexivity).
  pose proof (all_from_spec _ _ _ H m) as Hq. cbv beta zeta in Hq.
  unfold MAX_IMAGE_DIMENSION in *.
  destruct (andb_prop _ _ (Hq ltac:(lia))) as [H12 H3].
  destruct (andb_prop _ _ H12) as [H1 H2].
  unfold math_min.
  apply negb_true_iff in H1, H2, H3. by rewrite H1, H2, H3.
Qed.

Lemma capture_unit v :
  (0 <= v <= MAX_IMAGE_DIMENSION)%Z ->
  to_unsigned_long (trunc (PrimFloat.mul (of_int v) (of_int 1))) = v.
Proof.
  intros Hv.
  assert (all_from 1025 0
            (fun v => (to_unsigned_long (trunc (PrimFloat.mul (of_int v) (of_int 1))) =? v)%Z)
          = true) as H by (vm_compute; reflexivity).
  unfold MAX_IMAGE_DIMENSION in *.
  apply Z.eqb_eq. apply (all_from_spec _ _ _ H v). lia.
Qed.

(** X8: a camera frame that fits in 1024 by 1024 is stored at its own size,
    an empty frame included: the factor is exactly 1. *)
Theorem capture_dims_small w h :
  (0 <= w <= MAX_IMAGE_DIMENSION)%Z -> (0 <= h <= MAX_IMAGE_DIMENSION)%Z ->
  capture_dims w h = (w, h).
Proof.
  intros Hw Hh. unfold capture_dims, capture_scale.
  rewrite capture_scale_small by lia.
  by rewrite !capture_unit.
Qed.

Lemma capture_dims_small_witness : capture_dims 640 480 = (640, 480)%Z.
Proof. apply capture_dims_small; unfold MAX_IMAGE_DIMENSION; lia. Defined.

Lemma capture_long_side m :
  (MAX_IMAGE_DIMENSION < m <= 8192)%Z ->
  let out := to_unsigned_long
               (trunc (PrimFloat.mul (of_int m)
                         (math_min (of_int 1)
                            (PrimFloat.div (of_int MAX_IMAGE_DIMENSION) (of_int m))))) in
  out = 1024%Z \/ out = 1023%Z.
Proof.
  intros Hm.
  assert (all_from (Z.to_nat 7168) 1025
            (fun m =>
               let out := to_unsigned_long
                            (trunc (PrimFloat.mul (of_int m)
                                      (math_min (of_int 1)
                                         (PrimFloat.div (of_int MAX_IMAGE_DIMENSION)
                                            (of_int m))))) in
               (out =? 1024)%Z || (out =? 1023)%Z) = true) as H
    by (vm_compute; reflexivity).
  unfold MAX_IMAGE_DIMENSION in *.
  pose proof (all_from_spec _ _ _ H m ltac:(lia)) as Hq. cbv beta zeta in Hq.
  cbv zeta. apply orb_prop in Hq as [Hq|Hq]; apply Z.eqb_eq in Hq; tauto.
Qed.

(** X9: of a camera frame whose longer side is between 1025 and 8192 pixels,
    the longer side is stored as 1024 or, where the product falls just
    short of it, as 1023. *)
Theorem capture_dims_long_side w h :
  (MAX_IMAGE_DIMENSION < Z.max w h <= 8192)%Z ->
  ((h <= w)%Z -> fst (capture_dims w h) = 1024%Z \/ fst (capture_dims w h) = 1023%Z) /\
  ((w <= h)%Z -> snd (capture_dims w h) = 1024%Z \/ snd (capture_dims w h) = 1023%Z).
Proof.
  intros Hm. unfold capture_dims, capture_scale. cbn [fst snd]. split; intros Hle.
  - rewrite Z.max_l in * by lia. by apply capture_long_side.
  - rewrite Z.max_r in * by lia. by apply capture_long_side.
Qed.

Lemma capture_dims_long_side_witness :
  fst (capture_dims 1920 1080) = 1024%Z \/ fst (capture_dims 1920 1080) = 1023%Z.
Proof.
  apply (capture_dims_long_side 1920 1080); unfold MAX_IMAGE_DIMENSION; lia.
Defined.

(** ** The payload sent to the provider *)

Lemma split_comma_free s : comma_free s = true -> split_comma s = [s].
Proof.
  induction s as [|c s IH]; [done|]. cbn [comma_free split_comma].
  intros H. apply andb_prop in H as [Hc Hs]. apply negb_true_iff in Hc.
  by rewrite Hc, (IH Hs).
Qed.

Lemma split_comma_prefix p r :
  comma_free p = true -> split_comma (p +:+ "," +:+ r) = p :: split_comma r.
Proof.
  induction p as [|c p IH]; [done|]. cbn [comma_free]. intros H.
  apply andb_prop in H as [Hc Hp]. apply negb_true_iff in Hc.
  change (String c p +:+ "," +:+ r) with (String c (p +:+ "," +:+ r)).
  cbn [split_comma]. by rewrite Hc, (IH Hp).
Qed.

(** X10: of a data URL, the adapter sends what follows the comma, as it is
    when it holds no further comma; a string without a comma, and a data URL
    with nothing after the comma, are sent whole. *)
Theorem base64Data_payload prefix payload :
  comma_free prefix = true -> comma_free payload = true ->
  base64Data prefix = prefix /\
  base64Data (prefix +:+ "," +:+ payload) =
    (if decide (payload = "") then prefix +:+ "," else payload).
Proof.
  intros Hp Hb. unfold base64Data. split.
  - by rewrite split_comma_free.
  - rewrite split_comma_prefix, split_comma_free by done. cbn [lookup list_lookup].
    simpl. destruct (decide (payload = "")) as [->|n]; done.
Qed.

Lemma base64Data_payload_witness :
  base64Data "data:image/jpeg;base64,c" = "c".
Proof.
  apply (proj2 (base64Data_payload "data:image/jpeg;base64" "c" eq_refl eq_refl)).
Defined.

(** ** Further invariants of the reachable states *)

Lemma coherent_new x p : coherent (new_item x p).
Proof. split; reflexivity. Qed.

Lemma coherent_mark_processing i : coherent (mark_processing i).
Proof. reflexivity. Qed.

Lemma coherent_mark_error m i : coherent (mark_error m i).
Proof. unfold coherent. cbn. eauto. Qed.

Lemma coherent_verdict o i : coherent (verdict o i).
Proof.
  unfold verdict. destruct o as [m|text json]; [apply coherent_mark_error|].
  destruct (falsy text); [apply coherent_mark_error|].
  destruct json; [|apply coherent_mark_error]. unfold coherent. cbn. eauto.
Qed.

Lemma coherent_on_id x f l :
  (forall i, coherent (f i)) -> Forall coherent l -> Forall coherent (on_id x f l).
Proof.
  intros Hf Hl. apply Forall_forall. intros j Hj.
  apply elem_of_on_id in Hj as (i & Hi & ->).
  destruct (decide (id i = x)) as [_|_]; [apply Hf|].
  revert i Hi. by apply Forall_forall.
Qed.

Lemma coherent_transition s e s' :
  Forall coherent (batch s) -> transition s e s' -> Forall coherent (batch s').
Proof.
  intros Hc Ht. inversion Ht; subst; clear Ht; rewrite ?batch_resume; sfields;
    try exact Hc.
  - apply Forall_app. split; [|exact Hc].
    apply Forall_fmap, Forall_forall. intros u _. apply coherent_new.
  - constructor; [apply coherent_new|exact Hc].
  - apply Forall_forall. intros i Hi. apply list_elem_of_filter in Hi as [_ Hi].
    revert i Hi. by apply Forall_forall.
  - constructor.
  - apply coherent_on_id; [apply coherent_mark_processing|exact Hc].
  - apply coherent_on_id; [apply coherent_mark_error|exact Hc].
  - apply coherent_on_id; [apply coherent_verdict|exact Hc].
Qed.

(** X11: in every state the engine can reach, the fields of an item go with
    its status: a completed item has a result, a failed item has an error
    message, a pending item has neither and an item under analysis has no
    error message. *)
Theorem reachable_coherent s i :
  reachable s -> i ∈ batch s ->
  (status i = Status.completed -> is_Some (result i)) /\
  (status i = Status.error -> is_Some (error i)) /\
  (status i = Status.pending -> result i = None /\ error i = None) /\
  (status i = Status.processing -> error i = None).
Proof.
  intros [es ->] Hi.
  assert (Forall coherent (batch (run es initial))) as Hall.
  { apply (run_invariant (fun s => Forall coherent (batch s))).
    - intros. eapply coherent_transition; eassumption.
    - constructor. }
  pose proof (proj1 (Forall_forall _ _) Hall i Hi) as Hc. unfold coherent in Hc.
  destruct (status i); repeat split; intros; try discriminate; tauto.
Qed.

Lemma reachable_coherent_witness :
  exists i, batch stock_item !! 0 = Some i /\ status i = Status.completed /\
            is_Some (result i).
Proof.
  eexists. split; [vm_compute; reflexivity|]. split; [reflexivity|].
  refine (proj1 (reachable_coherent stock_item _ _ _) _).
  - exists stock_run. reflexivity.
  - apply (list_elem_of_lookup_2 _ 0). vm_compute. reflexivity.
  - reflexivity.
Defined.

Lemma stored_keeps us : forall (m : gmap string string) k,
  is_Some (m !! k) -> is_Some (stored us m !! k).
Proof.
  induction us as [|u us IH]; intros m k Hk; [exact Hk|].
  rewrite stored_cons. apply IH. destruct (payload_of u); [|exact Hk].
  destruct (decide (draw u = k)) as [->|Hne].
  - rewrite lookup_insert_eq. eauto.
  - by rewrite lookup_insert_ne.
Qed.

Lemma stored_new us : forall (m : gmap string string) u,
  u ∈ us -> decodes u -> is_Some (stored us m !! draw u).
Proof.
  induction us as [|v us IH]; intros m u Hu Hd; [by apply elem_of_nil in Hu|].
  rewrite stored_cons. apply elem_of_cons in Hu as [->|Hu]; [|by apply IH].
  apply stored_keeps. unfold payload_of. destruct Hd as [[w h] ->].
  rewrite lookup_insert_eq. eauto.
Qed.

Lemma store_resume o s : base64Store (resume o s) = base64Store s.
Proof. destruct o; reflexivity. Qed.

Lemma lookups_app js js' : lookups (js ++ js') = lookups js ++ lookups js'.
Proof. apply omap_app. Qed.

Lemma lookups_lookup o x js : lookups (JLookup o x :: js) = x :: lookups js.
Proof. reflexivity. Qed.

Lemma lookups_workers n r : lookups (replicate n (JWorker r)) = [].
Proof. induction n as [|n IH]; [done|exact IH]. Qed.

Lemma underway_resume o s : underway (resume o s) = underway s.
Proof.
  destruct o as [|r]; [done|]. unfold underway, resume. sfields.
  rewrite lookups_app. cbn [lookups omap]. by rewrite app_nil_r.
Qed.

Lemma attended_transition s e s' : attended s -> transition s e s' -> attended s'.
Proof.
  intros Hs Ht i Hi Hp. unfold attended in Hs.
  inversion Ht; subst; clear Ht;
    rewrite ?batch_resume in Hi; rewrite ?underway_resume; unfold underway in *; sfields;
    try (by apply Hs).
  - apply elem_of_app in Hi as [Hi|Hi]; [|by apply Hs].
    apply list_elem_of_fmap in Hi as (u & -> & _). discriminate.
  - apply elem_of_cons in Hi as [->|Hi]; [discriminate|by apply Hs].
  - apply list_elem_of_filter in Hi as [_ Hi]. by apply Hs.
  - by apply elem_of_nil in Hi.
  - apply elem_of_on_id in Hi as (j & Hj & ->).
    destruct (decide (id j = x)) as [E|E].
    + rewrite mark_processing_id, E, lookups_lookup. left.
    + pose proof (Hs j Hj Hp) as Hu.
      destruct H as [(Hidle & _ & -> & _)|[Hjobs _]].
      * unfold idle in Hidle. rewrite Hidle in Hu. rewrite lookups_lookup.
        by right.
      * rewrite Hjobs in Hu. rewrite lookups_lookup. by right.
  - apply elem_of_on_id in Hi as (j & Hj & ->).
    destruct (decide (id j = x)) as [E|E]; [discriminate|].
    pose proof (Hs j Hj Hp) as Hu. rewrite H, lookups_lookup in Hu.
    apply elem_of_cons in Hu as [Hu|Hu]; [done|exact Hu].
  - pose proof (Hs i Hi Hp) as Hu. rewrite H, lookups_lookup in Hu.
    rewrite fmap_app. cbn [fmap list_fmap call_id]. mem.
  - apply elem_of_on_id in Hi as (j & Hj & ->).
    destruct (decide (id j = call_id c)) as [E|E].
    + destruct (verdict_status o j) as [E'|E']; congruence.
    + pose proof (Hs j Hj Hp) as Hu. unfold idle in H. rewrite H in Hu.
      change (lookups []) with (@nil string) in Hu. cbn [app] in Hu.
      apply list_elem_of_fmap in Hu as (c' & Hc' & Hin).
      destruct (elem_of_delete_or _ _ _ _ H0 Hin) as [->|Hin']; [done|].
      rewrite H. change (lookups []) with (@nil string). cbn [app].
      apply list_elem_of_fmap. by exists c'.
  - rewrite lookups_app, lookups_workers. by apply Hs.
  - pose proof (Hs i Hi Hp) as Hu. rewrite H in Hu. exact Hu.
  - pose proof (Hs i Hi Hp) as Hu. rewrite H in Hu. exact Hu.
  - pose proof (Hs i Hi Hp) as Hu. rewrite H in Hu. exact Hu.
Qed.

(** X13: an item is shown as under analysis only while an analysis of it is
    under way, its payload lookup pending or its provider call in flight;
    when nothing is pending and no call is in flight, the header counts no
    item as processing. *)
Theorem processing_is_underway s :
  reachable s ->
  (forall i, i ∈ batch s -> status i = Status.processing -> id i ∈ underway s) /\
  (quiescent s -> processingCount s = 0).
Proof.
  intros [es ->].
  assert (attended (run es initial)) as Ha.
  { apply (run_invariant attended).
    - intros. eapply attended_transition; eassumption.
    - intros i Hi. by apply elem_of_nil in Hi. }
  split; [exact Ha|]. intros [Hj Hc]. unfold processingCount.
  apply length_zero_iff_nil.
  destruct (filter _ _) as [|i l] eqn:E; [done|]. exfalso.
  assert (i ∈ filter (fun i => status i = Status.processing) (batch (run es initial)))
    as Hi by (rewrite E; left).
  apply list_elem_of_filter in Hi as [Hp Hi].
  pose proof (Ha i Hi Hp) as Hu. unfold underway in Hu. rewrite Hj, Hc in Hu.
  by apply elem_of_nil in Hu.
Qed.

Lemma processing_is_underway_witness :
  underway in_flight = ["c"] /\ processingCount stock_item = 0.
Proof.
  split; [vm_compute; reflexivity|].
  refine (proj2 (processing_is_underway stock_item _) _).
  - exists stock_run. reflexivity.
  - split; vm_compute; reflexivity.
Defined.

(** X14: batch runs never overlap.  In every reachable state only the run
    launched last can have workers in their loop, the flag is set while it
    has, and the provider calls that workers await, over all runs, number at
    most five. *)
Theorem runs_do_not_overlap s :
  reachable s ->
  (forall r rn, runs s !! r = Some rn -> live rn ≠ 0 ->
     isProcessingAll s = true /\ S r = length (runs s)) /\
  length (worker_calls s) <= CONCURRENCY_LIMIT.
Proof.
  intros [es ->]. destruct (reachable_single_run es) as [Hs Hsound].
  split; [exact Hs|].
  destruct Hsound as (Hcount & Hcap & _ & _ & _ & _).
  set (s := run es initial) in *. set (R := pred (length (runs s))).
  assert (worker_calls s = calls_of R s) as ->.
  { unfold worker_calls, calls_of. apply filter_ext_in. intros c Hc. split.
    - intros Ho. destruct (call_owner c) as [|r] eqn:E; [done|]. f_equal.
      assert (live_of r s ≠ 0) as Hl.
      { rewrite <- Hcount. unfold tokens.
        assert (c ∈ calls_of r s) as Hin by (apply list_elem_of_filter; done).
        destruct (calls_of r s); [by apply elem_of_nil in Hin|cbn [length]; lia]. }
      unfold live_of in Hl. destruct (runs s !! r) as [rn|] eqn:Er; [|done].
      destruct (Hs _ _ Er Hl) as [_ Hlast]. unfold R. lia.
    - intros ->. done. }
  assert (length (calls_of R s) <= live_of R s) as Hle
    by (rewrite <- Hcount; unfold tokens; lia).
  unfold live_of in Hle. destruct (runs s !! R) as [rn|] eqn:Er.
  - pose proof (Hcap _ _ Er). lia.
  - lia.
Qed.

Lemma runs_do_not_overlap_witness :
  length (worker_calls
            (run (AddFiles three_files :: ProcessAll :: replicate 6 Microtask) initial))
  <= CONCURRENCY_LIMIT.
Proof.
  refine (proj2 (runs_do_not_overlap _ _)).
  exists (AddFiles three_files :: ProcessAll :: replicate 6 Microtask). reflexivity.
Defined.

(** ** Removal while analyses are pending *)

Lemma run_invariant_on (Q : Event -> Prop) (P : State -> Prop) :
  (forall s e s', P s -> Q e -> transition s e s' -> P s') ->
  forall es s, Forall Q es -> P s -> P (run es s).
Proof.
  intros Hstep. induction es as [|e es IH]; intros s Hes Hs; [exact Hs|].
  apply Forall_cons in Hes as [He Hes]. cbn [run foldl]. apply IH; [exact Hes|].
  destruct (step_transition e s) as [->|Ht]; [exact Hs|].
  eapply Hstep; eassumption.
Qed.

Lemma step_clear s :
  idle s ->
  step (ClearBatch true) s =
  setStore (fun _ => ∅)
    (setSelectedKeywordsMap (fun _ => ∅) (setBatch (fun _ => []) s)).
Proof. intros Hi. unfold step, turn, exec. rewrite Hi. reflexivity. Qed.


(** X15: clearing the store stops the work that was under way.  Through the
    pending jobs and the settlements that follow, the item store, the payload
    store and the selections stay empty, and no further provider call is
    started: the calls in flight are, in their order, calls that were in
    flight when the store was cleared; a worker that takes a queued item
    finds its payload gone. *)
Theorem clearBatch_stops s es :
  idle s -> Forall internal es ->
  batch (run es (step (ClearBatch true) s)) = [] /\
  base64Store (run es (step (ClearBatch true) s)) = ∅ /\
  selectedKeywordsMap (run es (step (ClearBatch true) s)) = ∅ /\
  length (calls (run es (step (ClearBatch true) s))) <= length (calls s) /\
  calls (run es (step (ClearBatch true) s)) `sublist_of` calls s.
Proof.
  intros Hi Hes.
  assert (batch (run es (step (ClearBatch true) s)) = [] /\
          base64Store (run es (step (ClearBatch true) s)) = ∅ /\
          selectedKeywordsMap (run es (step (ClearBatch true) s)) = ∅ /\
          calls (run es (step (ClearBatch true) s)) `sublist_of` calls s)
    as (H1 & H2 & H3 & H4).
  { apply (run_invariant_on internal
             (fun t => batch t = [] /\ base64Store t = ∅ /\ selectedKeywordsMap t = ∅ /\
                       calls t `sublist_of` calls s)); [|exact Hes|].
    - clear. intros t e t' (Hb & Hst & Hsel & Hc) He Ht.
      inversion Ht; subst; clear Ht; try (exfalso; exact He);
        rewrite ?batch_resume, ?store_resume, ?selected_resume, ?calls_resume; sfields;
        rewrite ?Hb; try done.
      + rewrite Hst, lookup_empty in H0. discriminate.
      + split; [done|]. split; [done|]. split; [done|].
        etrans; [apply sublist_delete|exact Hc].
    - rewrite step_clear by exact Hi. sfields. done. }
  repeat split; try done. by apply sublist_length.
Qed.

Lemma clearBatch_stops_witness :
  batch (run [Settle 0 success] (step (ClearBatch true) in_flight)) = [] /\
  calls (run [Settle 0 success] (step (ClearBatch true) in_flight))
    `sublist_of` calls in_flight.
Proof.
  destruct (clearBatch_stops in_flight [Settle 0 success]) as (H1 & _ & _ & _ & H2).
  - reflexivity.
  - repeat constructor.
  - split; [exact H1|exact H2].
Defined.




(** ** Intake that never finishes *)

(** X17: when one accepted file never decodes, [addFilesToBatch] never gets
    past [Promise.all]: no item is added, not even for the files that did
    decode, whose payloads are stored all the same, and the preparing flag
    stays set. *)
Theorem addFilesToBatch_hangs files s :
  ¬ Forall decodes (accepted files) ->
  fst (addFilesToBatch files s) = Stuck /\
  batch (exec (addFilesToBatch files) s) = batch s /\
  isPreparing (exec (addFilesToBatch files) s) = true /\
  base64Store (exec (addFilesToBatch files) s) = stored (accepted files) (base64Store s) /\
  forall u, u ∈ accepted files -> decodes u ->
            is_Some (base64Store (exec (addFilesToBatch files) s) !! draw u).
Proof.
  intros Hno. unfold exec. rewrite addFilesToBatch_unfold.
  destruct (decide (length files = 0)) as [E|_].
  { exfalso. apply Hno. apply length_zero_iff_nil in E. subst. constructor. }
  rewrite decide_False by exact Hno. sfields.
  repeat split; try reflexivity. intros u Hu Hd. by apply stored_new.
Qed.

Lemma addFilesToBatch_hangs_witness :
  fst (addFilesToBatch [ {| file := picture "a" 800 600; draw := "a" |};
                         {| file := broken; draw := "z" |} ] initial) = Stuck /\
  batch (exec (addFilesToBatch [ {| file := picture "a" 800 600; draw := "a" |};
                                 {| file := broken; draw := "z" |} ]) initial) = [].
Proof.
  destruct (addFilesToBatch_hangs [ {| file := picture "a" 800 600; draw := "a" |};
                                    {| file := broken; draw := "z" |} ] initial)
    as (H1 & H2 & _).
  - intros H. apply Forall_cons in H as [_ H]. apply Forall_cons in H as [[? H] _].
    discriminate.
  - split; [exact H1|exact H2].
Defined.

(** ** Keyword selection *)

Lemma selected_toggle x w s :
  selectedKeywords x (exec (handleToggleKeyword x w) s) =
  toggled w (selectedKeywords x s).
Proof.
  unfold selectedKeywords, handleToggleKeyword, exec, modify. sfields.
  by rewrite lookup_insert_eq.
Qed.

Lemma toggled_flip w k l :
  k ∈ toggled w l <-> (k = w /\ w ∉ l) \/ (k ≠ w /\ k ∈ l).
Proof.
  unfold toggled. destruct (decide (w ∈ l)) as [Hin|Hout].
  - rewrite list_elem_of_filter. split.
    + intros [Hne Hk]. by right.
    + intros [[_ ?]|[? ?]]; [done|done].
  - rewrite elem_of_app, list_elem_of_singleton. split.
    + intros [Hk| ->]; [right|left]; [|done]. split; [|done]. by intros ->.
    + intros [[-> _]|[_ ?]]; [by right|by left].
Qed.

(** X18: a click on a keyword flips that word and no other: the word is
    selected afterwards exactly when it was not before, every other word of
    the item stays as it was, and so do the entries of the other items, the
    item store and the payload store. *)
Theorem handleToggleKeyword_flips x w s :
  (w ∈ selectedKeywords x (exec (handleToggleKeyword x w) s) <->
   w ∉ selectedKeywords x s) /\
  (forall k, k ≠ w ->
     (k ∈ selectedKeywords x (exec (handleToggleKeyword x w) s) <->
      k ∈ selectedKeywords x s)) /\
  (forall y, y ≠ x ->
     selectedKeywordsMap (exec (handleToggleKeyword x w) s) !! y =
     selectedKeywordsMap s !! y) /\
  batch (exec (handleToggleKeyword x w) s) = batch s /\
  base64Store (exec (handleToggleKeyword x w) s) = base64Store s.
Proof.
  rewrite selected_toggle. split; [|split; [|split; [|split; reflexivity]]].
  - rewrite toggled_flip. tauto.
  - intros k Hk. rewrite toggled_flip. tauto.
  - intros y Hy. unfold handleToggleKeyword, exec, modify. sfields.
    by rewrite lookup_insert_ne.
Qed.

Lemma handleToggleKeyword_flips_witness :
  "sea" ∈ selectedKeywords "c"
            (exec (handleToggleKeyword "c" "sunset")
               (exec (handleSelectAllInItem "c" stock_keywords) stock_item)).
Proof.
  apply (proj1 (proj2 (handleToggleKeyword_flips "c" "sunset"
                         (exec (handleSelectAllInItem "c" stock_keywords) stock_item)))
           "sea"); [discriminate|].
  vm_compute. right. right. left.
Defined.

(** X19: two clicks on the same keyword leave the same words selected; the
    list itself comes back unchanged when the word was not selected, and
    with the word moved to the end, once, when it was. *)
Theorem handleToggleKeyword_twice x w s :
  (forall k, k ∈ selectedKeywords x
                   (exec (handleToggleKeyword x w) (exec (handleToggleKeyword x w) s))
             <-> k ∈ selectedKeywords x s) /\
  selectedKeywords x (exec (handleToggleKeyword x w) (exec (handleToggleKeyword x w) s)) =
    (if decide (w ∈ selectedKeywords x s)
     then filter (fun k => k ≠ w) (selectedKeywords x s) ++ [w]
     else selectedKeywords x s).
Proof.
  rewrite !selected_toggle. split.
  - intros k. rewrite !toggled_flip.
    destruct (decide (k = w)) as [->|Hne], (decide (w ∈ selectedKeywords x s));
      intuition congruence.
  - generalize (selectedKeywords x s). intros l. unfold toggled at 2.
    destruct (decide (w ∈ l)) as [Hin|Hout]; unfold toggled.
    + rewrite decide_False; [done|]. rewrite list_elem_of_filter. by intros [Hne _].
    + rewrite decide_True by (apply elem_of_app; right; left).
      rewrite filter_app, filter_cons, decide_False by tauto.
      rewrite filter_nil, app_nil_r. apply filter_all. intros k Hk ->. done.
Qed.

(** ** The outcome of an analysis *)

(** X20: when a provider call settles, the items with the call's identifier
    end as completed or as failed; they end as completed only if the provider
    answered with a body that is not empty and that parses, and they then
    carry the fields of the parsed answer; a failed one carries a message. *)
Theorem analyzeSingle_resume_outcome c o s j :
  j ∈ batch (exec (analyzeSingle_resume c o) s) -> id j = call_id c ->
  (status j = Status.completed \/ status j = Status.error) /\
  (status j = Status.completed ->
   exists t a, t ≠ "" /\ o = SdkResponded (Some t) (Some a) /\
               result j = Some (result_of a)) /\
  (status j = Status.error -> is_Some (error j)).
Proof.
  unfold exec. rewrite analyzeSingle_resume_eq. cbn [snd]. rewrite batch_resume. sfields.
  intros Hj Hid. apply elem_of_on_id in Hj as (i & Hi & ->).
  destruct (decide (id i = call_id c)) as [E|E].
  2: { rewrite Hid in E. done. }
  split; [apply verdict_status|].
  unfold verdict. destruct o as [m|[t|] [a|]]; cbn [falsy].
  - split; [discriminate|]. intros _. cbn. eauto.
  - destruct t as [|ch t]; cbn [mark_error mark_completed status result error].
    + split; [discriminate|]. eauto.
    + split; [|discriminate]. intros _. eexists _, a. split; [|split; reflexivity]. discriminate.
  - destruct t as [|ch t]; cbn [mark_error status error]; (split; [discriminate|]; eauto).
  - split; [discriminate|]. intros _. cbn. eauto.
  - split; [discriminate|]. intros _. cbn. eauto.
Qed.

Lemma analyzeSingle_resume_outcome_witness :
  exists j, batch stock_item !! 0 = Some j /\
            (status j = Status.completed \/ status j = Status.error).
Proof.
  eexists. split; [vm_compute; reflexivity|].
  refine (proj1 (analyzeSingle_resume_outcome
             {| call_id := "c"; call_data := "data:image/jpeg;base64,c";
                call_owner := Standalone |}
             (SdkResponded (Some "{}") (Some stock_answer))
             (setCalls (delete 0) in_flight) _ _ _) ) .
  - apply (list_elem_of_lookup_2 _ 0). vm_compute. reflexivity.
  - reflexivity.
Defined.

(** ** The batch button *)

(** X21: with no run active, [processAll] starts a run exactly when some
    item is pending or failed; the batch button, enabled on pending items
    only, therefore always starts one, which sets the flag and takes the
    pending and the failed items as its queue. *)
Theorem start_button_launches s :
  idle s -> isProcessingAll s = false ->
  (launches s <->
   pendingCount s + length (filter (fun i => status i = Status.error) (batch s)) ≠ 0) /\
  (pendingCount s ≠ 0 ->
   isProcessingAll (step ProcessAll s) = true /\
   queue_of (length (runs s)) (step ProcessAll s) = filter eligible (batch s) /\
   pendingCount s <= length (filter eligible (batch s))).
Proof.
  intros Hi Hf. pose proof (eligible_split (batch s)) as Hel.
  fold (pendingCount s) in Hel.
  assert (launches s <-> pendingCount s +
            length (filter (fun i => status i = Status.error) (batch s)) ≠ 0) as Hiff.
  { unfold launches. rewrite <- Hel. split.
    - intros [Hne _] E. apply length_zero_iff_nil in E. done.
    - intros Hne. split; [|done]. intros E. rewrite E in Hne. done. }
  split; [exact Hiff|]. intros Hp.
  assert (launches s) as Hl by (apply Hiff; lia).
  rewrite launch_eq by done. sfields. split; [done|]. split; [|lia].
  unfold queue_of. sfields. rewrite lookup_app_r, Nat.sub_diag by lia. done.
Qed.

Lemma start_button_launches_witness :
  isProcessingAll (step ProcessAll two_pending) = true.
Proof.
  refine (proj1 (proj2 (start_button_launches two_pending _ _) _)).
  - reflexivity.
  - reflexivity.
  - vm_compute. discriminate.
Defined.

(** ** From intake to the provider call *)

Lemma start_with_payload x d s :
  idle s -> base64Store s !! x = Some d -> d ≠ "" ->
  run [AnalyzeSingle x; Microtask] s =
  setCalls (fun cs => cs ++ [{| call_id := x; call_data := d; call_owner := Standalone |}])
    (setJobs (fun _ => [])
       (setBatch (on_id x mark_processing) (record Standalone x s))).
Proof.
  intros Hidle Hst Hd. unfold idle in Hidle.
  assert (E1 : step (AnalyzeSingle x) s =
               setJobs (cons (JLookup Standalone x))
                 (setBatch (on_id x mark_processing) (record Standalone x s))).
  { unfold step, exec, turn. rewrite Hidle. reflexivity. }
  cbn [run foldl]. rewrite E1. unfold step, exec, turn. sfields. rewrite Hidle.
  cbn [run_job]. rewrite analyzeSingle_lookup_eq. sfields. rewrite Hst.
  destruct d as [|ch d]; [done|]. reflexivity.
Qed.

(** X22: what [capturePhoto] stores is what the provider call of the item
    carries.  From an idle state, capturing a frame and starting its
    analysis puts one call in flight, for the new item and with the frame's
    data URL, and shows the item as under analysis; an analysis started on an
    item whose payload is stored carries that payload. *)
Theorem payload_round_trip x d s :
  idle s -> d ≠ "" ->
  calls (run [CapturePhoto d x; AnalyzeSingle x; Microtask] s) =
    calls s ++ [{| call_id := x; call_data := d; call_owner := Standalone |}] /\
  head (batch (run [CapturePhoto d x; AnalyzeSingle x; Microtask] s)) =
    Some (mark_processing (new_item x d)) /\
  (base64Store s !! x = Some d ->
   calls (run [AnalyzeSingle x; Microtask] s) =
     calls s ++ [{| call_id := x; call_data := d; call_owner := Standalone |}]).
Proof.
  intros Hidle Hd.
  assert (step (CapturePhoto d x) s =
          setBatch (fun prev => new_item x d :: prev) (setStore (insert x d) s)) as E.
  { unfold step, exec, turn. unfold idle in Hidle. rewrite Hidle. reflexivity. }
  change (run [CapturePhoto d x; AnalyzeSingle x; Microtask] s)
    with (run [AnalyzeSingle x; Microtask] (step (CapturePhoto d x) s)).
  rewrite E. split; [|split].
  - rewrite (start_with_payload x d); [reflexivity|exact Hidle| |exact Hd].
    sfields. apply lookup_insert_eq.
  - rewrite (start_with_payload x d); [|exact Hidle| |exact Hd].
    + sfields. unfold on_id. cbn [fmap list_fmap head new_item id].
      by rewrite decide_True.
    + sfields. apply lookup_insert_eq.
  - intros Hst. by rewrite (start_with_payload x d).
Qed.

Lemma payload_round_trip_witness :
  calls (run [CapturePhoto "data:image/jpeg;base64,c" "c"; AnalyzeSingle "c"; Microtask]
           initial) =
  [{| call_id := "c"; call_data := "data:image/jpeg;base64,c"; call_owner := Standalone |}].
Proof.
  refine (proj1 (payload_round_trip "c" "data:image/jpeg;base64,c" initial _ _)).
  - reflexivity.
  - discriminate.
Defined.

(** ** Removing what is not there *)

(** X24: removing an identifier that no item, no payload and no selection
    has leaves the state as it is; hence removing an item a second time
    changes nothing. *)
Theorem removeItem_idempotent x s :
  exec (removeItem x) (exec (removeItem x) s) = exec (removeItem x) s /\
  (x ∉ id <$> batch s -> base64Store s !! x = None ->
   selectedKeywordsMap s !! x = None -> exec (removeItem x) s = s).
Proof.
  assert (forall t, x ∉ id <$> batch t -> base64Store t !! x = None ->
                    selectedKeywordsMap t !! x = None -> exec (removeItem x) t = t) as Hnoop.
  { intros t Hb Hst Hsel. unfold exec. rewrite removeItem_eq. cbn [snd].
    destruct t as [b st sel pa pp rs cs js tr]. sfields.
    unfold setSelectedKeywordsMap, setStore, setBatch. sfields. f_equal.
    - apply filter_all. intros i Hi E. apply Hb. apply list_elem_of_fmap. by exists i.
    - by apply delete_id.
    - by apply delete_id. }
  split; [|apply Hnoop].
  apply Hnoop.
  - apply removeItem_absent.
  - unfold exec. rewrite removeItem_eq. sfields. apply lookup_delete_eq.
  - unfold exec. rewrite removeItem_eq. sfields. apply lookup_delete_eq.
Qed.

Lemma removeItem_idempotent_witness :
  exec (removeItem "ghost") two_pending = two_pending.
Proof.
  refine (proj2 (removeItem_idempotent "ghost" two_pending) _ _ _).
  - vm_compute. intros H. repeat (apply elem_of_cons in H as [H|H]; [discriminate|]).
    by apply elem_of_nil in H.
  - vm_compute. reflexivity.
  - vm_compute. reflexivity.
Defined.

